(** * redis-autopipeline: a shallow embedding of the coalescing engine

    The Go package [redis_autopipeline] packs redis commands issued by many
    goroutines into one pipeline.  This development embeds

    - [hash.go]        : [hashStringSlice], the fingerprint of an operation;
    - [transformer.go] : the [transformX] / [normalizeX] pairs;
    - the cache engine : [redisOperation], [cache], [newCache], [run],
                         [runPipeline], [sendResult], [enqueue];
    - [client.go]      : the operation kinds, the errors and the [XAsync]
                         entry points

    and proves properties of them.  Go strings are byte strings and are
    modelled by [string]; a slice is modelled by the list of its elements
    (a nil slice and an empty slice are both [[]]); Go maps are [gmap]s.
    Fixed-width integers are integers of [Z] with the wrap-around written
    out. *)

From Stdlib Require Import ZArith Ascii String.
From stdpp Require Import gmap strings list fin_maps.

Local Open Scope Z_scope.

(** ** Machine integers *)

(** Two's-complement reduction of an integer to [bits] bits, signed. *)
Definition wrapSigned (bits : Z) (x : Z) : Z :=
  (x + 2 ^ (bits - 1)) mod 2 ^ bits - 2 ^ (bits - 1).

(** Go's [int32(x)] and [int64(x)] conversions. *)
Definition int32 (x : Z) : Z := wrapSigned 32 x.
Definition int64 (x : Z) : Z := wrapSigned 64 x.

Definition minInt64 : Z := - 2 ^ 63.
Definition maxInt64 : Z := 2 ^ 63 - 1.
Definition maxInt32 : Z := 2 ^ 31 - 1.

(** ** crypto/sha256

    [hashStringSlice] calls [sha256.Sum256] of the Go standard library.
    The function is written here after FIPS 180-4 so that fingerprints can
    be evaluated; the expected digests of the package's own hash test are
    checked against it below. *)
Module Sha256.

Definition w32 (x : Z) : Z := Z.land x 0xFFFFFFFF.
Definition add32 (x y : Z) : Z := w32 (x + y).
Definition rotr (n x : Z) : Z :=
  Z.lor (Z.shiftr x n) (w32 (Z.shiftl x (32 - n))).
Definition not32 (x : Z) : Z := Z.lxor x 0xFFFFFFFF.

Definition Ch (x y z : Z) : Z := Z.lxor (Z.land x y) (Z.land (not32 x) z).
Definition Maj (x y z : Z) : Z :=
  Z.lxor (Z.lxor (Z.land x y) (Z.land x z)) (Z.land y z).
Definition bigSigma0 (x : Z) : Z :=
  Z.lxor (Z.lxor (rotr 2 x) (rotr 13 x)) (rotr 22 x).
Definition bigSigma1 (x : Z) : Z :=
  Z.lxor (Z.lxor (rotr 6 x) (rotr 11 x)) (rotr 25 x).
Definition smallSigma0 (x : Z) : Z :=
  Z.lxor (Z.lxor (rotr 7 x) (rotr 18 x)) (Z.shiftr x 3).
Definition smallSigma1 (x : Z) : Z :=
  Z.lxor (Z.lxor (rotr 17 x) (rotr 19 x)) (Z.shiftr x 10).

(** The first sixty-four primes. *)
Definition primes : list Z :=
  [2; 3; 5; 7; 11; 13; 17; 19; 23; 29; 31; 37; 41; 43; 47; 53; 59; 61; 67;
   71; 73; 79; 83; 89; 97; 101; 103; 107; 109; 113; 127; 131; 137; 139; 149;
   151; 157; 163; 167; 173; 179; 181; 191; 193; 197; 199; 211; 223; 227; 229;
   233; 239; 241; 251; 257; 263; 269; 271; 277; 281; 283; 293; 307; 311].

(** The integer cube root of [n < 2 ^ (3 * bits)], bit after bit from the
    highest; [r] holds the bits found. *)
Fixpoint cubeRoot (bits : nat) (n r : Z) : Z :=
  match bits with
  | O => r
  | S b =>
      let r' := r + 2 ^ Z.of_nat b in
      if r' * r' * r' <=? n then cubeRoot b n r' else cubeRoot b n r
  end.

(** The round constants: the first 32 bits of the fractional parts of the
    cube roots of the primes. *)
Definition K : list Z :=
  List.map (fun p => w32 (cubeRoot 36 (p * 2 ^ 96) 0)) primes.

(** The initial hash value: the first 32 bits of the fractional parts of
    the square roots of the first eight primes. *)
Definition H0 : list Z :=
  List.map (fun p => w32 (Z.sqrt (p * 2 ^ 64))) (firstn 8 primes).

(** The [n] low bytes of [x], most significant first. *)
Fixpoint bigEndian (n : nat) (x : Z) : list Z :=
  match n with
  | O => []
  | S n' => bigEndian n' (Z.shiftr x 8) ++ [Z.land x 0xFF]
  end.

(** Padding: a one bit, zero bytes up to 56 modulo 64, the bit length. *)
Definition pad (msg : list Z) : list Z :=
  let len := Z.of_nat (length msg) in
  msg ++ [0x80] ++ replicate (Z.to_nat ((55 - len) mod 64)) 0
      ++ bigEndian 8 (8 * len).

Fixpoint words (fuel : nat) (bs : list Z) : list Z :=
  match fuel, bs with
  | S f, a :: b :: c :: d :: rest =>
      Z.lor (Z.shiftl a 24) (Z.lor (Z.shiftl b 16) (Z.lor (Z.shiftl c 8) d))
        :: words f rest
  | _, _ => []
  end.

(** The message schedule, most recent word first. *)
Fixpoint extend (n : nat) (wrev : list Z) : list Z :=
  match n with
  | O => wrev
  | S n' =>
      let w := add32 (add32 (smallSigma1 (nth 1 wrev 0)) (nth 6 wrev 0))
                     (add32 (smallSigma0 (nth 14 wrev 0)) (nth 15 wrev 0)) in
      extend n' (w :: wrev)
  end.

Definition messageSchedule (block : list Z) : list Z :=
  rev (extend 48 (rev block)).

Definition round (s : list Z) (kw : Z * Z) : list Z :=
  match s with
  | [a; b; c; d; e; f; g; h] =>
      let t1 := add32 (add32 (add32 h (bigSigma1 e))
                             (add32 (Ch e f g) (fst kw))) (snd kw) in
      let t2 := add32 (bigSigma0 a) (Maj a b c) in
      [add32 t1 t2; a; b; c; add32 d t1; e; f; g]
  | _ => s
  end.

Definition compress (h : list Z) (block : list Z) : list Z :=
  let s := fold_left round (combine K (messageSchedule block)) h in
  List.map (fun p => add32 (fst p) (snd p)) (combine h s).

Fixpoint blocks (fuel : nat) (ws : list Z) : list (list Z) :=
  match fuel with
  | O => []
  | S f =>
      match ws with
      | [] => []
      | _ => firstn 16 ws :: blocks f (skipn 16 ws)
      end
  end.

(** [sha256.Sum256]: the 32 bytes of the digest. *)
Definition Sum256 (msg : list Z) : list Z :=
  let p := pad msg in
  let ws := words (length p) p in
  flat_map (bigEndian 4) (fold_left compress (blocks (length ws) ws) H0).

End Sha256.

(** ** Bytes and strings *)

Definition byteOfAscii (a : ascii) : Z := Z.of_N (N_of_ascii a).
Definition asciiOfByte (b : Z) : ascii := ascii_of_N (Z.to_N b).

(** [[]byte(s)] *)
Definition bytesOfString (s : string) : list Z :=
  byteOfAscii <$> list_ascii_of_string s.

(** One lower-case hexadecimal digit. *)
Definition hexDigit (n : Z) : ascii :=
  asciiOfByte (if n <? 10 then 48 + n else 87 + n).

(** [fmt.Sprintf("%x", b)] for a byte array [b]: two digits per byte. *)
Fixpoint sprintfHex (bs : list Z) : string :=
  match bs with
  | [] => EmptyString
  | b :: rest =>
      String (hexDigit (Z.shiftr b 4))
        (String (hexDigit (Z.land b 15)) (sprintfHex rest))
  end.

(** ** strconv

    [strconv.Itoa] and [strconv.Atoi] of the Go standard library, for the
    64-bit [int] of the platforms the package is built for. *)
Module Strconv.

Inductive NumError : Type :=
| ErrSyntax
| ErrRange.

Definition digitChar (d : Z) : ascii := asciiOfByte (48 + d).

(** The decimal digits of [u >= 0], prepended to [acc]; an unsigned 64-bit
    number has at most twenty of them. *)
Fixpoint formatBits (fuel : nat) (u : Z) (acc : string) : string :=
  match fuel with
  | O => acc
  | S f =>
      let acc' := String (digitChar (u mod 10)) acc in
      if u <? 10 then acc' else formatBits f (u / 10) acc'
  end.

Definition Itoa (i : Z) : string :=
  if i <? 0 then String "-" (formatBits 20 (- i) EmptyString)
  else formatBits 20 i EmptyString.

Definition maxUint64 : Z := 2 ^ 64 - 1.

(** The smallest number whose tenfold exceeds [maxUint64]. *)
Definition cutoff : Z := maxUint64 / 10 + 1.

(** The loop of [ParseUint] in base 10, [n] being the number read so far.
    A byte that is not a digit ends it with a syntax error; a digit that
    takes the number past [maxUint64] ends it with a range error, whatever
    the bytes after it are. *)
Fixpoint parseUintFrom (s : string) (n : Z) : Z * option NumError :=
  match s with
  | EmptyString => (n, None)
  | String c rest =>
      let d := byteOfAscii c - 48 in
      if negb ((0 <=? d) && (d <=? 9)) then (0, Some ErrSyntax)
      else if cutoff <=? n then (maxUint64, Some ErrRange)
      else if maxUint64 <? n * 10 + d then (maxUint64, Some ErrRange)
      else parseUintFrom rest (n * 10 + d)
  end.

(** [strconv.ParseUint(s, 10, 0)] *)
Definition ParseUint (s : string) : Z * option NumError :=
  match s with
  | EmptyString => (0, Some ErrSyntax)
  | _ => parseUintFrom s 0
  end.

(** [strconv.ParseInt(s, 10, 0)]: the sign is picked off, the rest is read
    by [ParseUint]; a syntax error yields 0, a value out of range the
    nearest bound, each with its error. *)
Definition ParseInt (s : string) : Z * option NumError :=
  match s with
  | EmptyString => (0, Some ErrSyntax)
  | String c rest =>
      let neg := bool_decide (c = "-"%char) in
      let digits :=
        if bool_decide (c = "+"%char) || bool_decide (c = "-"%char)
        then rest else s in
      match ParseUint digits with
      | (_, Some ErrSyntax) => (0, Some ErrSyntax)
      | (un, _) =>
          if negb neg && (2 ^ 63 <=? un) then (maxInt64, Some ErrRange)
          else if neg && (2 ^ 63 <? un) then (minInt64, Some ErrRange)
          else (if neg then - un else un, None)
      end
  end.

(** [strconv.Atoi]: its path for short strings computes what [ParseInt]
    does, which it calls for the others. *)
Definition Atoi (s : string) : Z * option NumError := ParseInt s.

End Strconv.

(** ** client.go: operation kinds, constants, errors *)

(** [type operationPrefix byte], with the constants [iota + 1]. *)
Inductive operationPrefix : Type :=
| HDel
| Expire
| HGet
| HGetAll
| Get
| Del
| SMembers
| MGet.

#[global] Instance operationPrefix_eq_dec : EqDecision operationPrefix.
Proof. solve_decision. Defined.

(** [byte(operation)] *)
Definition byteOfOperation (operation : operationPrefix) : Z :=
  match operation with
  | HDel => 1
  | Expire => 2
  | HGet => 3
  | HGetAll => 4
  | Get => 5
  | Del => 6
  | SMembers => 7
  | MGet => 8
  end.

(** Durations are nanosecond counts ([time.Duration] is an [int64]). *)
Definition Nanosecond : Z := 1.
Definition Microsecond : Z := 1000.

Definition defaultCacheTTL : Z := Microsecond * 1000.
Definition defaultCacheSize : Z := 100.
Definition defaultRunInterval : Z := 50 * Microsecond.
Definition resultChannelBufferSize : nat := 1.

(** The package's error values, and the other things handed to
    [Logger.Error]. *)
Inductive logged : Type :=
| ErrCacheStopped
| ErrHashNotFound (hash : string)
| ErrExec (msg : string)
| Recovered (panic : string).

(** ** hash.go *)

Definition hashDelimiter : string := ",".

(** The bytes written to the buffer: the kind byte, then every argument
    followed by the delimiter. *)
Definition hashBuffer (operation : operationPrefix) (args : list string)
  : string :=
  foldl (fun buffer s => buffer +:+ s +:+ hashDelimiter)
        (String (asciiOfByte (byteOfOperation operation)) EmptyString) args.

(** [hashStringSlice] returns the hexadecimal SHA-256 of the buffer. *)
Definition hashStringSlice (operation : operationPrefix) (args : list string)
  : string :=
  sprintfHex (Sha256.Sum256 (bytesOfString (hashBuffer operation args))).

#[global] Arguments Sha256.Sum256 : simpl never.
#[global] Arguments hashStringSlice : simpl never.

(** ** transformer.go

    Indexing a slice out of range is a run-time panic in Go; a [normalizeX]
    function returns [None] where the Go function panics. *)

Definition transformHDel (key : string) (fields : list string) : list string :=
  match fields with
  | [] => [key]
  | _ => key :: fields
  end.

Definition normalizeHDel (values : list string) : option (string * list string) :=
  match values with
  | [] => None
  | [key] => Some (key, [])
  | key :: fields => Some (key, fields)
  end.

Definition transformDel (keys : list string) : list string := keys.
Definition normalizeDel (values : list string) : list string := values.

Definition transformMGet (keys : list string) : list string := keys.
Definition normalizeMGet (values : list string) : list string := values.

Definition transformHGet (key field : string) : list string := [key; field].

Definition normalizeHGet (values : list string) : option (string * string) :=
  match values with
  | key :: field :: _ => Some (key, field)
  | _ => None
  end.

Definition transformGet (key : string) : list string := [key].

Definition normalizeGet (values : list string) : option string :=
  match values with
  | key :: _ => Some key
  | [] => None
  end.

Definition transformHGetAll (key : string) : list string := [key].

Definition normalizeHGetAll (values : list string) : option string :=
  match values with
  | key :: _ => Some key
  | [] => None
  end.

Definition transformSMembers (key : string) : list string := [key].

Definition normalizeSMembers (values : list string) : option string :=
  match values with
  | key :: _ => Some key
  | [] => None
  end.

(** [int(expiration.Nanoseconds())] is the identity on a 64-bit platform. *)
Definition transformExpire (key : string) (expiration : Z) : list string :=
  [key; Strconv.Itoa (int64 expiration)].

(** [values[1]] is read before [values[0]]; the error of [Atoi] is
    dropped. *)
Definition normalizeExpire (values : list string) : option (string * Z) :=
  match values with
  | key :: nanoseconds :: _ => Some (key, int64 (fst (Strconv.Atoi nanoseconds)))
  | _ => None
  end.

(** ** go-redis: what the engine consumes of the client

    The engine queues commands on a pipeline ([pipe.HDel], [pipe.Get], ...),
    asks for one round-trip ([pipe.Exec]) and hands the command objects,
    which the round-trip has filled in, to the listeners. *)

Inductive redisCall : Type :=
| CallHDel (key : string) (fields : list string)
| CallDel (keys : list string)
| CallMGet (keys : list string)
| CallHGet (key field : string)
| CallGet (key : string)
| CallHGetAll (key : string)
| CallSMembers (key : string)
| CallExpire (key : string) (expiration : Z).

Inductive cmdType : Type :=
| IntCmd
| SliceCmd
| StringCmd
| MapStringStringCmd
| StringSliceCmd
| BoolCmd.

#[global] Instance cmdType_eq_dec : EqDecision cmdType.
Proof. solve_decision. Defined.

(** What the server answered to one command. *)
Inductive reply : Type :=
| ReplyInt (n : Z)
| ReplyBool (b : bool)
| ReplyString (s : string)
| ReplyStrings (l : list string)
| ReplyMap (l : list (string * string))
| ReplySlice (l : list (option string))
| ReplyNil
| ReplyError (msg : string).

(** A command object: its type, the call it was created by, its position
    in the pipeline, and the answer once the round-trip has set it. *)
Record redisCmd : Type := {
  cmdKind : cmdType;
  cmdCall : redisCall;
  cmdSlot : nat;
  cmdVal : option reply
}.

(** The error of [pipe.Exec]: [redis.Nil] or anything else. *)
Inductive execError : Type :=
| RedisNil
| ExecFailure (msg : string).

(** One round-trip as the engine sees it: the error [Exec] returns and the
    answers, by position in the pipeline. *)
Record roundTrip : Type := {
  rtErr : option execError;
  rtReplies : list reply
}.

(** The command a call of the pipeline returns: no answer yet. *)
Definition newCmd (ty : cmdType) (call : redisCall) (slot : nat) : redisCmd :=
  {| cmdKind := ty; cmdCall := call; cmdSlot := slot; cmdVal := None |}.

(** [Exec] fills in the commands of the pipeline with the answers. *)
Definition populate (answers : list reply) (cmd : redisCmd) : redisCmd :=
  {| cmdKind := cmdKind cmd; cmdCall := cmdCall cmd; cmdSlot := cmdSlot cmd;
     cmdVal := answers !! cmdSlot cmd |}.

(** ** The world outside the cache: channels, logger, redis client *)

(** A [chan interface{}] of capacity [resultChannelBufferSize]. *)
Record channel : Type := {
  chClosed : bool;
  chBuf : list redisCmd
}.

Inductive event : Type :=
| EvPipeline                         (* [c.client.Pipeline()] *)
| EvExec (calls : list redisCall)    (* [pipe.Exec(ctx)] of these commands *)
| EvLog (e : logged).                (* [c.log.Error(e)] *)

(** The channels allocated so far, a channel being named by its position,
    and the calls made on the client and the logger, latest first. *)
Record world : Type := {
  chans : list channel;
  trace : list event
}.

Definition withChans (cs : list channel) (w : world) : world :=
  {| chans := cs; trace := trace w |}.

Definition emit (e : event) (w : world) : world :=
  {| chans := chans w; trace := e :: trace w |}.

Definition logError (e : logged) (w : world) : world := emit (EvLog e) w.

(** [make(chan interface{}, resultChannelBufferSize)] *)
Definition makeChan (w : world) : nat * world :=
  (length (chans w),
   withChans (chans w ++ [{| chClosed := false; chBuf := [] |}]) w).

(** [close(r)] of a channel that is open; closing a closed channel panics
    in the goroutine that closes. *)
Definition closeChan (r : nat) (w : world) : world :=
  match chans w !! r with
  | Some ch => withChans (<[r := {| chClosed := true; chBuf := chBuf ch |}]> (chans w)) w
  | None => w
  end.

Inductive sent : Type :=
| SendDone (w : world)
| SendPanic            (* send on closed channel *)
| SendBlock.           (* the buffer is full: the sender waits *)

(** [r <- v] *)
Definition chanSend (r : nat) (v : redisCmd) (w : world) : sent :=
  match chans w !! r with
  | Some ch =>
      if chClosed ch then SendPanic
      else if bool_decide (length (chBuf ch) < resultChannelBufferSize)%nat
      then SendDone (withChans (<[r := {| chClosed := false; chBuf := chBuf ch ++ [v] |}]> (chans w)) w)
      else SendBlock
  | None => SendBlock
  end.

Inductive received : Type :=
| RecvValue (v : redisCmd) (w : world)   (* [v, true] *)
| RecvClosed                             (* [nil, false] *)
| RecvBlock.                             (* nothing to read yet *)

(** [v, ok := <-r] *)
Definition chanRecv (r : nat) (w : world) : received :=
  match chans w !! r with
  | Some ch =>
      match chBuf ch with
      | v :: rest =>
          RecvValue v (withChans (<[r := {| chClosed := chClosed ch; chBuf := rest |}]> (chans w)) w)
      | [] => if chClosed ch then RecvClosed else RecvBlock
      end
  | None => RecvBlock
  end.

(** ** The cache *)

Record redisOperation : Type := {
  args : list string;
  listeners : list nat;
  kind : operationPrefix
}.

Definition withListeners (ls : list nat) (o : redisOperation) : redisOperation :=
  {| args := args o; listeners := ls; kind := kind o |}.

(** The fields of [cache] that hold data; the mutex, the client and the
    logger are the world's. *)
Record cache : Type := {
  storage : gmap string redisOperation;
  activeListeners : Z;          (* atomic.Int32 *)
  storageThresholdSize : Z;     (* int32 *)
  storageThresholdTime : Z;     (* time.Duration *)
  runInterval : Z;              (* time.Duration *)
  lastPipeline : Z;             (* atomic.Int64, microseconds *)
  done : bool                   (* atomic.Bool *)
}.

Definition withStorage (s : gmap string redisOperation) (c : cache) : cache :=
  {| storage := s; activeListeners := activeListeners c;
     storageThresholdSize := storageThresholdSize c;
     storageThresholdTime := storageThresholdTime c;
     runInterval := runInterval c; lastPipeline := lastPipeline c;
     done := done c |}.

Definition withActiveListeners (n : Z) (c : cache) : cache :=
  {| storage := storage c; activeListeners := n;
     storageThresholdSize := storageThresholdSize c;
     storageThresholdTime := storageThresholdTime c;
     runInterval := runInterval c; lastPipeline := lastPipeline c;
     done := done c |}.

Definition withLastPipeline (t : Z) (c : cache) : cache :=
  {| storage := storage c; activeListeners := activeListeners c;
     storageThresholdSize := storageThresholdSize c;
     storageThresholdTime := storageThresholdTime c;
     runInterval := runInterval c; lastPipeline := t;
     done := done c |}.

Definition withDone (b : bool) (c : cache) : cache :=
  {| storage := storage c; activeListeners := activeListeners c;
     storageThresholdSize := storageThresholdSize c;
     storageThresholdTime := storageThresholdTime c;
     runInterval := runInterval c; lastPipeline := lastPipeline c;
     done := b |}.

(** [c.activeListeners.Add(d)] *)
Definition addActiveListeners (d : Z) (c : cache) : cache :=
  withActiveListeners (int32 (activeListeners c + d)) c.

(** [time.Now().UnixMicro()] for a clock reading in nanoseconds. *)
Definition unixMicro (now : Z) : Z := int64 (now / 1000).

(** [newCache], without the start of the [run] goroutine; [size] is a
    [uint] and [now] the clock reading. *)
Definition newCache (now ttl interval size : Z) : cache :=
  {| storage := ∅; activeListeners := 0;
     storageThresholdSize := int32 size;
     storageThresholdTime := ttl;
     runInterval := interval;
     lastPipeline := unixMicro now;
     done := false |}.

(** How a call of a function of the engine ends. *)
Inductive outcome : Type :=
| Returned (c : cache) (w : world)
| Panicked (v : string) (c : cache) (w : world)  (* an unrecovered panic *)
| Parked (c : cache) (w : world).                (* blocked on a channel *)

Definition andThen (o : outcome) (k : cache -> world -> outcome) : outcome :=
  match o with
  | Returned c w => k c w
  | _ => o
  end.

Definition cacheOf (o : outcome) : cache :=
  match o with
  | Returned c _ | Panicked _ c _ | Parked c _ => c
  end.

Definition worldOf (o : outcome) : world :=
  match o with
  | Returned _ w | Panicked _ _ w | Parked _ w => w
  end.

(** *** enqueue *)

Definition enqueue (kind : operationPrefix) (args : list string)
    (c : cache) (w : world) : nat * cache * world :=
  let '(resultCh, w) := makeChan w in
  if done c then (resultCh, c, closeChan resultCh (logError ErrCacheStopped w))
  else
    let h := hashStringSlice kind args in
    match storage c !! h with
    | None =>
        let o := {| args := args; listeners := [resultCh]; kind := kind |} in
        (resultCh, addActiveListeners 1 (withStorage (<[h := o]> (storage c)) c), w)
    | Some o =>
        let o := withListeners (listeners o ++ [resultCh]) o in
        (resultCh, addActiveListeners 1 (withStorage (<[h := o]> (storage c)) c), w)
    end.

(** *** sendResult *)

(** The loop over the listeners: a send, then the decrement. *)
Fixpoint deliver (redisCmd : redisCmd) (ls : list nat) (c : cache) (w : world)
  : outcome :=
  match ls with
  | [] => Returned c w
  | r :: rest =>
      match chanSend r redisCmd w with
      | SendDone w' => deliver redisCmd rest (addActiveListeners (-1) c) w'
      | SendPanic => Panicked "send on closed channel" c w
      | SendBlock => Parked c w
      end
  end.

Definition sendResult (hash : string) (redisCmd : redisCmd)
    (c : cache) (w : world) : outcome :=
  match storage c !! hash with
  | None => Returned c (logError (ErrHashNotFound hash) w)
  | Some o =>
      match deliver redisCmd (listeners o) (withStorage (delete hash (storage c)) c) w with
      | Panicked r c' w' => Returned c' (logError (Recovered r) w')
      | out => out
      end
  end.

(** *** runPipeline *)

(** The pipeline under construction and the six maps of commands. *)
Record pipeline : Type := {
  pipe : list redisCall;
  intCmds : gmap string redisCmd;
  sliceCmds : gmap string redisCmd;
  stringCmds : gmap string redisCmd;
  stringStringMapCmds : gmap string redisCmd;
  stringSliceCmds : gmap string redisCmd;
  boolCmds : gmap string redisCmd
}.

Definition emptyPipeline : pipeline :=
  {| pipe := []; intCmds := ∅; sliceCmds := ∅; stringCmds := ∅;
     stringStringMapCmds := ∅; stringSliceCmds := ∅; boolCmds := ∅ |}.

(** The map that holds the commands of one type. *)
Definition cmdsOf (ty : cmdType) (p : pipeline) : gmap string redisCmd :=
  match ty with
  | IntCmd => intCmds p
  | SliceCmd => sliceCmds p
  | StringCmd => stringCmds p
  | MapStringStringCmd => stringStringMapCmds p
  | StringSliceCmd => stringSliceCmds p
  | BoolCmd => boolCmds p
  end.

(** [xCmds[hash] = pipe.X(ctx, ...)]: the call is queued and the command
    it returns is stored under [hash] in the map of its type. *)
Definition queue (ty : cmdType) (hash : string) (call : redisCall)
    (p : pipeline) : pipeline :=
  let cmd := newCmd ty call (length (pipe p)) in
  let add (ty' : cmdType) (m : gmap string redisCmd) :=
    if decide (ty' = ty) then <[hash := cmd]> m else m in
  {| pipe := pipe p ++ [call];
     intCmds := add IntCmd (intCmds p);
     sliceCmds := add SliceCmd (sliceCmds p);
     stringCmds := add StringCmd (stringCmds p);
     stringStringMapCmds := add MapStringStringCmd (stringStringMapCmds p);
     stringSliceCmds := add StringSliceCmd (stringSliceCmds p);
     boolCmds := add BoolCmd (boolCmds p) |}.

(** The [switch op.kind]: the arguments are normalized and become a call
    of the pipeline, whose command has the type shown. *)
Definition toCall (op : redisOperation) : option (cmdType * redisCall) :=
  match kind op with
  | HDel => '(key, fields) ← normalizeHDel (args op); Some (IntCmd, CallHDel key fields)
  | Del => Some (IntCmd, CallDel (normalizeDel (args op)))
  | MGet => Some (SliceCmd, CallMGet (normalizeMGet (args op)))
  | HGet => '(key, field) ← normalizeHGet (args op); Some (StringCmd, CallHGet key field)
  | Get => key ← normalizeGet (args op); Some (StringCmd, CallGet key)
  | HGetAll => key ← normalizeHGetAll (args op); Some (MapStringStringCmd, CallHGetAll key)
  | SMembers => key ← normalizeSMembers (args op); Some (StringSliceCmd, CallSMembers key)
  | Expire => '(key, duration) ← normalizeExpire (args op); Some (BoolCmd, CallExpire key duration)
  end.

(** The loop [for hash, op := range c.storage]; [None] when a [normalizeX]
    panics. *)
Fixpoint gather (ops : list (string * redisOperation)) (p : pipeline)
  : option pipeline :=
  match ops with
  | [] => Some p
  | (hash, op) :: rest =>
      match toCall op with
      | Some (ty, call) => gather rest (queue ty hash call p)
      | None => None
      end
  end.

(** The six loops [for hash, cmd := range xCmds { c.sendResult(hash, cmd) }],
    in the order of the source. *)
Definition results (p : pipeline) : list (string * redisCmd) :=
  map_to_list (intCmds p) ++ map_to_list (sliceCmds p)
    ++ map_to_list (stringCmds p) ++ map_to_list (stringStringMapCmds p)
    ++ map_to_list (stringSliceCmds p) ++ map_to_list (boolCmds p).

Fixpoint dispatch (answers : list reply) (rs : list (string * redisCmd))
    (c : cache) (w : world) : outcome :=
  match rs with
  | [] => Returned c w
  | (hash, cmd) :: rest =>
      andThen (sendResult hash (populate answers cmd) c w) (dispatch answers rest)
  end.

Definition execMessage (e : execError) : option string :=
  match e with
  | RedisNil => None
  | ExecFailure msg => Some msg
  end.

(** [runPipeline]; [rt] is what the round-trip yields and [now] the clock
    reading taken after it.  Go ranges over a map in an unspecified order;
    the order here is that of [map_to_list]. *)
Definition runPipeline (rt : roundTrip) (now : Z) (c : cache) (w : world)
  : outcome :=
  let w := emit EvPipeline w in
  match gather (map_to_list (storage c)) emptyPipeline with
  | None => Panicked "index out of range" c w
  | Some p =>
      let w := emit (EvExec (pipe p)) w in
      match rtErr rt ≫= execMessage with
      | Some msg => Returned c (logError (ErrExec msg) w)
      | None =>
          dispatch (rtReplies rt) (results p)
            (withLastPipeline (unixMicro now) c) w
      end
  end.

(** *** run *)

(** [c.activeListeners.Load() > c.storageThresholdSize] *)
Definition sizeTrigger (c : cache) : bool :=
  storageThresholdSize c <? activeListeners c.

(** [lastRun.Add(c.storageThresholdTime).Before(time.Now()) &&
    c.activeListeners.Load() > 0], with [lastRun] the time of
    [c.lastPipeline] and the times in nanoseconds. *)
Definition timeTrigger (now : Z) (c : cache) : bool :=
  let lastRun := lastPipeline c * 1000 in
  (lastRun + storageThresholdTime c <? now) && (0 <? activeListeners c).

(** What one turn of the loop of [run] reads from outside: whether the
    context is done, the clock after the sleep, and the round-trip and the
    clock after it should the pipeline run. *)
Record turn : Type := {
  cancelled : bool;
  clock : Z;
  answer : roundTrip;
  clockAfter : Z
}.

(** The [default] case of the [select]. *)
Definition runDefault (t : turn) (c : cache) (w : world) : outcome :=
  if sizeTrigger c then runPipeline (answer t) (clockAfter t) c w
  else if timeTrigger (clock t) c then runPipeline (answer t) (clockAfter t) c w
  else Returned c w.

(** The [<-ctx.Done()] case. *)
Definition runDone (t : turn) (c : cache) (w : world) : outcome :=
  let c := withDone true c in
  if 0 <? activeListeners c then runPipeline (answer t) (clockAfter t) c w
  else Returned c w.

(** The loop of [run] over the turns it takes: it goes on after a turn of
    the [default] case that returns, and returns after the turn in which
    the context is done. *)
Fixpoint run (ts : list turn) (c : cache) (w : world) : outcome :=
  match ts with
  | [] => Returned c w
  | t :: rest =>
      if cancelled t then runDone t c w
      else andThen (runDefault t c w) (run rest)
  end.

(** ** client.go: the asynchronous entry points *)

Definition HDelAsync (key : string) (fields : list string) :=
  enqueue HDel (transformHDel key fields).
Definition ExpireAsync (key : string) (expiration : Z) :=
  enqueue Expire (transformExpire key expiration).
Definition HGetAsync (key field : string) :=
  enqueue HGet (transformHGet key field).
Definition HGetAllAsync (key : string) :=
  enqueue HGetAll (transformHGetAll key).
Definition GetAsync (key : string) :=
  enqueue Get (transformGet key).
Definition DelAsync (keys : list string) :=
  enqueue Del (transformDel keys).
Definition SMembersAsync (key : string) :=
  enqueue SMembers (transformSMembers key).
Definition MGetAsync (keys : list string) :=
  enqueue MGet (transformMGet keys).

(** ** Schedules

    The goroutines of the callers and the goroutine of [run] interleave.
    A schedule lists what happens, one step after the other, a step being
    a whole call or a whole turn of the loop; the callers' steps that fall
    inside a turn are added further down.  A step that does not return
    ends the schedule: the read of an open handle that holds nothing waits,
    and the close of a handle that is closed, or of none, panics in the
    goroutine of the caller. *)

(** [enqueue] from the hash on: what is left to do of a call that found the
    cache running, whatever has become of [done] since. *)
Definition register (kind : operationPrefix) (args : list string)
    (c : cache) (w : world) : nat * cache * world :=
  let '(resultCh, w) := makeChan w in
  let h := hashStringSlice kind args in
  match storage c !! h with
  | None =>
      let o := {| args := args; listeners := [resultCh]; kind := kind |} in
      (resultCh, addActiveListeners 1 (withStorage (<[h := o]> (storage c)) c), w)
  | Some o =>
      let o := withListeners (listeners o ++ [resultCh]) o in
      (resultCh, addActiveListeners 1 (withStorage (<[h := o]> (storage c)) c), w)
  end.

Inductive step : Type :=
| DoEnqueue (kind : operationPrefix) (args : list string)
| DoRegister (kind : operationPrefix) (args : list string)
                         (* the rest of an [enqueue] that read [done] earlier *)
| DoClose (r : nat)      (* a caller closes its handle *)
| DoReceive (r : nat)    (* a caller reads its handle *)
| DoTurn (t : turn).     (* one turn of the loop of [run] *)

Definition doStep (s : step) (c : cache) (w : world) : outcome :=
  match s with
  | DoEnqueue kind args => let '(_, c, w) := enqueue kind args c w in Returned c w
  | DoRegister kind args => let '(_, c, w) := register kind args c w in Returned c w
  | DoClose r =>
      match chans w !! r with
      | Some ch =>
          if chClosed ch then Panicked "close of closed channel" c w
          else Returned c (closeChan r w)
      | None => Panicked "close of nil channel" c w
      end
  | DoReceive r =>
      match chanRecv r w with
      | RecvValue _ w' => Returned c w'
      | RecvClosed => Returned c w
      | RecvBlock => Parked c w
      end
  | DoTurn t => if cancelled t then runDone t c w else runDefault t c w
  end.

Fixpoint schedule (ss : list step) (c : cache) (w : world) : outcome :=
  match ss with
  | [] => Returned c w
  | s :: rest => andThen (doStep s c w) (schedule rest)
  end.

Definition emptyWorld : world := {| chans := []; trace := [] |}.

(** A turn with a live context and a round-trip without error. *)
Definition okTurn (now : Z) (answers : list reply) : turn :=
  {| cancelled := false; clock := now;
     answer := {| rtErr := None; rtReplies := answers |};
     clockAfter := now |}.

(** ** Callers at work while the pipeline runs

    [runPipeline] holds the lock while it reads the table, and [sendResult]
    while it takes an entry out of it; the round-trip and the sends are
    made without the lock.  The callers can take steps before the table is
    read, during the round-trip, before [sendResult] takes the lock, after
    it has released it, and after every send and every decrement of the
    counter.  [run] itself reads the counter and the clock one after the
    other, and callers can take steps in between.  A turn of the loop is
    given the steps the callers take at each of these points, in the order
    in which the turn comes to them. *)

(** A step of a caller.  [None] when the schedule cannot go on with it: the
    read of an open handle that holds nothing is not a step that can be
    taken now, the close of a closed handle brings the program down, and a
    turn of the loop is no step of a caller, [run] being one goroutine. *)
Definition callerStep (s : step) (c : cache) (w : world) : option (cache * world) :=
  match s with
  | DoTurn _ => None
  | _ =>
      match doStep s c w with
      | Returned c' w' => Some (c', w')
      | _ => None
      end
  end.

Fixpoint callerSteps (ss : list step) (c : cache) (w : world)
  : option (cache * world) :=
  match ss with
  | [] => Some (c, w)
  | s :: rest =>
      match callerStep s c w with
      | Some (c', w') => callerSteps rest c' w'
      | None => None
      end
  end.

(** The steps of the callers, point after point. *)
Definition yields : Type := list (list step).

(** A point at which the callers can take steps: they take the next ones. *)
Definition yield (ys : yields) (c : cache) (w : world)
  : option (yields * cache * world) :=
  match ys with
  | [] => Some ([], c, w)
  | ss :: ys' =>
      match callerSteps ss c w with
      | Some (c', w') => Some (ys', c', w')
      | None => None
      end
  end.

(** The loop over the listeners, with the callers at work after each send
    and after each decrement. *)
Fixpoint deliverWith (ys : yields) (redisCmd : redisCmd) (ls : list nat)
    (c : cache) (w : world) : option (yields * outcome) :=
  match ls with
  | [] => Some (ys, Returned c w)
  | r :: rest =>
      match chanSend r redisCmd w with
      | SendDone w1 =>
          match yield ys c w1 with
          | Some (ys1, c1, w2) =>
              match yield ys1 (addActiveListeners (-1) c1) w2 with
              | Some (ys2, c2, w3) => deliverWith ys2 redisCmd rest c2 w3
              | None => None
              end
          | None => None
          end
      | SendPanic => Some (ys, Panicked "send on closed channel" c w)
      | SendBlock => Some (ys, Parked c w)
      end
  end.

(** [sendResult], with the callers at work once the lock is released. *)
Definition sendResultWith (ys : yields) (hash : string) (redisCmd : redisCmd)
    (c : cache) (w : world) : option (yields * outcome) :=
  match storage c !! hash with
  | None => Some (ys, Returned c (logError (ErrHashNotFound hash) w))
  | Some o =>
      match yield ys (withStorage (delete hash (storage c)) c) w with
      | Some (ys1, c1, w1) =>
          match deliverWith ys1 redisCmd (listeners o) c1 w1 with
          | Some (ys2, Panicked r c' w') =>
              Some (ys2, Returned c' (logError (Recovered r) w'))
          | res => res
          end
      | None => None
      end
  end.

(** The six loops, with the callers at work before each [sendResult]. *)
Fixpoint dispatchWith (ys : yields) (answers : list reply)
    (rs : list (string * redisCmd)) (c : cache) (w : world)
  : option (yields * outcome) :=
  match rs with
  | [] => Some (ys, Returned c w)
  | (hash, cmd) :: rest =>
      match yield ys c w with
      | Some (ys1, c1, w1) =>
          match sendResultWith ys1 hash (populate answers cmd) c1 w1 with
          | Some (ys2, Returned c2 w2) => dispatchWith ys2 answers rest c2 w2
          | res => res
          end
      | None => None
      end
  end.

(** [runPipeline], with the callers at work before the table is read and
    during the round-trip. *)
Definition runPipelineWith (ys : yields) (rt : roundTrip) (now : Z)
    (c : cache) (w : world) : option (yields * outcome) :=
  match yield ys c (emit EvPipeline w) with
  | Some (ys1, c1, w1) =>
      match gather (map_to_list (storage c1)) emptyPipeline with
      | None => Some (ys1, Panicked "index out of range" c1 w1)
      | Some p =>
          match yield ys1 c1 (emit (EvExec (pipe p)) w1) with
          | Some (ys2, c2, w2) =>
              match rtErr rt ≫= execMessage with
              | Some msg => Some (ys2, Returned c2 (logError (ErrExec msg) w2))
              | None =>
                  dispatchWith ys2 (rtReplies rt) (results p)
                    (withLastPipeline (unixMicro now) c2) w2
              end
          | None => None
          end
      end
  | None => None
  end.

(** The [default] case, with the callers at work between the two checks. *)
Definition runDefaultWith (ys : yields) (t : turn) (c : cache) (w : world)
  : option (yields * outcome) :=
  if sizeTrigger c then runPipelineWith ys (answer t) (clockAfter t) c w
  else
    match yield ys c w with
    | Some (ys1, c1, w1) =>
        if timeTrigger (clock t) c1
        then runPipelineWith ys1 (answer t) (clockAfter t) c1 w1
        else Some (ys1, Returned c1 w1)
    | None => None
    end.

(** The [<-ctx.Done()] case, with the callers at work once [done] is
    set. *)
Definition runDoneWith (ys : yields) (t : turn) (c : cache) (w : world)
  : option (yields * outcome) :=
  match yield ys (withDone true c) w with
  | Some (ys1, c1, w1) =>
      if 0 <? activeListeners c1
      then runPipelineWith ys1 (answer t) (clockAfter t) c1 w1
      else Some (ys1, Returned c1 w1)
  | None => None
  end.

(** A schedule whose turns of the loop are overtaken by the callers as
    [ys] says.  It ends with the first turn that does not return. *)
Fixpoint interleaved (ss : list step) (ys : yields) (c : cache) (w : world)
  : option (yields * outcome) :=
  match ss with
  | [] => Some (ys, Returned c w)
  | DoTurn t :: rest =>
      match (if cancelled t then runDoneWith ys t c w
             else runDefaultWith ys t c w) with
      | Some (ys1, Returned c1 w1) => interleaved rest ys1 c1 w1
      | res => res
      end
  | s :: rest =>
      match callerStep s c w with
      | Some (c1, w1) => interleaved rest ys c1 w1
      | None => None
      end
  end.

(** ** client.go: NewAutoPipeline and its options *)

Inductive clientError : Type :=
| ErrChannelClosed
| ErrRedisIsNil.

(** The parameters of [config] the cache is made with; the context and the
    logger are the world's. *)
Record config : Type := {
  ttl : Z;            (* time.Duration *)
  maxSize : Z;        (* uint *)
  cnfRunInterval : Z  (* time.Duration *)
}.

(** The functions [WithX] return. *)
Inductive autopipelineOption : Type :=
| WithContext
| WithCacheTTL (timeout : Z)
| WithRunInterval (timeout : Z)
| WithMaxSize (size : Z)
| WithLogger.

Definition applyOption (cnf : config) (o : autopipelineOption) : config :=
  match o with
  | WithCacheTTL timeout =>
      {| ttl := timeout; maxSize := maxSize cnf;
         cnfRunInterval := cnfRunInterval cnf |}
  | WithRunInterval timeout =>
      {| ttl := ttl cnf; maxSize := maxSize cnf; cnfRunInterval := timeout |}
  | WithMaxSize size =>
      {| ttl := ttl cnf; maxSize := size;
         cnfRunInterval := cnfRunInterval cnf |}
  | WithContext | WithLogger => cnf
  end.

(** [NewAutoPipeline]: [redisClient] tells whether the client is not nil;
    the options are applied in order to the defaults, and the cache is
    made. *)
Definition NewAutoPipeline (redisClient : bool)
    (options : list autopipelineOption) (now : Z) : clientError + cache :=
  if redisClient then
    let cnf := foldl applyOption
                 {| ttl := defaultCacheTTL; maxSize := defaultCacheSize;
                    cnfRunInterval := defaultRunInterval |} options in
    inr (newCache now (ttl cnf) (cnfRunInterval cnf) (maxSize cnf))
  else inl ErrRedisIsNil.

(** ** client.go: the synchronous calls

    [HDel], [Expire], ... call their [Async] function and then read the
    handle, which blocks until the pipeline has run. *)

(** The type the call of a kind asserts of what it reads: a pointer to
    [redis.IntCmd] for HDel, and so on. *)
Definition resultType (k : operationPrefix) : cmdType :=
  match k with
  | HDel | Del => IntCmd
  | Expire => BoolCmd
  | HGet | Get => StringCmd
  | HGetAll => MapStringStringCmd
  | SMembers => StringSliceCmd
  | MGet => SliceCmd
  end.

Inductive synced : Type :=
| SyncCmd (res : redisCmd) (w : world)  (* the command read *)
| SyncErr (e : clientError)             (* a command with [SetErr(e)] *)
| SyncPanic (w : world)                 (* the type assertion failed *)
| SyncWait.                             (* nothing to read yet *)

(** The part of the synchronous call of kind [k] after the [Async] call:
    the read of the handle, the deferred close and the type assertion. *)
Definition receive (k : operationPrefix) (resCh : nat) (w : world) : synced :=
  match chanRecv resCh w with
  | RecvClosed => SyncErr ErrChannelClosed
  | RecvValue res w' =>
      if decide (cmdKind res = resultType k)
      then SyncCmd res (closeChan resCh w')
      else SyncPanic (closeChan resCh w')
  | RecvBlock => SyncWait
  end.

(** [n] calls of [enqueue] for one kind and one list of arguments. *)
Fixpoint enqueueTimes (n : nat) (k : operationPrefix) (a : list string)
    (c : cache) (w : world) : cache * world :=
  match n with
  | O => (c, w)
  | S n' => let '(_, c, w) := enqueue k a c w in enqueueTimes n' k a c w
  end.

(** The string holds the delimiter of the hash. *)
Fixpoint hasDelimiter (s : string) : bool :=
  match s with
  | EmptyString => false
  | String ch rest => bool_decide (ch = ","%char) || hasDelimiter rest
  end.

(** ** States the engine can be in

    What holds of the table and the channels between two steps of a
    schedule that starts from [newCache]: every entry has arguments its
    kind can be normalized from, no handle waits in two places, and every
    handle that waits is a channel that nothing has been sent to. *)

(** The handles that wait, entry after entry. *)
Definition allListeners (c : cache) : list nat :=
  mjoin ((fun e => listeners e.2) <$> map_to_list (storage c)).

(** The channel exists and its buffer is empty. *)
Definition vacant (w : world) (r : nat) : bool :=
  match chans w !! r with
  | Some ch => match chBuf ch with [] => true | _ => false end
  | None => false
  end.

(** The channel exists and has not been closed. *)
Definition isOpen (w : world) (r : nat) : bool :=
  match chans w !! r with
  | Some ch => negb (chClosed ch)
  | None => false
  end.

Definition wellFormed (c : cache) (w : world) : Prop :=
  Forall (fun e => is_Some (toCall e.2)) (map_to_list (storage c))
  /\ NoDup (allListeners c)
  /\ Forall (fun r => vacant w r = true) (allListeners c).

#[global] Instance wellFormed_dec (c : cache) (w : world) :
  Decision (wellFormed c w).
Proof. unfold wellFormed. apply _. Defined.

(** The same while [sendResult] is at work: [ls] are the listeners of the
    entry it has taken out of the table that it has yet to send to. *)
Definition wellFormedWith (ls : list nat) (c : cache) (w : world) : Prop :=
  Forall (fun e => is_Some (toCall e.2)) (map_to_list (storage c))
  /\ NoDup (ls ++ allListeners c)
  /\ Forall (fun r => vacant w r = true) (ls ++ allListeners c).

(** ** What the properties are stated with *)

(** The event is a call of the logger. *)
Definition isLog (e : event) : Prop :=
  match e with
  | EvLog _ => True
  | _ => False
  end.

(** The number of pipelines created so far. *)
Fixpoint countPipelines (t : list event) : nat :=
  match t with
  | [] => 0
  | EvPipeline :: t => S (countPipelines t)
  | _ :: t => countPipelines t
  end.

(** The number of flushes started so far: a flush starts with the call of
    [c.client.Pipeline()]. *)
Definition flushes (w : world) : nat := countPipelines (trace w).

(** What never changes but by [newCache]. *)
Definition sameSettings (c c' : cache) : Prop :=
  storageThresholdSize c' = storageThresholdSize c
  /\ storageThresholdTime c' = storageThresholdTime c
  /\ runInterval c' = runInterval c
  /\ done c' = done c.

(** The call did not block. *)
Definition notParked (out : outcome) : Prop :=
  match out with
  | Parked _ _ => False
  | _ => True
  end.

(** Two callers ask HDel key3, a third asks HGet key1 name, the first
    caller closes its handle, and the pipeline runs. *)
Definition closedHandleRun : outcome :=
  schedule [DoEnqueue HDel ["key3"]; DoEnqueue HDel ["key3"];
            DoEnqueue HGet ["key1"; "name"]; DoClose 0%nat;
            DoTurn (okTurn 5000000 [ReplyInt 2; ReplyString "john"])]%string
    (newCache 0 defaultCacheTTL defaultRunInterval defaultCacheSize) emptyWorld.

(** The steps of [TestClosedChannelRecovery]: HDel key f1 f2 is asked and
    its handle closed, HGet key1 name is asked, and the pipeline runs. *)
Definition closedChannelTest : outcome :=
  schedule [DoEnqueue HDel ["key"; "f1"; "f2"]; DoClose 0%nat;
            DoEnqueue HGet ["key1"; "name"];
            DoTurn (okTurn 5000000 [ReplyInt 2; ReplyString "john"])]%string
    (newCache 0 defaultCacheTTL defaultRunInterval defaultCacheSize) emptyWorld.

(** MGet a,b is asked, then MGet a b, and the pipeline runs. *)
Definition collidingRun : outcome :=
  schedule [DoEnqueue MGet ["a,b"]; DoEnqueue MGet ["a"; "b"];
            DoTurn (okTurn 5000000 [ReplySlice [Some "x"]])]%string
    (newCache 0 defaultCacheTTL defaultRunInterval defaultCacheSize) emptyWorld.

(** The arguments a caller can give: those a [transformX] makes for the
    kind [X]. *)
Definition stepOk (s : step) : Prop :=
  match s with
  | DoEnqueue k a | DoRegister k a =>
      is_Some (toCall {| args := a; listeners := []; kind := k |})
  | _ => True
  end.

(** The counter is the number of handles that wait. *)
Definition counted (c : cache) : Prop :=
  activeListeners c = Z.of_nat (length (allListeners c)).

(** No handle that waits has been closed. *)
Definition allOpen (c : cache) (w : world) : Prop :=
  Forall (fun r => isOpen w r = true) (allListeners c).

(** The event is the log of a recovered panic. *)
Definition isRecovered (e : event) : Prop :=
  match e with
  | EvLog (Recovered _) => True
  | _ => False
  end.

(** The call panicked and nothing recovered. *)
Definition isPanicked (out : outcome) : Prop :=
  match out with
  | Panicked _ _ _ => True
  | _ => False
  end.

(** The number of arguments the [normalizeX] of a kind indexes. *)
Definition minArgs (k : operationPrefix) : nat :=
  match k with
  | HDel | HGetAll | Get | SMembers => 1
  | Expire | HGet => 2
  | Del | MGet => 0
  end.

(** Two callers ask HDel key3, a third asks HGet key1 name, and the first
    caller closes its handle: the state before the pipeline runs. *)
Definition closedHandleBefore : outcome :=
  schedule [DoEnqueue HDel ["key3"]; DoEnqueue HDel ["key3"];
            DoEnqueue HGet ["key1"; "name"]; DoClose 0%nat]%string
    (newCache 0 defaultCacheTTL defaultRunInterval defaultCacheSize) emptyWorld.

(** HGet is asked with the key alone, as no entry point asks it. *)
Definition shortArgsRun : outcome :=
  schedule [DoEnqueue HGet ["key1"]]%string
    (newCache 0 defaultCacheTTL defaultRunInterval defaultCacheSize) emptyWorld.

(** The number of panics [sendResult] has recovered from. *)
Fixpoint countRecovered (t : list event) : nat :=
  match t with
  | [] => 0
  | EvLog (Recovered _) :: t => S (countRecovered t)
  | _ :: t => countRecovered t
  end.

Definition recoveries (w : world) : nat := countRecovered (trace w).

(** The counter, an [int32], is the number of handles that wait and of the
    [k] handles [sendResult] has taken out of the table and not yet counted
    down. *)
Definition counts (k : nat) (c : cache) : Prop :=
  activeListeners c = int32 (Z.of_nat (k + length (allListeners c))).

(** Every entry of the table either has a fingerprint of [old], or holds
    only handles made once [n] channels were there. *)
Definition lateBut (n : nat) (old : string -> Prop) (c : cache) : Prop :=
  forall h op, storage c !! h = Some op ->
    old h \/ Forall (fun r => (n <= r)%nat) (listeners op).

(** What holds at every point of a flush that began with [n] channels:
    [ls] are the handles taken out of the table and not sent to, [k] those
    not counted down, [old] the fingerprints read from the table and not
    sent for, [lp] the time of the last pipeline; [r0], when given, is the
    number of panics recovered from when the counter was last known to be
    right. *)
Definition inFlush (n : nat) (old : string -> Prop) (r0 : option nat) (lp : Z)
    (k : nat) (ls : list nat) (c : cache) (w : world) : Prop :=
  wellFormedWith ls c w
  /\ (n <= length (chans w))%nat
  /\ lateBut n old c
  /\ lastPipeline c = lp
  /\ forall r, r0 = Some r ->
       (r <= recoveries w)%nat /\ (recoveries w = r -> counts k c).

(** Two callers ask HDel key3 and the pipeline runs.  During the
    round-trip a third caller joins them and a fourth asks HGet key1 name;
    once the first handle is served its caller reads and closes it. *)
Definition overtakenRun : option (yields * outcome) :=
  interleaved
    [DoEnqueue HDel ["key3"]; DoEnqueue HDel ["key3"];
     DoTurn {| cancelled := false; clock := 5000000;
               answer := {| rtErr := None; rtReplies := [ReplyInt 1] |};
               clockAfter := 5000100 |}]%string
    [[]; [DoEnqueue HDel ["key3"]; DoEnqueue HGet ["key1"; "name"]]; [];
     []; [DoReceive 0%nat; DoClose 0%nat]]%string
    (newCache 0 defaultCacheTTL defaultRunInterval 1) emptyWorld.

(** The number a string of decimal digits denotes, read from [n] on;
    [None] when a byte is not a digit. *)
Fixpoint digitsValue (s : string) (n : Z) : option Z :=
  match s with
  | EmptyString => Some n
  | String ch rest =>
      let d := byteOfAscii ch - 48 in
      if (0 <=? d) && (d <=? 9) then digitsValue rest (n * 10 + d) else None
  end.

(** * Properties *)

(** ** The package's hash test *)

Example hash_test_a_b_c :
  hashStringSlice HDel ["a"; "b"; "c"]%string
  = "6b23e5291e4989b8a7684eafdee18b55b0a2cab016d4a42a3feb7d70157c8a4f"%string.
Proof. vm_compute. reflexivity. Qed.

Example hash_test_abc :
  hashStringSlice HDel ["abc"]%string
  = "5b14979300b6bec9418599a4f0b5770cb99c4f20ae4914a178f0e5025a3d925e"%string.
Proof. vm_compute. reflexivity. Qed.

Example hash_test_kinds :
  hashStringSlice HDel ["abc"]%string <> hashStringSlice Del ["abc"]%string.
Proof. vm_compute. discriminate. Qed.

(** ** Machine integers *)

Lemma int64_small (x : Z) : minInt64 <= x <= maxInt64 -> int64 x = x.
Proof.
  unfold minInt64, maxInt64, int64, wrapSigned. intros Hx.
  rewrite Z.mod_small; lia.
Qed.

Lemma int32_small (x : Z) : - 2 ^ 31 <= x <= maxInt32 -> int32 x = x.
Proof.
  unfold maxInt32, int32, wrapSigned. intros Hx.
  rewrite Z.mod_small; lia.
Qed.

Lemma int32_range (x : Z) : - 2 ^ 31 <= int32 x <= maxInt32.
Proof.
  unfold maxInt32, int32, wrapSigned.
  pose proof (Z.mod_pos_bound (x + 2 ^ (32 - 1)) (2 ^ 32)). lia.
Qed.

(** ** strconv: [Atoi] reads back what [Itoa] writes *)

Section Strconv_facts.
Import Strconv.

Lemma byteOfAscii_asciiOfByte (b : Z) :
  0 <= b < 256 -> byteOfAscii (asciiOfByte b) = b.
Proof.
  intros Hb. unfold byteOfAscii, asciiOfByte.
  rewrite N_ascii_embedding; lia.
Qed.

Lemma digitChar_value (d : Z) :
  0 <= d <= 9 -> byteOfAscii (digitChar d) - 48 = d.
Proof.
  intros Hd. unfold digitChar. rewrite byteOfAscii_asciiOfByte; lia.
Qed.

Lemma digitChar_not_sign (d : Z) (c : ascii) :
  0 <= d <= 9 -> byteOfAscii c < 48 -> digitChar d <> c.
Proof.
  intros Hd Hc <-. pose proof (digitChar_value d Hd). lia.
Qed.

Lemma string_app_cons (ch : ascii) (s1 s2 : string) :
  String ch s1 +:+ s2 = String ch (s1 +:+ s2).
Proof. reflexivity. Qed.

Lemma string_app_assoc (s1 s2 s3 : string) :
  (s1 +:+ s2) +:+ s3 = s1 +:+ (s2 +:+ s3).
Proof.
  induction s1 as [|ch s1 IH]; [done|].
  by rewrite !string_app_cons, IH.
Qed.

Lemma digitsValue_app (s1 s2 : string) (n : Z) :
  digitsValue (s1 +:+ s2) n = digitsValue s1 n ≫= digitsValue s2.
Proof.
  revert n. induction s1 as [|ch s1 IH]; intros n; [done|].
  rewrite string_app_cons. simpl. destruct (_ && _); [apply IH | done].
Qed.

Lemma formatBits_acc (fuel : nat) (u : Z) (acc : string) :
  formatBits fuel u acc = formatBits fuel u EmptyString +:+ acc.
Proof.
  revert u acc. induction fuel as [|fuel IH]; intros u acc; simpl; [done|].
  destruct (u <? 10); [done|].
  rewrite (IH _ (String _ acc)), (IH _ (String _ EmptyString)).
  by rewrite string_app_assoc.
Qed.

Lemma digitsValue_formatBits (fuel : nat) (u : Z) :
  0 <= u < 10 ^ Z.of_nat fuel ->
  digitsValue (formatBits fuel u EmptyString) 0 = Some u.
Proof.
  revert u. induction fuel as [|fuel IH]; intros u Hu.
  - simpl in *. f_equal. lia.
  - rewrite Nat2Z.inj_succ, Z.pow_succ_r in Hu by lia.
    simpl. destruct (Z.ltb_spec u 10) as [Hlt|Hge].
    + simpl. rewrite Z.mod_small, digitChar_value by lia.
      replace ((0 <=? u) && (u <=? 9)) with true by lia.
      f_equal; lia.
    + rewrite formatBits_acc, digitsValue_app, IH.
      * simpl. pose proof (Z.mod_pos_bound u 10).
        rewrite digitChar_value by lia.
        replace ((0 <=? u `mod` 10) && (u `mod` 10 <=? 9)) with true by lia.
        f_equal. pose proof (Z.div_mod u 10). lia.
      * split; [apply Z.div_pos; lia|].
        apply Z.div_lt_upper_bound; lia.
Qed.

Lemma formatBits_head (fuel : nat) (u : Z) (acc : string) :
  0 <= u ->
  exists d rest, 0 <= d <= 9 /\
    formatBits (S fuel) u acc = String (digitChar d) rest.
Proof.
  revert u acc. induction fuel as [|fuel IH]; intros u acc Hu.
  - pose proof (Z.mod_pos_bound u 10).
    exists (u mod 10), acc. split; [lia|]. simpl. by destruct (u <? 10).
  - change (formatBits (S (S fuel)) u acc)
      with (let acc' := String (digitChar (u mod 10)) acc in
            if u <? 10 then acc' else formatBits (S fuel) (u / 10) acc').
    simpl. destruct (u <? 10).
    + pose proof (Z.mod_pos_bound u 10). exists (u mod 10), acc. split; [lia|done].
    + apply IH. apply Z.div_pos; lia.
Qed.

Lemma digitsValue_le (s : string) (n un : Z) :
  0 <= n -> digitsValue s n = Some un -> n <= un.
Proof.
  revert n. induction s as [|ch s IH]; intros n Hn; simpl.
  - intros [= <-]. lia.
  - destruct ((0 <=? byteOfAscii ch - 48) && (byteOfAscii ch - 48 <=? 9))
      eqn:Hd; [|done].
    apply andb_prop in Hd as [Hd0 Hd9].
    intros Hp. apply IH in Hp; lia.
Qed.

(** Digits that stay within 64 bits are read by the loop of [ParseUint]
    as the number they denote. *)
Lemma parseUintFrom_digits (s : string) (n un : Z) :
  0 <= n -> digitsValue s n = Some un -> un <= maxUint64 ->
  parseUintFrom s n = (un, None).
Proof.
  revert n. induction s as [|ch s IH]; intros n Hn; simpl.
  - by intros [= <-].
  - destruct ((0 <=? byteOfAscii ch - 48) && (byteOfAscii ch - 48 <=? 9))
      eqn:Hd; [|done].
    intros Hp Hun. simpl negb. cbv iota.
    apply andb_prop in Hd as [Hd0 Hd9].
    assert (n * 10 + (byteOfAscii ch - 48) <= un) as Hle
      by (apply (digitsValue_le s); [lia|done]).
    change cutoff with 1844674407370955162.
    change maxUint64 with 18446744073709551615 in *.
    replace (_ <=? n) with false by lia.
    replace (_ <? n * 10 + _) with false by lia.
    apply IH; [lia|done|done].
Qed.

Lemma ParseUint_digits (d : Z) (rest : string) (un : Z) :
  digitsValue (String (digitChar d) rest) 0 = Some un -> un <= maxUint64 ->
  ParseUint (String (digitChar d) rest) = (un, None).
Proof. intros Hp Hun. by apply parseUintFrom_digits. Qed.

Lemma Atoi_unsigned (s : string) (d : Z) (rest : string) (un : Z) :
  0 <= d <= 9 -> s = String (digitChar d) rest ->
  digitsValue s 0 = Some un -> un < 2 ^ 63 ->
  Atoi s = (un, None).
Proof.
  intros Hd -> Hp Hun. unfold Atoi, ParseInt.
  rewrite !bool_decide_eq_false_2 by (apply digitChar_not_sign; [done|by vm_compute]).
  simpl orb. cbv iota.
  rewrite (ParseUint_digits d rest un Hp) by (unfold maxUint64; lia).
  simpl negb. simpl andb.
  by replace (2 ^ 63 <=? un) with false by lia.
Qed.

Lemma Atoi_Itoa (i : Z) :
  minInt64 <= i <= maxInt64 -> Atoi (Itoa i) = (i, None).
Proof.
  unfold minInt64, maxInt64. intros Hi. unfold Itoa.
  destruct (Z.ltb_spec i 0) as [Hneg|Hpos].
  - destruct (formatBits_head 19 (- i) EmptyString) as (d & rest & Hd & Heq); [lia|].
    pose proof (digitsValue_formatBits 20 (- i)) as Hp.
    rewrite Heq in *. unfold Atoi, ParseInt.
    rewrite (bool_decide_eq_true_2 ("-"%char = "-"%char)) by done.
    rewrite orb_true_r. cbv iota.
    rewrite (ParseUint_digits d rest (- i)) by (unfold maxUint64; first [apply Hp|idtac]; lia).
    simpl negb. simpl andb.
    replace (2 ^ 63 <? - i) with false by lia. f_equal. lia.
  - destruct (formatBits_head 19 i EmptyString) as (d & rest & Hd & Heq); [lia|].
    eapply Atoi_unsigned; [exact Hd|exact Heq| |lia].
    apply digitsValue_formatBits. lia.
Qed.

(** Digits that overflow 64 bits are out of range even when a byte that is
    not a digit follows them. *)
Example Atoi_overflow_then_letter :
  Atoi "99999999999999999999x" = (maxInt64, Some ErrRange)
  /\ Atoi "-99999999999999999999x" = (minInt64, Some ErrRange)
  /\ Atoi "12x" = (0, Some ErrSyntax).
Proof. by vm_compute. Qed.

End Strconv_facts.

(** ** transformer.go *)

(** C10: for every kind of operation, [normalizeX] gives back the
    arguments [transformX] was called with: the key and the fields of HDel,
    the key and the duration of Expire when the duration is a 64-bit
    nanosecond count, and the arguments of Del, MGet, HGet, Get, HGetAll
    and SMembers. *)
Theorem normalize_transform (key field : string) (fields keys : list string)
    (expiration : Z) :
  minInt64 <= expiration <= maxInt64 ->
  normalizeHDel (transformHDel key fields) = Some (key, fields)
  /\ normalizeExpire (transformExpire key expiration) = Some (key, expiration)
  /\ normalizeDel (transformDel keys) = keys
  /\ normalizeMGet (transformMGet keys) = keys
  /\ normalizeHGet (transformHGet key field) = Some (key, field)
  /\ normalizeGet (transformGet key) = Some key
  /\ normalizeHGetAll (transformHGetAll key) = Some key
  /\ normalizeSMembers (transformSMembers key) = Some key.
Proof.
  intros Hd. repeat split; try done.
  - by destruct fields.
  - unfold transformExpire, normalizeExpire.
    rewrite (int64_small expiration Hd), Atoi_Itoa by done.
    simpl. by rewrite int64_small.
Qed.

Lemma normalize_transform_witness :
  (minInt64 <= 1000 <= maxInt64)
  /\ normalizeHDel (transformHDel "key" ["f1"; "f2"]) = Some ("key", ["f1"; "f2"])%string
  /\ normalizeExpire (transformExpire "key" 1000) = Some ("key"%string, 1000).
Proof.
  pose proof (normalize_transform "key" "f" ["f1"; "f2"]%string [] 1000) as H.
  assert (minInt64 <= 1000 <= maxInt64) as Hd by (vm_compute; split; discriminate).
  destruct (H Hd) as (H1 & H2 & _).
  exact (conj Hd (conj H1 H2)).
Defined.

(** ** hash.go *)

(** The buffer does not tell where one argument ends and the next begins
    when an argument contains the delimiter. *)
Lemma hashBuffer_delimiter (operation : operationPrefix) (s1 s2 : string)
    (rest : list string) :
  hashBuffer operation ((s1 +:+ hashDelimiter +:+ s2) :: rest)
  = hashBuffer operation (s1 :: s2 :: rest).
Proof.
  unfold hashBuffer. simpl. f_equal.
  by rewrite !string_app_assoc.
Qed.

(** C3, at the arguments ["a,b"] and ["a"; "b"]: the fingerprints of two
    different argument lists of one kind are equal, so a fingerprint does
    not determine the arguments. *)
Theorem hashStringSlice_collision (operation : operationPrefix) :
  hashStringSlice operation ["a,b"]%string
  = hashStringSlice operation ["a"; "b"]%string
  /\ ["a,b"]%string <> ["a"; "b"]%string.
Proof.
  split; [|discriminate].
  unfold hashStringSlice.
  by rewrite <- (hashBuffer_delimiter operation "a" "b" []).
Qed.

(** What the collision does to callers: the second call joins the entry
    of the first, one MGet of the key a,b is sent, and the caller of MGet
    a b is handed its answer. *)
Example collision_coalesces :
  trace (worldOf collidingRun) = [EvExec [CallMGet ["a,b"]]; EvPipeline]
  /\ chans (worldOf collidingRun) !! 1%nat
     = Some {| chClosed := false;
               chBuf := [{| cmdKind := SliceCmd; cmdCall := CallMGet ["a,b"];
                            cmdSlot := 0;
                            cmdVal := Some (ReplySlice [Some "x"]) |}] |}.
Proof. vm_compute. split; reflexivity. Qed.

(** The kind byte is the first byte of the buffer: buffers of different
    kinds differ. *)
Lemma hashBuffer_head (operation : operationPrefix) (args : list string) :
  exists rest,
    hashBuffer operation args
    = String (asciiOfByte (byteOfOperation operation)) rest.
Proof.
  unfold hashBuffer.
  generalize (EmptyString) as acc. induction args as [|s args IH]; intros acc.
  - by exists acc.
  - simpl. rewrite !string_app_cons. apply IH.
Qed.

Lemma hashBuffer_kind (k1 k2 : operationPrefix) (a1 a2 : list string) :
  hashBuffer k1 a1 = hashBuffer k2 a2 -> k1 = k2.
Proof.
  destruct (hashBuffer_head k1 a1) as [r1 ->].
  destruct (hashBuffer_head k2 a2) as [r2 ->].
  intros [= Hk _]. by destruct k1, k2.
Qed.

(** ** The trace: flushes and log entries *)

Lemma countPipelines_logs (logs t : list event) :
  Forall isLog logs -> countPipelines (logs ++ t) = countPipelines t.
Proof.
  induction 1 as [|e logs He _ IH]; [done|].
  destruct e; simpl in *; done.
Qed.

Lemma chanSend_trace (r : nat) (v : redisCmd) (w w' : world) :
  chanSend r v w = SendDone w' -> trace w' = trace w.
Proof.
  unfold chanSend. destruct (chans w !! r) as [ch|]; [|done].
  destruct (chClosed ch); [done|]. case_bool_decide; [|done].
  by intros [= <-].
Qed.

Lemma chanSend_length (r : nat) (v : redisCmd) (w w' : world) :
  chanSend r v w = SendDone w' -> length (chans w') = length (chans w).
Proof.
  unfold chanSend. destruct (chans w !! r) as [ch|]; [|done].
  destruct (chClosed ch); [done|]. case_bool_decide; [|done].
  intros [= <-]. simpl. by rewrite length_insert.
Qed.

(** [deliver] leaves the table, the time of the last pipeline and the
    trace as they are. *)
Lemma deliver_frame (cmd : redisCmd) (ls : list nat) (c : cache) (w : world) :
  let out := deliver cmd ls c w in
  storage (cacheOf out) = storage c
  /\ lastPipeline (cacheOf out) = lastPipeline c
  /\ sameSettings c (cacheOf out)
  /\ trace (worldOf out) = trace w
  /\ length (chans (worldOf out)) = length (chans w).
Proof.
  revert c w. induction ls as [|r ls IH]; intros c w; simpl.
  - by repeat split.
  - destruct (chanSend r cmd w) as [w'| |] eqn:Hs; simpl; [|by repeat split..].
    destruct (IH (addActiveListeners (-1) c) w') as (-> & -> & Hset & -> & ->).
    rewrite (chanSend_trace _ _ _ _ Hs), (chanSend_length _ _ _ _ Hs).
    by destruct Hset as (? & ? & ? & ?).
Qed.

(** [sendResult] adds at most a log entry to the trace. *)
Lemma sendResult_frame (hash : string) (cmd : redisCmd) (c : cache) (w : world) :
  let out := sendResult hash cmd c w in
  lastPipeline (cacheOf out) = lastPipeline c
  /\ sameSettings c (cacheOf out)
  /\ (exists logs, trace (worldOf out) = logs ++ trace w /\ Forall isLog logs)
  /\ length (chans (worldOf out)) = length (chans w).
Proof.
  unfold sendResult. destruct (storage c !! hash) as [o|]; simpl.
  - pose proof (deliver_frame cmd (listeners o)
                  (withStorage (delete hash (storage c)) c) w) as H.
    simpl in H. destruct H as (_ & Hl & Hs & Ht & Hn).
    destruct (deliver _ _ _ _) as [c' w'|v c' w'|c' w']; simpl in *;
      (split; [done|split; [done|split; [|done]]]).
    + by exists [].
    + exists [EvLog (Recovered v)]. rewrite Ht. by repeat constructor.
    + by exists [].
  - repeat split. exists [EvLog (ErrHashNotFound hash)]. by repeat constructor.
Qed.

Lemma dispatch_frame (answers : list reply) (rs : list (string * redisCmd))
    (c : cache) (w : world) :
  let out := dispatch answers rs c w in
  lastPipeline (cacheOf out) = lastPipeline c
  /\ sameSettings c (cacheOf out)
  /\ (exists logs, trace (worldOf out) = logs ++ trace w /\ Forall isLog logs)
  /\ length (chans (worldOf out)) = length (chans w).
Proof.
  revert c w. induction rs as [|[h cmd] rs IH]; intros c w; simpl.
  - repeat split. by exists [].
  - pose proof (sendResult_frame h (populate answers cmd) c w) as H. simpl in H.
    destruct H as (Hl & Hs & (logs & Ht & Hlogs) & Hn).
    destruct (sendResult h (populate answers cmd) c w) as [c' w'|v c' w'|c' w'];
      simpl in *; try (split; [done|split; [done|split; [by exists logs|done]]]).
    destruct (IH c' w') as (Hl' & Hs' & (logs' & Ht' & Hlogs') & Hn').
    split; [congruence|]. split.
    { destruct Hs as (? & ? & ? & ?), Hs' as (? & ? & ? & ?).
      repeat split; congruence. }
    split; [|congruence].
    exists (logs' ++ logs). rewrite Ht', Ht, app_assoc. split; [done|].
    by apply Forall_app.
Qed.

(** A call of [runPipeline] creates exactly one pipeline. *)
Lemma runPipeline_flushes (rt : roundTrip) (now : Z) (c : cache) (w : world) :
  flushes (worldOf (runPipeline rt now c w)) = S (flushes w).
Proof.
  unfold runPipeline, flushes.
  destruct (gather _ _) as [p|]; [|done].
  destruct (rtErr rt ≫= execMessage); [done|].
  destruct (dispatch_frame (rtReplies rt) (results p)
              (withLastPipeline (unixMicro now) c)
              (emit (EvExec (pipe p)) (emit EvPipeline w)))
    as (_ & _ & (logs & -> & Hlogs) & _).
  by rewrite countPipelines_logs.
Qed.

(** ** enqueue *)

Lemma closeChan_fresh (w : world) (ch : channel) :
  chans (closeChan (length (chans w)) (withChans (chans w ++ [ch]) w))
  = chans w ++ [{| chClosed := true; chBuf := chBuf ch |}].
Proof.
  unfold closeChan. simpl.
  rewrite list_lookup_middle by done. simpl.
  replace (length (chans w)) with (length (chans w) + 0)%nat at 1 by lia.
  by rewrite insert_app_r.
Qed.

(** C5: [enqueue] on a stopped cache returns a new handle that is closed
    and empty, so that reading it yields no result; it logs
    [ErrCacheStopped] and leaves the cache, its table and its counter of
    listeners included, as it was. *)
Theorem enqueue_stopped (k : operationPrefix) (a : list string)
    (c : cache) (w : world) :
  done c = true ->
  let '(resultCh, c', w') := enqueue k a c w in
  resultCh = length (chans w)
  /\ chans w' = chans w ++ [{| chClosed := true; chBuf := [] |}]
  /\ chanRecv resultCh w' = RecvClosed
  /\ trace w' = EvLog ErrCacheStopped :: trace w
  /\ c' = c
  /\ storage c' = storage c
  /\ activeListeners c' = activeListeners c.
Proof.
  intros Hdone. unfold enqueue. simpl. rewrite Hdone.
  pose proof (closeChan_fresh (logError ErrCacheStopped w)
                {| chClosed := false; chBuf := [] |}) as Hc.
  simpl in Hc. unfold logError, emit, withChans in *. simpl in *.
  split; [done|]. split; [exact Hc|]. split; [|split; [|done]].
  - unfold chanRecv. rewrite Hc. by rewrite list_lookup_middle.
  - unfold closeChan. simpl. by destruct (_ !! _).
Qed.

Lemma enqueue_stopped_witness :
  let c := withDone true (newCache 0 defaultCacheTTL defaultRunInterval defaultCacheSize) in
  let '(resultCh, c', w') := enqueue HDel ["key2"]%string c emptyWorld in
  chanRecv resultCh w' = RecvClosed /\ c' = c.
Proof.
  pose proof (enqueue_stopped HDel ["key2"]%string
    (withDone true (newCache 0 defaultCacheTTL defaultRunInterval defaultCacheSize))
    emptyWorld eq_refl) as H.
  cbv zeta in *. destruct (enqueue _ _ _ _) as [[resultCh c'] w'].
  destruct H as (_ & _ & Hr & _ & Hc & _). exact (conj Hr Hc).
Defined.

(** C8: [enqueue] on a running cache returns a new, open handle.  Where
    the table has no entry for the fingerprint, it gets one with the kind
    and the arguments of the call and the handle as its only listener;
    where it has one, the handle is appended to the listeners of the entry,
    whose kind and arguments stay.  No other entry changes, and the counter
    of listeners is incremented by one (as an [int32]). *)
Theorem enqueue_running (k : operationPrefix) (a : list string)
    (c : cache) (w : world) :
  done c = false ->
  let h := hashStringSlice k a in
  let '(resultCh, c', w') := enqueue k a c w in
  resultCh = length (chans w)
  /\ w' = withChans (chans w ++ [{| chClosed := false; chBuf := [] |}]) w
  /\ (storage c !! h = None ->
      storage c' !! h = Some {| args := a; listeners := [resultCh]; kind := k |})
  /\ (forall o, storage c !! h = Some o ->
      storage c' !! h
      = Some {| args := args o; listeners := listeners o ++ [resultCh];
                kind := kind o |})
  /\ (forall h', h' <> h -> storage c' !! h' = storage c !! h')
  /\ activeListeners c' = int32 (activeListeners c + 1)
  /\ lastPipeline c' = lastPipeline c
  /\ sameSettings c c'.
Proof.
  intros Hdone h. unfold enqueue. simpl. rewrite Hdone. fold h.
  destruct (storage c !! h) as [o|] eqn:Hh; simpl;
    (split; [done|]); (split; [done|]);
    (split; [intros; simplify_map_eq; done|]);
    (split; [intros; simplify_map_eq; done|]);
    (split; [intros; by rewrite lookup_insert_ne|]); done.
Qed.

Lemma enqueue_running_witness :
  let c := newCache 0 defaultCacheTTL defaultRunInterval defaultCacheSize in
  let '(resultCh, c', w') := enqueue HDel ["key1"]%string c emptyWorld in
  resultCh = 0%nat /\ activeListeners c' = 1.
Proof.
  pose proof (enqueue_running HDel ["key1"]%string
    (newCache 0 defaultCacheTTL defaultRunInterval defaultCacheSize)
    emptyWorld eq_refl) as H.
  cbv zeta in *. destruct (enqueue _ _ _ _) as [[resultCh c'] w'].
  destruct H as (Hr & _ & _ & _ & _ & Ha & _). split; [exact Hr|].
  rewrite Ha. reflexivity.
Defined.

(** Below the largest [int32] the increment is the increment of [Z]. *)
Lemma addActiveListeners_succ (c : cache) :
  - 2 ^ 31 <= activeListeners c < maxInt32 ->
  activeListeners (addActiveListeners 1 c) = activeListeners c + 1.
Proof. intros H. simpl. apply int32_small. lia. Qed.

(** ** run: the two triggers *)

(** The threshold of the cache is the size it was made with, for a size
    that is an [int32]. *)
Lemma newCache_threshold (now ttl interval size : Z) :
  0 <= size <= maxInt32 ->
  storageThresholdSize (newCache now ttl interval size) = size
  /\ storageThresholdTime (newCache now ttl interval size) = ttl.
Proof.
  intros Hs. split; [|done]. simpl. apply int32_small.
  unfold maxInt32 in *. lia.
Qed.

(** The size trigger in terms of the threshold the cache holds: a count of
    listeners above it runs the pipeline once, the time trigger not being
    looked at; a count that is not above it, the threshold itself included,
    runs no pipeline unless the time trigger does. *)
Lemma size_trigger (t : turn) (c : cache) (w : world) :
  (storageThresholdSize c < activeListeners c ->
   runDefault t c w = runPipeline (answer t) (clockAfter t) c w
   /\ flushes (worldOf (runDefault t c w)) = S (flushes w))
  /\ (activeListeners c <= storageThresholdSize c ->
      timeTrigger (clock t) c = false ->
      runDefault t c w = Returned c w
      /\ flushes (worldOf (runDefault t c w)) = flushes w).
Proof.
  unfold runDefault, sizeTrigger. split.
  - intros H. replace (_ <? _) with true by lia.
    split; [done|apply runPipeline_flushes].
  - intros H Ht. replace (_ <? _) with false by lia. by rewrite Ht.
Qed.

(** C6, amended: in a turn in which the size trigger does not fire, the
    pipeline runs if and only if there is a listener and the clock is
    strictly later than the time of the last pipeline plus the time to
    live. *)
Theorem time_trigger (t : turn) (c : cache) (w : world) :
  activeListeners c <= storageThresholdSize c ->
  let elapsed := clock t - lastPipeline c * 1000 in
  (flushes (worldOf (runDefault t c w)) = S (flushes w)
   <-> 0 < activeListeners c /\ storageThresholdTime c < elapsed)
  /\ (flushes (worldOf (runDefault t c w)) = flushes w
      <-> ~ (0 < activeListeners c /\ storageThresholdTime c < elapsed)).
Proof.
  intros Hsize elapsed. subst elapsed.
  unfold runDefault, sizeTrigger, timeTrigger.
  replace (storageThresholdSize c <? activeListeners c) with false by lia.
  destruct (Z.ltb_spec (lastPipeline c * 1000 + storageThresholdTime c) (clock t));
    destruct (Z.ltb_spec 0 (activeListeners c)); simpl;
    rewrite ?runPipeline_flushes; split; split; intros; lia.
Qed.

Example size_trigger_fires :
  let out := schedule [DoEnqueue HDel ["key1"]; DoEnqueue HDel ["key2"]]%string
               (newCache 0 5000000 defaultRunInterval 1) emptyWorld in
  flushes (worldOf (runDefault (okTurn 100 [ReplyInt 1; ReplyInt 2])
                      (cacheOf out) (worldOf out)))
  = S (flushes (worldOf out)).
Proof.
  intros out.
  refine (proj2 (proj1 (size_trigger _ (cacheOf out) (worldOf out)) _)).
  vm_compute. reflexivity.
Qed.

(** C7, where the code departs from it: the autopipeline made with
    [WithMaxSize(1 << 31)] holds the threshold -2^31, the configured
    maximum narrowed to an [int32].  No listener waits, so the count is not
    above the configured maximum; yet the size trigger fires, and the turn
    of the loop runs the pipeline, whatever the clock and the
    round-trip. *)
Theorem size_trigger_wraps (now : Z) (t : turn) (w : world) :
  exists c,
    NewAutoPipeline true [WithMaxSize (2 ^ 31)] now = inr c
    /\ activeListeners c = 0
    /\ ~ (2 ^ 31 < activeListeners c)
    /\ storageThresholdSize c = - 2 ^ 31
    /\ sizeTrigger c = true
    /\ runDefault t c w = runPipeline (answer t) (clockAfter t) c w
    /\ flushes (worldOf (runDefault t c w)) = S (flushes w).
Proof.
  set (c := newCache now defaultCacheTTL defaultRunInterval (2 ^ 31)).
  exists c. split; [reflexivity|]. split; [reflexivity|].
  split; [by vm_compute|]. split; [reflexivity|]. split; [reflexivity|].
  assert (runDefault t c w = runPipeline (answer t) (clockAfter t) c w) as Hrun
    by reflexivity.
  split; [exact Hrun|]. rewrite Hrun. apply runPipeline_flushes.
Qed.

Lemma time_trigger_witness :
  let out := schedule [DoEnqueue HDel ["key1"]]%string
               (newCache 0 500000 defaultRunInterval 200) emptyWorld in
  flushes (worldOf (runDefault (okTurn 500001 [ReplyInt 1])
                      (cacheOf out) (worldOf out)))
  = S (flushes (worldOf out)).
Proof.
  intros out.
  refine (proj2 (proj1 (time_trigger (okTurn 500001 [ReplyInt 1])
                          (cacheOf out) (worldOf out) _)) _).
  - vm_compute. discriminate.
  - vm_compute. split; reflexivity.
Defined.

(** C6 as stated fails when exactly the time to live has elapsed: with one
    listener, a time to live of 500 microseconds and the clock 500
    microseconds after the last pipeline, no pipeline runs. *)
Lemma time_trigger_not_at_ttl :
  ~ (forall (t : turn) (c : cache) (w : world),
       activeListeners c <= storageThresholdSize c ->
       let elapsed := clock t - lastPipeline c * 1000 in
       flushes (worldOf (runDefault t c w)) = S (flushes w)
       <-> 0 < activeListeners c /\ storageThresholdTime c <= elapsed).
Proof.
  intros H.
  pose (out := schedule [DoEnqueue HDel ["key1"]]%string
                 (newCache 0 500000 defaultRunInterval 200) emptyWorld).
  specialize (H (okTurn 500000 [ReplyInt 1]) (cacheOf out) (worldOf out)).
  assert (flushes (worldOf (runDefault (okTurn 500000 [ReplyInt 1])
                              (cacheOf out) (worldOf out)))
          = S (flushes (worldOf out))) as Hflush.
  { apply H; vm_compute; [discriminate|split; [reflexivity|discriminate]]. }
  vm_compute in Hflush. discriminate.
Qed.

(** ** Channels and the table *)

Lemma vacant_ext (w w' : world) (r : nat) :
  chans w' !! r = chans w !! r -> vacant w' r = vacant w r.
Proof. unfold vacant. by intros ->. Qed.

Lemma isOpen_ext (w w' : world) (r : nat) :
  chans w' !! r = chans w !! r -> isOpen w' r = isOpen w r.
Proof. unfold isOpen. by intros ->. Qed.

(** A send to a channel nothing was sent to either fills its buffer or,
    the channel being closed, panics; it does not block. *)
Lemma chanSend_vacant (r : nat) (v : redisCmd) (w : world) :
  vacant w r = true ->
  (isOpen w r = true
   /\ chanSend r v w
      = SendDone (withChans (<[r := {| chClosed := false; chBuf := [v] |}]> (chans w)) w))
  \/ (isOpen w r = false /\ chanSend r v w = SendPanic).
Proof.
  unfold vacant, isOpen, chanSend.
  destruct (chans w !! r) as [[closed buf]|]; [|done]. simpl.
  destruct buf; [|done]. intros _. destruct closed; simpl; [by right|by left].
Qed.

Lemma elem_of_allListeners (c : cache) (r : nat) :
  r ∈ allListeners c
  <-> exists h op, storage c !! h = Some op /\ r ∈ listeners op.
Proof.
  unfold allListeners. rewrite list_elem_of_join. split.
  - intros (ls & Hr & Hls). apply list_elem_of_fmap in Hls as ([h op] & -> & He).
    apply elem_of_map_to_list in He. by exists h, op.
  - intros (h & op & Hh & Hr). exists (listeners op). split; [done|].
    apply list_elem_of_fmap. exists (h, op). split; [done|].
    by apply elem_of_map_to_list.
Qed.

Lemma allListeners_delete (c c' : cache) (h : string) (op : redisOperation) :
  storage c !! h = Some op -> storage c' = delete h (storage c) ->
  allListeners c ≡ₚ listeners op ++ allListeners c'.
Proof.
  intros Hh Hc'. unfold allListeners. rewrite Hc'.
  by rewrite <- (map_to_list_delete (storage c) h op Hh).
Qed.

Lemma allListeners_insert (c c' : cache) (h : string) (op : redisOperation) :
  storage c !! h = None -> storage c' = <[h := op]> (storage c) ->
  allListeners c' ≡ₚ listeners op ++ allListeners c.
Proof.
  intros Hh Hc'. unfold allListeners. rewrite Hc'.
  by rewrite (map_to_list_insert (storage c) h op Hh).
Qed.

(** What [wellFormed] says of one entry, and of two. *)
Lemma wellFormed_entry (c : cache) (w : world) (h : string) (op : redisOperation) :
  wellFormed c w -> storage c !! h = Some op ->
  is_Some (toCall op)
  /\ NoDup (listeners op)
  /\ Forall (fun r => vacant w r = true) (listeners op).
Proof.
  intros (Hcall & Hnd & Hvac) Hh.
  pose proof (allListeners_delete c (withStorage (delete h (storage c)) c) h op
                Hh eq_refl) as Hperm.
  rewrite Hperm in Hnd, Hvac.
  apply NoDup_app in Hnd as (Hnd & _ & _). apply Forall_app in Hvac as [Hvac _].
  split; [|done].
  rewrite Forall_forall in Hcall. apply (Hcall (h, op)).
  by apply elem_of_map_to_list.
Qed.

Lemma wellFormed_apart (c : cache) (w : world) (h1 h2 : string)
    (op1 op2 : redisOperation) (r : nat) :
  wellFormed c w -> storage c !! h1 = Some op1 -> storage c !! h2 = Some op2 ->
  h1 <> h2 -> r ∈ listeners op1 -> r ∉ listeners op2.
Proof.
  intros (_ & Hnd & _) H1 H2 Hne Hr1 Hr2.
  pose proof (allListeners_delete c (withStorage (delete h1 (storage c)) c) h1 op1
                H1 eq_refl) as Hperm.
  rewrite Hperm in Hnd. apply NoDup_app in Hnd as (_ & Hdisj & _).
  apply (Hdisj r Hr1). apply elem_of_allListeners. exists h2, op2.
  split; [|done].
  change (delete h1 (storage c) !! h2 = Some op2).
  by rewrite lookup_delete_ne.
Qed.

(** Taking an entry out of the table keeps the rest well formed, in any
    world that has the channels of the rest as they were. *)
Lemma wellFormed_delete (c c' : cache) (w w' : world) (h : string)
    (op : redisOperation) :
  wellFormed c w -> storage c !! h = Some op ->
  storage c' = delete h (storage c) ->
  (forall r, r ∉ listeners op -> chans w' !! r = chans w !! r) ->
  wellFormed c' w'.
Proof.
  intros (Hcall & Hnd & Hvac) Hh Hc' Hframe.
  pose proof (allListeners_delete c c' h op Hh Hc') as Hperm.
  rewrite Hperm in Hnd, Hvac.
  apply NoDup_app in Hnd as (_ & Hdisj & Hnd). apply Forall_app in Hvac as [_ Hvac].
  split; [|split; [done|]].
  - rewrite Hc'. rewrite Forall_forall in Hcall |- *. intros [h' op'] He.
    apply elem_of_map_to_list, lookup_delete_Some in He as [_ He].
    apply (Hcall (h', op')). by apply elem_of_map_to_list.
  - rewrite Forall_forall in Hvac |- *. intros r Hr.
    rewrite (vacant_ext w w'); [by apply Hvac|].
    apply Hframe. intros Hin. by apply (Hdisj r Hin).
Qed.

(** ** sendResult *)

(** The loop over listeners that nothing was sent to: it does not block,
    it touches the channels of these listeners only, and when all of them
    are open it returns, each of them holding the command. *)
Lemma deliver_spec (cmd : redisCmd) (ls : list nat) (c : cache) (w : world) :
  NoDup ls -> Forall (fun r => vacant w r = true) ls ->
  let out := deliver cmd ls c w in
  notParked out
  /\ (forall r, r ∉ ls -> chans (worldOf out) !! r = chans w !! r)
  /\ (Forall (fun r => isOpen w r = true) ls ->
      (exists c' w', out = Returned c' w')
      /\ forall r, r ∈ ls ->
           chans (worldOf out) !! r
           = Some {| chClosed := false; chBuf := [cmd] |}).
Proof.
  revert c w. induction ls as [|r ls IH]; intros c w Hnd Hvac; simpl.
  - split; [done|]. split; [done|]. intros _. split; [by eauto|].
    intros r Hr. by apply elem_of_nil in Hr.
  - apply NoDup_cons in Hnd as [Hr Hnd].
    apply Forall_cons in Hvac as [Hvr Hvac].
    destruct (chanSend_vacant r cmd w Hvr) as [[Hopen ->]|[Hclosed ->]]; simpl.
    + set (w1 := withChans _ w).
      assert (forall r', r' <> r -> chans w1 !! r' = chans w !! r') as Hother.
      { intros r' Hne. simpl. by rewrite list_lookup_insert_ne. }
      assert (chans w1 !! r = Some {| chClosed := false; chBuf := [cmd] |}) as Hself.
      { simpl. apply list_lookup_insert_eq. unfold vacant in Hvr.
        destruct (chans w !! r) eqn:E; [|done]. by apply lookup_lt_Some in E. }
      destruct (IH (addActiveListeners (-1) c) w1 Hnd) as (Hnp & Hframe & Hsent).
      { rewrite Forall_forall in Hvac |- *. intros r' Hr'.
        rewrite (vacant_ext w w1); [by apply Hvac|].
        apply Hother. by intros ->. }
      split; [done|]. split.
      * intros r' Hr'. apply not_elem_of_cons in Hr' as [Hne Hr'].
        by rewrite Hframe, Hother.
      * intros Hall. apply Forall_cons in Hall as [_ Hall].
        destruct Hsent as [Hret Hsent].
        { rewrite Forall_forall in Hall |- *. intros r' Hr'.
          rewrite (isOpen_ext w w1); [by apply Hall|].
          apply Hother. by intros ->. }
        split; [done|]. intros r' Hr'.
        apply elem_of_cons in Hr' as [->|Hr']; [|by apply Hsent].
        by rewrite Hframe.
    + split; [done|]. split; [done|].
      intros Hall. apply Forall_cons in Hall as [Hopen _]. congruence.
Qed.

(** [sendResult] for a fingerprint of the table: it returns, the entry is
    gone, only the channels of its listeners have changed, and when none of
    them was closed each holds the command. *)
Lemma sendResult_spec (h : string) (cmd : redisCmd) (c : cache) (w : world)
    (op : redisOperation) :
  wellFormed c w -> storage c !! h = Some op ->
  exists c' w',
    sendResult h cmd c w = Returned c' w'
    /\ storage c' = delete h (storage c)
    /\ wellFormed c' w'
    /\ (forall r, r ∉ listeners op -> chans w' !! r = chans w !! r)
    /\ (Forall (fun r => isOpen w r = true) (listeners op) ->
        forall r, r ∈ listeners op ->
          chans w' !! r = Some {| chClosed := false; chBuf := [cmd] |}).
Proof.
  intros Hwf Hh. unfold sendResult. rewrite Hh.
  destruct (wellFormed_entry c w h op Hwf Hh) as (_ & Hnd & Hvac).
  set (c1 := withStorage (delete h (storage c)) c).
  pose proof (deliver_spec cmd (listeners op) c1 w Hnd Hvac) as Hd.
  pose proof (deliver_frame cmd (listeners op) c1 w) as Hf.
  simpl in Hd, Hf. destruct Hd as (Hnp & Hframe & Hsent).
  destruct Hf as (Hst & _).
  destruct (deliver cmd (listeners op) c1 w) as [c' w'|v c' w'|c' w'];
    simpl in *; [| |done].
  - exists c', w'. split; [done|]. split; [done|].
    split; [by eapply wellFormed_delete|]. split; [done|].
    intros Hall. by destruct (Hsent Hall).
  - exists c', (logError (Recovered v) w'). split; [done|]. split; [done|].
    split; [by eapply wellFormed_delete|]. split; [done|].
    intros Hall. by destruct (Hsent Hall) as [(? & ? & ?) _].
Qed.

(** ** runPipeline: gathering the commands *)

Lemma cmdsOf_queue (ty' ty : cmdType) (h : string) (call : redisCall)
    (p : pipeline) :
  cmdsOf ty' (queue ty h call p)
  = if decide (ty' = ty)
    then <[h := newCmd ty call (length (pipe p))]> (cmdsOf ty' p)
    else cmdsOf ty' p.
Proof. by destruct ty', ty. Qed.

(** The loop over the entries [l] of the table, from a pipeline [p0]: it
    queues the call of every entry, in order, and stores the command of the
    [i]-th entry under its fingerprint, in the map of its type and in no
    other. *)
Lemma gather_spec (l : list (string * redisOperation)) (p0 : pipeline) :
  NoDup l.*1 -> Forall (fun e => is_Some (toCall e.2)) l ->
  exists p calls,
    gather l p0 = Some p
    /\ pipe p = pipe p0 ++ calls
    /\ Forall2 (fun e call => exists ty, toCall e.2 = Some (ty, call)) l calls
    /\ (forall ty h, h ∉ l.*1 -> cmdsOf ty p !! h = cmdsOf ty p0 !! h)
    /\ (forall i h op ty call,
          l !! i = Some (h, op) -> toCall op = Some (ty, call) ->
          cmdsOf ty p !! h = Some (newCmd ty call (length (pipe p0) + i))
          /\ forall ty', ty' <> ty -> cmdsOf ty' p !! h = cmdsOf ty' p0 !! h).
Proof.
  revert p0. induction l as [|[h op] l IH]; intros p0 Hnd Hcalls.
  - exists p0, []. rewrite app_nil_r. repeat split; try done.
    all: intros; by rewrite lookup_nil in *.
  - rewrite fmap_cons in Hnd. apply NoDup_cons in Hnd as [Hh Hnd].
    apply Forall_cons in Hcalls as [[[ty call] Hop] Hcalls]. simpl in Hop.
    destruct (IH (queue ty h call p0) Hnd Hcalls)
      as (p & calls & Hg & Hpipe & Hall & Hout & Hin).
    exists p, (call :: calls). simpl. rewrite Hop.
    split; [done|]. split.
    { rewrite Hpipe. simpl. by rewrite <- app_assoc. }
    split; [constructor; [by exists ty|done]|]. split.
    + intros ty' h' Hh'. apply not_elem_of_cons in Hh' as [Hne Hh'].
      rewrite Hout by done. rewrite cmdsOf_queue.
      case_decide; [by rewrite lookup_insert_ne|done].
    + intros i h' op' ty' call' Hi Hop'. destruct i as [|i]; simpl in Hi.
      * injection Hi as <- <-. rewrite Hop in Hop'. injection Hop' as <- <-.
        split.
        -- rewrite Hout by done. rewrite cmdsOf_queue.
           rewrite decide_True by done. rewrite lookup_insert_eq.
           by rewrite Nat.add_0_r.
        -- intros ty' Hne. rewrite Hout by done. rewrite cmdsOf_queue.
           by rewrite decide_False.
      * destruct (Hin i h' op' ty' call' Hi Hop') as [Hcmd Hothers].
        assert (h' <> h) as Hne.
        { intros ->. apply Hh. apply list_elem_of_fmap. exists (h, op').
          split; [done|]. by eapply list_elem_of_lookup_2. }
        split.
        -- rewrite Hcmd. simpl. rewrite length_app. simpl.
           do 2 f_equal. lia.
        -- intros ty'' Hty. rewrite Hothers by done. rewrite cmdsOf_queue.
           case_decide; [by rewrite lookup_insert_ne|done].
Qed.

Lemma elem_of_results (p : pipeline) (h : string) (cmd : redisCmd) :
  (h, cmd) ∈ results p <-> exists ty, cmdsOf ty p !! h = Some cmd.
Proof.
  unfold results. rewrite !elem_of_app, !elem_of_map_to_list. split.
  - intros [H|[H|[H|[H|[H|H]]]]];
      [by exists IntCmd|by exists SliceCmd|by exists StringCmd
      |by exists MapStringStringCmd|by exists StringSliceCmd|by exists BoolCmd].
  - intros [ty H]. destruct ty; simpl in H; tauto.
Qed.

Lemma elem_of_keys {A : Type} (m : gmap string A) (h : string) :
  h ∈ (map_to_list m).*1 <-> is_Some (m !! h).
Proof.
  rewrite list_elem_of_fmap. split.
  - intros ([h' x] & -> & He). apply elem_of_map_to_list in He. by exists x.
  - intros [x Hx]. exists (h, x). split; [done|]. by apply elem_of_map_to_list.
Qed.

(** When no fingerprint has commands of two types, no fingerprint comes
    twice in the six loops that send the results. *)
Lemma NoDup_results (p : pipeline) :
  (forall ty1 ty2 h,
     is_Some (cmdsOf ty1 p !! h) -> is_Some (cmdsOf ty2 p !! h) -> ty1 = ty2) ->
  NoDup (results p).*1.
Proof.
  intros Hone. unfold results. rewrite !fmap_app.
  repeat (apply NoDup_app; split; [apply NoDup_fst_map_to_list|split]);
    [..|apply NoDup_fst_map_to_list];
    intros h Hh; rewrite ?elem_of_app, !elem_of_keys in *;
    intros Hin; repeat destruct Hin as [Hin|Hin];
    match goal with
    | H1 : is_Some (?m1 p !! h), H2 : is_Some (?m2 p !! h) |- _ =>
        let ty1 := match m1 with
                   | intCmds => IntCmd | sliceCmds => SliceCmd
                   | stringCmds => StringCmd
                   | stringStringMapCmds => MapStringStringCmd
                   | stringSliceCmds => StringSliceCmd | boolCmds => BoolCmd
                   end in
        let ty2 := match m2 with
                   | intCmds => IntCmd | sliceCmds => SliceCmd
                   | stringCmds => StringCmd
                   | stringStringMapCmds => MapStringStringCmd
                   | stringSliceCmds => StringSliceCmd | boolCmds => BoolCmd
                   end in
        discriminate (Hone ty1 ty2 h H1 H2)
    end.
Qed.

Lemma map_to_list_lookup_inj {A : Type} (m : gmap string A) (h : string)
    (x y : A) (i j : nat) :
  map_to_list m !! i = Some (h, x) -> map_to_list m !! j = Some (h, y) ->
  i = j /\ x = y.
Proof.
  intros Hi Hj. assert (i = j) as ->.
  { eapply NoDup_lookup; [apply (NoDup_fst_map_to_list m)|..];
      rewrite list_lookup_fmap.
    - by rewrite Hi.
    - by rewrite Hj. }
  split; [done|congruence].
Qed.

(** The loop over the table, when every entry can be normalized: the
    pipeline has the call of every entry, in the order of the snapshot; the
    commands kept are those of the entries, each under the fingerprint of
    its entry and with its position in the pipeline; and no fingerprint
    comes twice in the loops that send the results. *)
Lemma gather_table (c : cache) :
  Forall (fun e => is_Some (toCall e.2)) (map_to_list (storage c)) ->
  exists p,
    gather (map_to_list (storage c)) emptyPipeline = Some p
    /\ Forall2 (fun e call => exists ty, toCall e.2 = Some (ty, call))
         (map_to_list (storage c)) (pipe p)
    /\ (forall h cmd,
          (h, cmd) ∈ results p
          <-> exists slot op ty call,
                map_to_list (storage c) !! slot = Some (h, op)
                /\ toCall op = Some (ty, call) /\ cmd = newCmd ty call slot)
    /\ NoDup (results p).*1.
Proof.
  intros Hcalls.
  pose proof (NoDup_fst_map_to_list (storage c)) as Hkeys.
  destruct (gather_spec (map_to_list (storage c)) emptyPipeline Hkeys Hcalls)
    as (p & calls & Hg & Hpipe & Hall & Hout & Hin).
  simpl in Hpipe. subst calls.
  assert (forall ty h cmd, cmdsOf ty p !! h = Some cmd ->
            exists i op call, map_to_list (storage c) !! i = Some (h, op)
              /\ toCall op = Some (ty, call) /\ cmd = newCmd ty call i)
    as Hsound.
  { intros ty h cmd Hcmd.
    destruct (decide (h ∈ (map_to_list (storage c)).*1)) as [Hh|Hh].
    - apply list_elem_of_fmap in Hh as ([h' op] & -> & He).
      apply list_elem_of_lookup in He as [i Hi].
      rewrite Forall_forall in Hcalls.
      destruct (Hcalls (h', op)) as [[ty0 call0] Hop];
        [by eapply list_elem_of_lookup_2|]. simpl in *.
      destruct (Hin i h' op ty0 call0 Hi Hop) as [Hc0 Hothers].
      destruct (decide (ty = ty0)) as [->|Hne].
      + exists i, op, call0. split; [done|]. split; [done|]. congruence.
      + rewrite Hothers in Hcmd by done. by destruct ty.
    - rewrite Hout in Hcmd by done. by destruct ty. }
  exists p. split; [done|]. split; [done|]. split.
  - intros h cmd. rewrite elem_of_results. split.
    + intros [ty Hcmd].
      destruct (Hsound ty h cmd Hcmd) as (i & op & call & Hi & Hop & ->).
      by exists i, op, ty, call.
    + intros (i & op & ty & call & Hi & Hop & ->). exists ty.
      by destruct (Hin i h op ty call Hi Hop) as [-> _].
  - apply NoDup_results. intros ty1 ty2 h [c1 H1] [c2 H2].
    destruct (Hsound ty1 h c1 H1) as (i & o1 & k1 & Hi & Ht1 & _).
    destruct (Hsound ty2 h c2 H2) as (j & o2 & k2 & Hj & Ht2 & _).
    destruct (map_to_list_lookup_inj _ h o1 o2 i j Hi Hj) as [-> ->].
    congruence.
Qed.

(** The fingerprints the results are sent for are those of the table. *)
Lemma results_keys (c : cache) (p : pipeline) (h : string) :
  Forall (fun e => is_Some (toCall e.2)) (map_to_list (storage c)) ->
  (forall h cmd,
     (h, cmd) ∈ results p
     <-> exists slot op ty call,
           map_to_list (storage c) !! slot = Some (h, op)
           /\ toCall op = Some (ty, call) /\ cmd = newCmd ty call slot) ->
  h ∈ (results p).*1 <-> is_Some (storage c !! h).
Proof.
  intros Hcalls Hres. rewrite list_elem_of_fmap. split.
  - intros ([h' cmd] & -> & Hin).
    apply Hres in Hin as (i & op & _ & _ & Hi & _).
    exists op. apply elem_of_map_to_list. by eapply list_elem_of_lookup_2.
  - intros [op Hop].
    assert ((h, op) ∈ map_to_list (storage c)) as He
      by (by apply elem_of_map_to_list).
    rewrite Forall_forall in Hcalls.
    destruct (Hcalls (h, op) He) as [[ty call] Hcall]. simpl in Hcall.
    apply list_elem_of_lookup in He as [i Hi].
    exists (h, newCmd ty call i). split; [done|].
    apply Hres. by exists i, op, ty, call.
Qed.

(** ** runPipeline: sending the results *)

(** The loops that send the results, over fingerprints [rs] of the table,
    each once: they return; the entries of these fingerprints are gone and
    the others are as they were; only the channels of listeners of these
    entries have changed; and every listener of an entry none of whose
    handles was closed holds the command of its fingerprint, with the
    answer. *)
Lemma dispatch_spec (answers : list reply) (rs : list (string * redisCmd))
    (c : cache) (w : world) :
  wellFormed c w -> NoDup rs.*1 ->
  (forall h, h ∈ rs.*1 -> is_Some (storage c !! h)) ->
  exists c' w',
    dispatch answers rs c w = Returned c' w'
    /\ wellFormed c' w'
    /\ (forall h, storage c' !! h
                  = if decide (h ∈ rs.*1) then None else storage c !! h)
    /\ (forall r,
          (forall h op, h ∈ rs.*1 -> storage c !! h = Some op -> r ∉ listeners op) ->
          chans w' !! r = chans w !! r)
    /\ (forall h cmd op,
          (h, cmd) ∈ rs -> storage c !! h = Some op ->
          Forall (fun r => isOpen w r = true) (listeners op) ->
          forall r, r ∈ listeners op ->
            chans w' !! r
            = Some {| chClosed := false; chBuf := [populate answers cmd] |}).
Proof.
  revert c w. induction rs as [|[h1 cmd1] rs IH]; intros c w Hwf Hnd Hdom.
  - exists c, w. split; [done|]. split; [done|]. split; [|split; [done|]].
    + intros h. rewrite decide_False; [done|]. apply not_elem_of_nil.
    + intros h cmd op Hin. by apply elem_of_nil in Hin.
  - rewrite fmap_cons in Hnd, Hdom. simpl in Hnd, Hdom.
    apply NoDup_cons in Hnd as [Hh1 Hnd].
    destruct (Hdom h1) as [op1 Hop1]; [by left|].
    destruct (sendResult_spec h1 (populate answers cmd1) c w op1 Hwf Hop1)
      as (c1 & w1 & Hsend & Hst1 & Hwf1 & Hframe1 & Hsent1).
    assert (forall h, h ∈ rs.*1 -> storage c1 !! h = storage c !! h) as Hsame.
    { intros h Hh. rewrite Hst1. apply lookup_delete_ne. by intros ->. }
    destruct (IH c1 w1 Hwf1 Hnd) as (c' & w' & Hd & Hwf' & Hst' & Hframe' & Hsent').
    { intros h Hh. rewrite Hsame by done. apply Hdom. by right. }
    exists c', w'. simpl. rewrite Hsend. simpl.
    split; [done|]. split; [done|]. split; [|split].
    + intros h. rewrite Hst'.
      destruct (decide (h = h1)) as [->|Hne].
      * rewrite decide_False by done. rewrite decide_True by left.
        rewrite Hst1. apply lookup_delete_eq.
      * destruct (decide (h ∈ rs.*1)) as [Hin|Hnin].
        -- by rewrite decide_True by (by right).
        -- rewrite decide_False by (by intros [?|?]%elem_of_cons).
           rewrite Hst1. by apply lookup_delete_ne.
    + intros r Hr. rewrite Hframe'.
      * apply Hframe1. apply (Hr h1 op1); [by left|done].
      * intros h op Hh Hop. rewrite Hsame in Hop by done.
        apply (Hr h op); [by right|done].
    + intros h cmd op Hin Hop Hopen r Hr.
      apply elem_of_cons in Hin as [[= -> ->]|Hin].
      * assert (op = op1) as -> by congruence.
        rewrite Hframe'; [by apply Hsent1|].
        intros h op Hh Hop'. rewrite Hsame in Hop' by done.
        eapply (wellFormed_apart c w h1 h); eauto. by intros ->.
      * assert (h ∈ rs.*1) as Hh.
        { apply list_elem_of_fmap. by exists (h, cmd). }
        assert (h1 <> h) as Hne by (by intros ->).
        apply (Hsent' h cmd op); [done|by rewrite Hsame| |done].
        rewrite Forall_forall in Hopen |- *. intros r' Hr'.
        rewrite (isOpen_ext w w1); [by apply Hopen|].
        apply Hframe1. intros Hin1.
        by apply (wellFormed_apart c w h h1 op op1 r' Hwf Hop Hop1).
Qed.

(** A flush of a well-formed state whose round-trip does not fail: it
    returns; the table is empty and the time of the last pipeline is the
    clock's; no channel but those of handles that waited has changed; and
    the listeners of every entry none of whose handles was closed hold the
    command of the entry. *)
Lemma runPipeline_spec (rt : roundTrip) (now : Z) (c : cache) (w : world) :
  wellFormed c w -> rtErr rt ≫= execMessage = None ->
  exists p c' w',
    gather (map_to_list (storage c)) emptyPipeline = Some p
    /\ runPipeline rt now c w = Returned c' w'
    /\ wellFormed c' w'
    /\ storage c' = ∅
    /\ lastPipeline c' = unixMicro now
    /\ sameSettings c c'
    /\ length (chans w') = length (chans w)
    /\ (forall r, r ∉ allListeners c -> chans w' !! r = chans w !! r)
    /\ (forall slot h op,
          map_to_list (storage c) !! slot = Some (h, op) ->
          exists ty call,
            toCall op = Some (ty, call)
            /\ pipe p !! slot = Some call
            /\ (Forall (fun r => isOpen w r = true) (listeners op) ->
                forall r, r ∈ listeners op ->
                  chans w' !! r
                  = Some {| chClosed := false;
                            chBuf := [populate (rtReplies rt)
                                        (newCmd ty call slot)] |})).
Proof.
  intros Hwf Hrt. pose proof Hwf as (Hcalls & _ & _).
  destruct (gather_table c Hcalls) as (p & Hg & Hall & Hres & Hnd).
  pose proof (fun h => results_keys c p h Hcalls Hres) as Hkeys.
  set (c0 := withLastPipeline (unixMicro now) c).
  set (w0 := emit (EvExec (pipe p)) (emit EvPipeline w)).
  assert (wellFormed c0 w0) as Hwf0 by exact Hwf.
  destruct (dispatch_spec (rtReplies rt) (results p) c0 w0 Hwf0 Hnd)
    as (c' & w' & Hd & Hwf' & Hst & Hframe & Hsent).
  { intros h' Hh'. by apply Hkeys. }
  pose proof (dispatch_frame (rtReplies rt) (results p) c0 w0) as Hf.
  simpl in Hf. rewrite Hd in Hf. simpl in Hf.
  destruct Hf as (Hlast & Hset & _ & Hlen).
  exists p, c', w'. split; [done|]. split.
  { unfold runPipeline. by rewrite Hg, Hrt. }
  split; [done|]. split.
  { apply map_eq. intros h'. rewrite Hst, lookup_empty.
    case_decide as Hh'; [done|].
    destruct (storage c !! h') as [o|] eqn:Ho; [|done].
    exfalso. apply Hh', Hkeys. by exists o. }
  split; [done|]. split; [done|]. split; [done|]. split.
  { intros r Hr. apply Hframe. intros h op _ Hop Hin. apply Hr.
    apply elem_of_allListeners. by exists h, op. }
  intros slot h op Hslot.
  rewrite Forall_forall in Hcalls.
  destruct (Hcalls (h, op)) as [[ty call] Hcall];
    [by eapply list_elem_of_lookup_2|]. simpl in Hcall.
  exists ty, call. split; [done|]. split.
  { eapply Forall2_lookup_l in Hall as (call' & Hc' & ty' & Hty'); [|exact Hslot].
    simpl in Hty'. congruence. }
  intros Hopen r Hr.
  apply (Hsent h (newCmd ty call slot) op); try done.
  - apply Hres. by exists slot, op, ty, call.
  - apply elem_of_map_to_list. by eapply list_elem_of_lookup_2.
Qed.

Lemma sendResult_logs (h : string) (cmd : redisCmd) (c : cache) (w : world)
    (op : redisOperation) :
  storage c !! h = Some op ->
  exists logs,
    trace (worldOf (sendResult h cmd c w)) = logs ++ trace w
    /\ Forall isRecovered logs
    /\ (sendResult h cmd c w
        = deliver cmd (listeners op) (withStorage (delete h (storage c)) c) w ->
        logs = []).
Proof.
  intros Hh. unfold sendResult. rewrite Hh.
  pose proof (deliver_frame cmd (listeners op)
                (withStorage (delete h (storage c)) c) w) as Hf.
  simpl in Hf. destruct Hf as (_ & _ & _ & Ht & _).
  destruct (deliver _ _ _ _) as [c' w'|v c' w'|c' w']; simpl in *.
  - exists []. by rewrite Ht.
  - exists [EvLog (Recovered v)]. rewrite Ht. split; [done|].
    split; [by repeat constructor|done].
  - exists []. by rewrite Ht.
Qed.

(** The loops that send the results log recovered panics and nothing
    else, and nothing at all when no handle that waits has been closed. *)
Lemma dispatch_logs (answers : list reply) (rs : list (string * redisCmd))
    (c : cache) (w : world) :
  wellFormed c w -> NoDup rs.*1 ->
  (forall h, h ∈ rs.*1 -> is_Some (storage c !! h)) ->
  exists logs,
    trace (worldOf (dispatch answers rs c w)) = logs ++ trace w
    /\ Forall isRecovered logs
    /\ (allOpen c w -> logs = []).
Proof.
  revert c w. induction rs as [|[h1 cmd1] rs IH]; intros c w Hwf Hnd Hdom.
  - by exists [].
  - rewrite fmap_cons in Hnd, Hdom. simpl in Hnd, Hdom.
    apply NoDup_cons in Hnd as [Hh1 Hnd].
    destruct (Hdom h1) as [op1 Hop1]; [by left|].
    destruct (sendResult_logs h1 (populate answers cmd1) c w op1 Hop1)
      as (logs1 & Ht1 & Hrec1 & Hnil1).
    destruct (sendResult_spec h1 (populate answers cmd1) c w op1 Hwf Hop1)
      as (c1 & w1 & Hsend & Hst1 & Hwf1 & Hframe1 & _).
    destruct (wellFormed_entry c w h1 op1 Hwf Hop1) as (_ & Hnd1 & Hvac1).
    simpl. rewrite Hsend in *. simpl in *.
    destruct (IH c1 w1 Hwf1 Hnd) as (logs & Ht & Hrec & Hnil).
    { intros h Hh. rewrite Hst1, lookup_delete_ne by (by intros ->).
      apply Hdom. by right. }
    exists (logs ++ logs1). rewrite Ht, Ht1, app_assoc.
    split; [done|]. split; [by apply Forall_app|].
    intros Hopen. unfold allOpen in *.
    pose proof (allListeners_delete c c1 h1 op1 Hop1 Hst1) as Hperm.
    rewrite Hperm in Hopen. apply Forall_app in Hopen as [Hopen1 Hopen].
    rewrite Hnil, Hnil1; [done| |].
    + set (c0 := withStorage (delete h1 (storage c)) c).
      pose proof (deliver_spec (populate answers cmd1) (listeners op1) c0 w
                    Hnd1 Hvac1) as Hd.
      simpl in Hd. destruct Hd as (_ & _ & Hret).
      destruct (Hret Hopen1) as [(c' & w' & Hdel) _].
      unfold sendResult in *. rewrite Hop1 in *. fold c0 in Hsend |- *.
      by rewrite Hdel in *.
    + rewrite Forall_forall in Hopen |- *. intros r Hr.
      rewrite (isOpen_ext w w1); [by apply Hopen|].
      apply Hframe1. intros Hin.
      destruct Hwf as (_ & Hndl & _). rewrite Hperm in Hndl.
      apply NoDup_app in Hndl as (_ & Hdisj & _). by apply (Hdisj r).
Qed.

(** C1, amended: in a flush, the call of every entry of the table is
    queued on the pipeline once, in the order of the snapshot, and the
    pipeline is executed once; one command is kept for the fingerprint of
    an entry, and no fingerprint is sent results twice.  When the
    round-trip does not fail wholesale and none of the handles of the entry
    has been closed, the flush returns and every listener of the entry
    holds that one command, with the answer of the round-trip, as the only
    value in its channel. *)
Theorem flush_delivers (rt : roundTrip) (now : Z) (c : cache) (w : world)
    (h : string) (op : redisOperation) :
  wellFormed c w ->
  storage c !! h = Some op ->
  exists p ty call slot logs,
    gather (map_to_list (storage c)) emptyPipeline = Some p
    /\ Forall2 (fun e call => exists ty, toCall e.2 = Some (ty, call))
         (map_to_list (storage c)) (pipe p)
    /\ toCall op = Some (ty, call)
    /\ pipe p !! slot = Some call
    /\ (forall cmd, (h, cmd) ∈ results p <-> cmd = newCmd ty call slot)
    /\ NoDup (results p).*1
    /\ trace (worldOf (runPipeline rt now c w))
       = logs ++ EvExec (pipe p) :: EvPipeline :: trace w
    /\ Forall isLog logs
    /\ (rtErr rt ≫= execMessage = None ->
        Forall (fun r => isOpen w r = true) (listeners op) ->
        exists c' w',
          runPipeline rt now c w = Returned c' w'
          /\ storage c' = ∅
          /\ forall r, r ∈ listeners op ->
               chans w' !! r
               = Some {| chClosed := false;
                         chBuf := [populate (rtReplies rt)
                                     (newCmd ty call slot)] |}).
Proof.
  intros Hwf Hop.
  pose proof Hwf as (Hcalls & _ & _).
  destruct (gather_table c Hcalls) as (p & Hg & Hall & Hres & Hnd).
  pose proof (fun h => results_keys c p h Hcalls Hres) as Hkeys.
  destruct (wellFormed_entry c w h op Hwf Hop) as ([[ty call] Hcall] & _ & _).
  assert ((h, op) ∈ map_to_list (storage c)) as He
    by (by apply elem_of_map_to_list).
  apply list_elem_of_lookup in He as [slot Hslot].
  assert ((h, newCmd ty call slot) ∈ results p) as Hcmd.
  { apply Hres. by exists slot, op, ty, call. }
  set (c0 := withLastPipeline (unixMicro now) c).
  set (w0 := emit (EvExec (pipe p)) (emit EvPipeline w)).
  assert (wellFormed c0 w0) as Hwf0 by exact Hwf.
  destruct (dispatch_spec (rtReplies rt) (results p) c0 w0 Hwf0 Hnd)
    as (c' & w' & Hd & _ & Hst & _ & Hsent).
  { intros h' Hh'. by apply Hkeys. }
  pose proof (dispatch_frame (rtReplies rt) (results p) c0 w0) as Hf.
  simpl in Hf. rewrite Hd in Hf. simpl in Hf.
  destruct Hf as (_ & _ & (logs & Htrace & Hlogs) & _).
  assert (runPipeline rt now c w
          = match rtErr rt ≫= execMessage with
            | Some msg => Returned c (logError (ErrExec msg) w0)
            | None => Returned c' w'
            end) as Hrun.
  { unfold runPipeline. rewrite Hg. fold w0. fold c0. rewrite Hd.
    by destruct (rtErr rt ≫= execMessage). }
  exists p, ty, call, slot,
    (match rtErr rt ≫= execMessage with
     | Some msg => [EvLog (ErrExec msg)]
     | None => logs
     end).
  split; [done|]. split; [done|]. split; [done|]. split.
  { eapply Forall2_lookup_l in Hall as (call' & Hc' & ty' & Hty'); [|exact Hslot].
    simpl in Hty'. congruence. }
  split.
  { intros cmd. split; [|by intros ->].
    intros (i & o & ty' & call' & Hi & Ht & ->)%Hres.
    destruct (map_to_list_lookup_inj _ h o op i slot Hi Hslot) as [-> ->].
    congruence. }
  split; [done|]. rewrite Hrun.
  destruct (rtErr rt ≫= execMessage) as [msg|]; simpl.
  { split; [done|]. split; [by repeat constructor|done]. }
  split; [done|]. split; [done|]. intros _ Hopen.
  exists c', w'. split; [done|]. split.
  { apply map_eq. intros h'. rewrite Hst, lookup_empty.
    case_decide as Hh'; [done|].
    destruct (storage c !! h') as [o|] eqn:Ho; [|done].
    exfalso. apply Hh', Hkeys. by exists o. }
  intros r Hr. by apply (Hsent h (newCmd ty call slot) op).
Qed.

Lemma flush_delivers_witness :
  let out := schedule [DoEnqueue HDel ["key3"]; DoEnqueue HDel ["key3"];
                       DoEnqueue HDel ["key3"]]%string
               (newCache 0 5000000 defaultRunInterval 1) emptyWorld in
  let rt := {| rtErr := None; rtReplies := [ReplyInt 3] |} in
  exists cmd, forall r, r ∈ [0; 1; 2]%nat ->
    chans (worldOf (runPipeline rt 100 (cacheOf out) (worldOf out))) !! r
    = Some {| chClosed := false; chBuf := [cmd] |}.
Proof.
  intros out rt.
  destruct (flush_delivers rt 100 (cacheOf out) (worldOf out)
              (hashStringSlice HDel ["key3"]%string)
              {| args := ["key3"]%string; listeners := [0; 1; 2]%nat; kind := HDel |})
    as (p & ty & call & slot & logs & _ & _ & _ & _ & _ & _ & _ & _ & Hsent).
  - apply (bool_decide_unpack (wellFormed _ _)). vm_compute. exact I.
  - vm_compute. reflexivity.
  - destruct Hsent as (c' & w' & Hrun & _ & Hsent).
    + reflexivity.
    + apply (bool_decide_unpack (Forall _ _)). vm_compute. exact I.
    + exists (populate (rtReplies rt) (newCmd ty call slot)). intros r Hr.
      rewrite Hrun. exact (Hsent r Hr).
Defined.

(** C1 as stated fails for a flush whose round-trip fails wholesale: three
    calls wait under one fingerprint, all handles open, the round-trip
    fails, and no handle holds a result after the flush. *)
Lemma flush_failed_delivers_nothing :
  ~ (forall (rt : roundTrip) (now : Z) (c : cache) (w : world) (h : string)
            (op : redisOperation),
       wellFormed c w -> storage c !! h = Some op ->
       Forall (fun r => isOpen w r = true) (listeners op) ->
       exists cmd, forall r, r ∈ listeners op ->
         exists ch, chans (worldOf (runPipeline rt now c w)) !! r = Some ch
                    /\ chBuf ch = [cmd]).
Proof.
  intros H.
  pose (out := schedule [DoEnqueue HDel ["key3"]; DoEnqueue HDel ["key3"];
                         DoEnqueue HDel ["key3"]]%string
                 (newCache 0 5000000 defaultRunInterval 1) emptyWorld).
  destruct (H {| rtErr := Some (ExecFailure "EOF"); rtReplies := [] |} 100
              (cacheOf out) (worldOf out)
              (hashStringSlice HDel ["key3"]%string)
              {| args := ["key3"]%string; listeners := [0; 1; 2]%nat; kind := HDel |})
    as [cmd Hcmd].
  - apply (bool_decide_unpack (wellFormed _ _)). vm_compute. exact I.
  - vm_compute. reflexivity.
  - apply (bool_decide_unpack (Forall _ _)). vm_compute. exact I.
  - destruct (Hcmd 0%nat) as (ch & Hch & Hbuf); [by left|].
    vm_compute in Hch. injection Hch as <-. discriminate.
Qed.

(** ** runPipeline: a round-trip that fails *)

(** C4: when the round-trip fails with an error other than [redis.Nil],
    [runPipeline] logs the error and returns: the cache, with its table
    and the time of the last pipeline, is as it was, and so is every
    channel, so no listener has received anything.  When the round-trip
    yields [redis.Nil], nothing is logged for it: on a well-formed state
    [runPipeline] returns with the time of the last pipeline set to the
    clock, having logged at most panics it recovered from, and every
    listener of an entry none of whose handles was closed holds the
    command of the entry with the answer of the server. *)
Theorem bulk_failure (rt : roundTrip) (now : Z) (c : cache) (w : world) :
  let out := runPipeline rt now c w in
  (forall msg, rtErr rt = Some (ExecFailure msg) ->
     cacheOf out = c /\ chans (worldOf out) = chans w
     /\ forall p, gather (map_to_list (storage c)) emptyPipeline = Some p ->
          out = Returned c (logError (ErrExec msg)
                              (emit (EvExec (pipe p)) (emit EvPipeline w))))
  /\ (rtErr rt = Some RedisNil -> wellFormed c w ->
      exists p c' w' logs,
        gather (map_to_list (storage c)) emptyPipeline = Some p
        /\ out = Returned c' w'
        /\ lastPipeline c' = unixMicro now
        /\ trace w' = logs ++ EvExec (pipe p) :: EvPipeline :: trace w
        /\ Forall isRecovered logs
        /\ forall slot h op,
             map_to_list (storage c) !! slot = Some (h, op) ->
             exists ty call,
               toCall op = Some (ty, call)
               /\ pipe p !! slot = Some call
               /\ (Forall (fun r => isOpen w r = true) (listeners op) ->
                   forall r, r ∈ listeners op ->
                     chans w' !! r
                     = Some {| chClosed := false;
                               chBuf := [populate (rtReplies rt)
                                           (newCmd ty call slot)] |})).
Proof.
  split.
  - unfold runPipeline. intros msg ->. simpl.
    destruct (gather _ _) as [p|]; simpl; [|by repeat split].
    repeat split. by intros ? [= <-].
  - intros Hrt Hwf.
    assert (rtErr rt ≫= execMessage = None) as Hok by (by rewrite Hrt).
    destruct (runPipeline_spec rt now c w Hwf Hok)
      as (p & c' & w' & Hg & Hrun & _ & _ & Hlast & _ & _ & _ & Hsent).
    pose proof Hwf as (Hcalls & _ & _).
    destruct (gather_table c Hcalls) as (p' & Hg' & _ & Hres & Hnd).
    assert (p' = p) as -> by congruence.
    destruct (dispatch_logs (rtReplies rt) (results p)
                (withLastPipeline (unixMicro now) c)
                (emit (EvExec (pipe p)) (emit EvPipeline w)) Hwf Hnd)
      as (logs & Ht & Hrec & _).
    { intros h Hh. by apply (results_keys c p h Hcalls Hres). }
    assert (runPipeline rt now c w
            = dispatch (rtReplies rt) (results p)
                (withLastPipeline (unixMicro now) c)
                (emit (EvExec (pipe p)) (emit EvPipeline w))) as Hd
      by (unfold runPipeline; by rewrite Hg, Hok).
    rewrite <- Hd, Hrun in Ht. simpl in Ht.
    exists p, c', w', logs. by repeat (split; [done|]).
Qed.

Lemma bulk_failure_witness :
  let out := schedule [DoEnqueue HDel ["key1"]; DoEnqueue HDel ["key1"]]%string
               (newCache 0 500000 defaultRunInterval 200) emptyWorld in
  let failed := {| rtErr := Some (ExecFailure "connection refused");
                   rtReplies := [] |} in
  let asked := schedule [DoEnqueue Get ["missing"]; DoEnqueue Get ["missing"]]%string
                 (newCache 0 500000 defaultRunInterval 200) emptyWorld in
  let empty := {| rtErr := Some RedisNil; rtReplies := [ReplyNil] |} in
  (cacheOf (runPipeline failed 700000 (cacheOf out) (worldOf out)) = cacheOf out
   /\ chans (worldOf (runPipeline failed 700000 (cacheOf out) (worldOf out)))
      = chans (worldOf out))
  /\ exists c' w',
       runPipeline empty 700000 (cacheOf asked) (worldOf asked) = Returned c' w'
       /\ lastPipeline c' = 700
       /\ forall r, r ∈ [0; 1]%nat ->
            chans w' !! r
            = Some {| chClosed := false;
                      chBuf := [{| cmdKind := StringCmd;
                                   cmdCall := CallGet "missing";
                                   cmdSlot := 0;
                                   cmdVal := Some ReplyNil |}] |}.
Proof.
  intros out failed asked empty. split.
  - destruct (proj1 (bulk_failure failed 700000 (cacheOf out) (worldOf out))
                "connection refused"%string eq_refl) as (Hc & Hw & _).
    exact (conj Hc Hw).
  - destruct (proj2 (bulk_failure empty 700000 (cacheOf asked) (worldOf asked))
                eq_refl)
      as (p & c' & w' & logs & Hg & Hrun & Hlast & _ & _ & Hsent).
    { apply (bool_decide_unpack (wellFormed _ _)). vm_compute. exact I. }
    exists c', w'. split; [exact Hrun|]. split; [rewrite Hlast; reflexivity|].
    destruct (Hsent 0%nat (hashStringSlice Get ["missing"]%string)
                {| args := ["missing"]%string; listeners := [0; 1]%nat;
                   kind := Get |})
      as (ty & call & Hcall & _ & Hall); [vm_compute; reflexivity|].
    injection Hcall as <- <-. apply Hall.
    apply (bool_decide_unpack (Forall _ _)). vm_compute. exact I.
Defined.

(** ** A handle closed before its result is sent *)

(** C2, where the code departs from it: the send to the closed handle 0
    panics, [sendResult] recovers and logs; the entry of HDel is gone from
    the table, its second listener, handle 1, open, has been sent nothing,
    and the listener of the other operation, handle 2, holds its result. *)
Theorem closed_handle_starves_siblings :
  trace (worldOf closedHandleRun)
  = [EvLog (Recovered "send on closed channel");
     EvExec [CallHDel "key3" []; CallHGet "key1" "name"]; EvPipeline]
  /\ storage (cacheOf closedHandleRun) = ∅
  /\ chans (worldOf closedHandleRun) !! 1%nat
     = Some {| chClosed := false; chBuf := [] |}
  /\ chans (worldOf closedHandleRun) !! 2%nat
     = Some {| chClosed := false;
               chBuf := [{| cmdKind := StringCmd;
                            cmdCall := CallHGet "key1" "name";
                            cmdSlot := 1;
                            cmdVal := Some (ReplyString "john") |}] |}.
Proof. vm_compute. repeat split; reflexivity. Qed.

(** C9, where the code departs from it: after the run the table is empty,
    no listener waits, and the counter of listeners is 1. *)
Theorem closed_handle_leaks_counter :
  storage (cacheOf closedChannelTest) = ∅
  /\ allListeners (cacheOf closedChannelTest) = []
  /\ activeListeners (cacheOf closedChannelTest) = 1.
Proof. vm_compute. repeat split; reflexivity. Qed.

(** ** Well-formed states are kept *)

Lemma toCall_withListeners (ls : list nat) (o : redisOperation) :
  toCall (withListeners ls o) = toCall o.
Proof. done. Qed.

Lemma vacant_lt (w : world) (r : nat) :
  vacant w r = true -> (r < length (chans w))%nat.
Proof.
  unfold vacant. destruct (chans w !! r) eqn:E; [|done].
  intros _. by apply lookup_lt_Some in E.
Qed.

Lemma wellFormed_newCache (now ttl interval size : Z) (w : world) :
  wellFormed (newCache now ttl interval size) w.
Proof.
  unfold wellFormed, allListeners. simpl. rewrite map_to_list_empty. simpl.
  repeat split; constructor.
Qed.

(** [enqueue] on a running cache adds its handle to those that wait, and
    nothing else. *)
Lemma allListeners_enqueue (k : operationPrefix) (a : list string)
    (c : cache) (w : world) :
  done c = false ->
  allListeners (enqueue k a c w).1.2 ≡ₚ length (chans w) :: allListeners c.
Proof.
  intros Hdone. unfold enqueue. simpl. rewrite Hdone.
  destruct (storage c !! hashStringSlice k a) as [o|] eqn:Hh; simpl.
  - set (h := hashStringSlice k a) in *.
    set (cd := withStorage (delete h (storage c)) c).
    rewrite (allListeners_delete c cd h o Hh eq_refl).
    rewrite (allListeners_insert cd _ h
               (withListeners (listeners o ++ [length (chans w)]) o)).
    + simpl. rewrite <- app_assoc. simpl. symmetry. apply Permutation_middle.
    + apply lookup_delete_eq.
    + simpl. by rewrite insert_delete_eq.
  - by rewrite (allListeners_insert c _ (hashStringSlice k a)
                  {| args := a; listeners := [length (chans w)]; kind := k |}).
Qed.

Lemma wellFormed_enqueue (k : operationPrefix) (a : list string)
    (c : cache) (w : world) :
  wellFormed c w ->
  is_Some (toCall {| args := a; listeners := []; kind := k |}) ->
  wellFormed (enqueue k a c w).1.2 (enqueue k a c w).2.
Proof.
  intros Hwf Hcall. pose proof Hwf as (Hcalls & Hnd & Hvac).
  assert (forall r, r ∈ allListeners c -> (r < length (chans w))%nat) as Hlt.
  { rewrite Forall_forall in Hvac. intros r Hr. by apply vacant_lt, Hvac. }
  destruct (done c) eqn:Hdone.
  - unfold enqueue. simpl. rewrite Hdone. simpl.
    split; [done|]. split; [done|].
    rewrite Forall_forall in Hvac |- *. intros r Hr.
    rewrite <- (Hvac r Hr). apply vacant_ext.
    pose proof (closeChan_fresh (logError ErrCacheStopped w)
                  {| chClosed := false; chBuf := [] |}) as Hc.
    simpl in Hc. unfold logError, emit, withChans in *. simpl in *.
    rewrite Hc. apply lookup_app_l. by apply Hlt.
  - pose proof (allListeners_enqueue k a c w Hdone) as Hperm.
    split; [|split].
    + unfold enqueue. simpl. rewrite Hdone.
      rewrite Forall_forall in Hcalls |- *.
      destruct (storage c !! hashStringSlice k a) as [o|] eqn:Hh; simpl;
        intros [h' o'] [[<- <-]|[Hne Ho']]%elem_of_map_to_list%lookup_insert_Some.
      * change (is_Some (toCall o)). apply (Hcalls (hashStringSlice k a, o)).
        by apply elem_of_map_to_list.
      * apply (Hcalls (h', o')). by apply elem_of_map_to_list.
      * done.
      * apply (Hcalls (h', o')). by apply elem_of_map_to_list.
    + rewrite Hperm. apply NoDup_cons. split; [|done].
      intros Hin. apply Hlt in Hin. lia.
    + rewrite Hperm. assert ((enqueue k a c w).2
        = withChans (chans w ++ [{| chClosed := false; chBuf := [] |}]) w) as ->.
      { unfold enqueue. simpl. rewrite Hdone. by destruct (storage c !! _). }
      apply Forall_cons. split.
      * unfold vacant. simpl. by rewrite list_lookup_middle.
      * rewrite Forall_forall in Hvac |- *. intros r Hr.
        rewrite <- (Hvac r Hr). apply vacant_ext. simpl.
        apply lookup_app_l. by apply Hlt.
Qed.

Lemma wellFormed_closeChan (r : nat) (c : cache) (w : world) :
  wellFormed c w -> wellFormed c (closeChan r w).
Proof.
  intros (Hcalls & Hnd & Hvac). split; [done|]. split; [done|].
  rewrite Forall_forall in Hvac |- *. intros r' Hr'.
  rewrite <- (Hvac r' Hr'). unfold closeChan, vacant.
  destruct (chans w !! r) as [ch|] eqn:Hr; [|done]. simpl.
  destruct (decide (r' = r)) as [->|Hne].
  - rewrite list_lookup_insert_eq by (by apply lookup_lt_Some in Hr).
    by rewrite Hr.
  - by rewrite list_lookup_insert_ne.
Qed.

Lemma wellFormed_chanRecv (r : nat) (v : redisCmd) (c : cache) (w w' : world) :
  wellFormed c w -> chanRecv r w = RecvValue v w' -> wellFormed c w'.
Proof.
  intros (Hcalls & Hnd & Hvac). unfold chanRecv.
  destruct (chans w !! r) as [ch|] eqn:Hr; [|done].
  destruct (chBuf ch) as [|v' rest] eqn:Hbuf; [by destruct (chClosed ch)|].
  intros [= -> <-]. split; [done|]. split; [done|].
  rewrite Forall_forall in Hvac |- *. intros r' Hr'.
  rewrite <- (Hvac r' Hr'). apply vacant_ext. simpl.
  apply list_lookup_insert_ne. intros ->.
  specialize (Hvac r' Hr'). unfold vacant in Hvac. by rewrite Hr, Hbuf in Hvac.
Qed.

(** On a well-formed state [runPipeline] returns, in a well-formed state. *)
Lemma runPipeline_returns (rt : roundTrip) (now : Z) (c : cache) (w : world) :
  wellFormed c w ->
  exists c' w', runPipeline rt now c w = Returned c' w' /\ wellFormed c' w'.
Proof.
  intros Hwf. pose proof Hwf as (Hcalls & _ & _).
  destruct (gather_table c Hcalls) as (p & Hg & _ & Hres & Hnd).
  unfold runPipeline. rewrite Hg.
  destruct (rtErr rt ≫= execMessage) as [msg|]; [by eauto|].
  set (c0 := withLastPipeline (unixMicro now) c).
  set (w0 := emit (EvExec (pipe p)) (emit EvPipeline w)).
  assert (wellFormed c0 w0) as Hwf0 by exact Hwf.
  destruct (dispatch_spec (rtReplies rt) (results p) c0 w0 Hwf0 Hnd)
    as (c' & w' & Hd & Hwf' & _).
  { intros h Hh. by apply (results_keys c p h Hcalls Hres). }
  by eauto.
Qed.

Lemma transform_normalizable (key field : string) (fields keys : list string)
    (expiration : Z) :
  stepOk (DoEnqueue HDel (transformHDel key fields))
  /\ stepOk (DoEnqueue Expire (transformExpire key expiration))
  /\ stepOk (DoEnqueue HGet (transformHGet key field))
  /\ stepOk (DoEnqueue HGetAll (transformHGetAll key))
  /\ stepOk (DoEnqueue Get (transformGet key))
  /\ stepOk (DoEnqueue Del (transformDel keys))
  /\ stepOk (DoEnqueue SMembers (transformSMembers key))
  /\ stepOk (DoEnqueue MGet (transformMGet keys)).
Proof.
  repeat split; try by eexists.
  unfold stepOk, toCall. simpl. destruct fields as [|f [|f' fields]]; by eexists.
Qed.

(** ** The counter of listeners *)

Lemma enqueue_counted (k : operationPrefix) (a : list string)
    (c : cache) (w : world) :
  counted c -> activeListeners c < maxInt32 -> counted (enqueue k a c w).1.2.
Proof.
  unfold counted. intros Hc Hmax. destruct (done c) eqn:Hdone.
  - unfold enqueue. simpl. by rewrite Hdone.
  - rewrite (allListeners_enqueue k a c w Hdone). simpl length.
    assert (activeListeners (enqueue k a c w).1.2
            = int32 (activeListeners c + 1)) as ->.
    { unfold enqueue. simpl. rewrite Hdone. by destruct (storage c !! _). }
    rewrite int32_small; [lia|]. unfold maxInt32 in *. lia.
Qed.

(** The loop over listeners that are all open subtracts their number. *)
Lemma deliver_counts (cmd : redisCmd) (ls : list nat) (c : cache) (w : world) :
  NoDup ls -> Forall (fun r => vacant w r = true) ls ->
  Forall (fun r => isOpen w r = true) ls ->
  Z.of_nat (length ls) <= activeListeners c <= maxInt32 ->
  activeListeners (cacheOf (deliver cmd ls c w))
  = activeListeners c - Z.of_nat (length ls).
Proof.
  revert c w. induction ls as [|r ls IH]; intros c w Hnd Hvac Hopen Hc; simpl.
  - lia.
  - apply NoDup_cons in Hnd as [Hr Hnd].
    apply Forall_cons in Hvac as [Hvr Hvac].
    apply Forall_cons in Hopen as [Hor Hopen].
    destruct (chanSend_vacant r cmd w Hvr) as [[_ ->]|[Hclosed _]];
      [|congruence].
    set (w1 := withChans _ w).
    assert (forall r', r' ∈ ls -> chans w1 !! r' = chans w !! r') as Hother.
    { intros r' Hr'. simpl. apply list_lookup_insert_ne. by intros ->. }
    simpl length in Hc. unfold maxInt32 in *.
    rewrite IH; try done.
    + simpl. rewrite int32_small; unfold maxInt32; lia.
    + rewrite Forall_forall in Hvac |- *. intros r' Hr'.
      rewrite (vacant_ext w w1); [by apply Hvac|by apply Hother].
    + rewrite Forall_forall in Hopen |- *. intros r' Hr'.
      rewrite (isOpen_ext w w1); [by apply Hopen|by apply Hother].
    + simpl. rewrite int32_small; unfold maxInt32; lia.
Qed.

Lemma sendResult_counted (h : string) (cmd : redisCmd) (c : cache) (w : world)
    (op : redisOperation) :
  wellFormed c w -> storage c !! h = Some op ->
  Forall (fun r => isOpen w r = true) (listeners op) ->
  counted c -> activeListeners c <= maxInt32 ->
  counted (cacheOf (sendResult h cmd c w)).
Proof.
  intros Hwf Hh Hopen Hc Hmax. unfold counted in *.
  destruct (wellFormed_entry c w h op Hwf Hh) as (_ & Hnd & Hvac).
  set (c1 := withStorage (delete h (storage c)) c).
  pose proof (allListeners_delete c c1 h op Hh eq_refl) as Hperm.
  apply Permutation_length in Hperm. rewrite length_app in Hperm.
  pose proof (deliver_spec cmd (listeners op) c1 w Hnd Hvac) as Hd.
  pose proof (deliver_frame cmd (listeners op) c1 w) as Hf.
  pose proof (deliver_counts cmd (listeners op) c1 w Hnd Hvac Hopen) as Hn.
  simpl in Hd, Hf, Hn. destruct Hd as (_ & _ & Hsent).
  destruct (Hsent Hopen) as [(c' & w' & Hret) _]. destruct Hf as (Hst & _).
  unfold sendResult. rewrite Hh. fold c1. rewrite Hret in *. simpl in *.
  rewrite Hn by lia.
  assert (allListeners c' = allListeners c1) as ->
    by (unfold allListeners; by rewrite Hst).
  lia.
Qed.

(** The loops that send the results keep the counter right when no handle
    that waits has been closed. *)
Lemma dispatch_counted (answers : list reply) (rs : list (string * redisCmd))
    (c : cache) (w : world) :
  wellFormed c w -> NoDup rs.*1 ->
  (forall h, h ∈ rs.*1 -> is_Some (storage c !! h)) ->
  Forall (fun r => isOpen w r = true) (allListeners c) ->
  counted c -> activeListeners c <= maxInt32 ->
  counted (cacheOf (dispatch answers rs c w)).
Proof.
  revert c w. induction rs as [|[h1 cmd1] rs IH];
    intros c w Hwf Hnd Hdom Hopen Hc Hmax; [done|].
  rewrite fmap_cons in Hnd, Hdom. simpl in Hnd, Hdom.
  apply NoDup_cons in Hnd as [Hh1 Hnd].
  destruct (Hdom h1) as [op1 Hop1]; [by left|].
  assert (Forall (fun r => isOpen w r = true) (listeners op1)) as Hopen1.
  { rewrite Forall_forall in Hopen |- *. intros r Hr. apply Hopen.
    apply elem_of_allListeners. by exists h1, op1. }
  pose proof (sendResult_counted h1 (populate answers cmd1) c w op1
                Hwf Hop1 Hopen1 Hc Hmax) as Hc1.
  destruct (sendResult_spec h1 (populate answers cmd1) c w op1 Hwf Hop1)
    as (c1 & w1 & Hsend & Hst1 & Hwf1 & Hframe1 & _).
  simpl. rewrite Hsend in *. simpl in *.
  pose proof (allListeners_delete c c1 h1 op1 Hop1 Hst1) as Hperm.
  apply IH; try done.
  - intros h Hh. rewrite Hst1, lookup_delete_ne by (by intros ->).
    apply Hdom. by right.
  - rewrite Hperm in Hopen. apply Forall_app in Hopen as [_ Hopen].
    rewrite Forall_forall in Hopen |- *. intros r Hr.
    rewrite (isOpen_ext w w1); [by apply Hopen|].
    apply Hframe1. intros Hin.
    destruct Hwf as (_ & Hndl & _). rewrite Hperm in Hndl.
    apply NoDup_app in Hndl as (_ & Hdisj & _). by apply (Hdisj r).
  - unfold counted in *. rewrite Hc1. rewrite Hc in Hmax.
    apply Permutation_length in Hperm. rewrite length_app in Hperm. lia.
Qed.

(** A flush keeps the counter right when no handle that waits has been
    closed. *)
Lemma runPipeline_counted (rt : roundTrip) (now : Z) (c : cache) (w : world) :
  wellFormed c w ->
  Forall (fun r => isOpen w r = true) (allListeners c) ->
  counted c -> activeListeners c <= maxInt32 ->
  counted (cacheOf (runPipeline rt now c w)).
Proof.
  intros Hwf Hopen Hc Hmax. pose proof Hwf as (Hcalls & _ & _).
  destruct (gather_table c Hcalls) as (p & Hg & _ & Hres & Hnd).
  unfold runPipeline. rewrite Hg.
  destruct (rtErr rt ≫= execMessage) as [msg|]; [done|].
  apply dispatch_counted; try done.
  intros h Hh. by apply (results_keys c p h Hcalls Hres).
Qed.

(** ** run: the end of the loop *)

(** Once the context is done the cache takes no more calls, the pipeline
    runs at most once more, and the turns that would follow are not
    taken. *)
Lemma run_cancelled (t : turn) (ts : list turn) (c : cache) (w : world) :
  cancelled t = true ->
  run (t :: ts) c w = runDone t c w
  /\ done (cacheOf (run (t :: ts) c w)) = true
  /\ (flushes (worldOf (run (t :: ts) c w)) <= S (flushes w))%nat.
Proof.
  intros Hc. simpl. rewrite Hc. split; [done|]. unfold runDone.
  destruct (0 <? _).
  - rewrite runPipeline_flushes. split; [|lia].
    unfold runPipeline. destruct (gather _ _) as [p|]; [|done].
    destruct (rtErr _ ≫= execMessage); [done|].
    by destruct (dispatch_frame (rtReplies (answer t)) (results p)
                   (withLastPipeline (unixMicro (clockAfter t)) (withDone true c))
                   (emit (EvExec (pipe p)) (emit EvPipeline w)))
      as (_ & (_ & _ & _ & ->) & _).
  - split; [done|]. simpl. lia.
Qed.

(** * Further properties of the engine *)

(** ** runPipeline: what a flush does to the whole state *)

(** ** runPipeline: what a flush logs *)

(** X2: in a flush of a well-formed state the pipeline is created and
    executed once; after that the flush logs the error of a round-trip that
    failed and nothing else, or, the round-trip not having failed, only
    panics it recovered from, and nothing when no handle that waits has
    been closed.  It never logs that a fingerprint was not found. *)
Theorem flush_logs (rt : roundTrip) (now : Z) (c : cache) (w : world) :
  wellFormed c w ->
  exists p logs,
    gather (map_to_list (storage c)) emptyPipeline = Some p
    /\ trace (worldOf (runPipeline rt now c w))
       = logs ++ EvExec (pipe p) :: EvPipeline :: trace w
    /\ (forall msg, rtErr rt = Some (ExecFailure msg) ->
        logs = [EvLog (ErrExec msg)])
    /\ (rtErr rt ≫= execMessage = None ->
        Forall isRecovered logs /\ (allOpen c w -> logs = []))
    /\ forall h, EvLog (ErrHashNotFound h) ∉ logs.
Proof.
  intros Hwf. pose proof Hwf as (Hcalls & _ & _).
  destruct (gather_table c Hcalls) as (p & Hg & _ & Hres & Hnd).
  set (c0 := withLastPipeline (unixMicro now) c).
  set (w0 := emit (EvExec (pipe p)) (emit EvPipeline w)).
  assert (wellFormed c0 w0) as Hwf0 by exact Hwf.
  destruct (dispatch_logs (rtReplies rt) (results p) c0 w0 Hwf0 Hnd)
    as (logs & Ht & Hrec & Hnil).
  { intros h Hh. by apply (results_keys c p h Hcalls Hres). }
  unfold runPipeline. rewrite Hg. fold w0 c0.
  destruct (rtErr rt) as [[|msg]|] eqn:Hrt; simpl.
  - exists p, logs. split; [done|]. split; [done|]. split; [done|].
    split; [done|]. intros h Hin. rewrite Forall_forall in Hrec.
    by apply Hrec in Hin.
  - exists p, [EvLog (ErrExec msg)]. split; [done|]. split; [done|].
    split; [by intros ? [= ->]|]. split; [done|].
    intros h Hin. apply list_elem_of_singleton in Hin. discriminate.
  - exists p, logs. split; [done|]. split; [done|]. split; [done|].
    split; [done|]. intros h Hin. rewrite Forall_forall in Hrec.
    by apply Hrec in Hin.
Qed.

Lemma flush_logs_witness :
  exists p logs,
    trace (worldOf (runPipeline {| rtErr := None; rtReplies := [ReplyInt 2] |}
                      7000000 (cacheOf closedHandleBefore)
                      (worldOf closedHandleBefore)))
    = logs ++ EvExec (pipe p) :: EvPipeline :: trace (worldOf closedHandleBefore)
    /\ Forall isRecovered logs.
Proof.
  destruct (flush_logs {| rtErr := None; rtReplies := [ReplyInt 2] |}
              7000000 (cacheOf closedHandleBefore) (worldOf closedHandleBefore))
    as (p & logs & _ & Htrace & _ & Hrec & _).
  - apply (bool_decide_unpack (wellFormed _ _)). vm_compute. exact I.
  - exists p, logs. split; [exact Htrace|]. apply Hrec. reflexivity.
Defined.

(** ** run: turn after turn *)

Lemma runPipeline_failed (rt : roundTrip) (now : Z) (c : cache) (w : world)
    (msg : string) :
  rtErr rt = Some (ExecFailure msg) ->
  cacheOf (runPipeline rt now c w) = c
  /\ chans (worldOf (runPipeline rt now c w)) = chans w.
Proof.
  intros Hrt. unfold runPipeline. rewrite Hrt. simpl.
  by destruct (gather _ _).
Qed.

(** X3: when a trigger fires and the round-trip fails wholesale, the cache
    and the channels stay as they are, and the next turn, at a clock that
    is not earlier, runs the pipeline again on the same cache: the entries
    are tried again at every turn until a round-trip goes through. *)
Theorem failed_flush_retried (t1 t2 : turn) (c : cache) (w : world)
    (msg : string) :
  rtErr (answer t1) = Some (ExecFailure msg) ->
  sizeTrigger c = true \/ timeTrigger (clock t1) c = true ->
  clock t1 <= clock t2 ->
  let out1 := runDefault t1 c w in
  cacheOf out1 = c
  /\ chans (worldOf out1) = chans w
  /\ runDefault t2 (cacheOf out1) (worldOf out1)
     = runPipeline (answer t2) (clockAfter t2) c (worldOf out1)
  /\ flushes (worldOf (runDefault t2 (cacheOf out1) (worldOf out1)))
     = S (S (flushes w)).
Proof.
  intros Hrt Htrig Hclock out1.
  assert (out1 = runPipeline (answer t1) (clockAfter t1) c w) as Hout1.
  { unfold out1, runDefault. destruct (sizeTrigger c); [done|].
    by destruct Htrig as [?| ->]. }
  destruct (runPipeline_failed (answer t1) (clockAfter t1) c w msg Hrt)
    as [Hc Hw].
  rewrite <- Hout1 in Hc, Hw. rewrite Hc.
  assert (runDefault t2 c (worldOf out1)
          = runPipeline (answer t2) (clockAfter t2) c (worldOf out1)) as Hagain.
  { unfold runDefault. destruct (sizeTrigger c); [done|].
    destruct Htrig as [?|Ht]; [done|].
    unfold timeTrigger in *. apply andb_true_iff in Ht as [Ht1 Ht2].
    rewrite Ht2. replace (_ <? clock t2) with true by lia. done. }
  split; [done|]. split; [done|]. split; [done|].
  rewrite Hagain, runPipeline_flushes, Hout1, runPipeline_flushes. done.
Qed.

Lemma failed_flush_retried_witness :
  let c := cacheOf closedHandleBefore in
  let w := worldOf closedHandleBefore in
  let t1 := {| cancelled := false; clock := 2000000;
               answer := {| rtErr := Some (ExecFailure "EOF"); rtReplies := [] |};
               clockAfter := 2000100 |} in
  let t2 := okTurn 2050000 [ReplyInt 2; ReplyString "john"] in
  flushes (worldOf (runDefault t2 (cacheOf (runDefault t1 c w))
                      (worldOf (runDefault t1 c w))))
  = S (S (flushes w)).
Proof.
  intros c w t1 t2.
  refine (proj2 (proj2 (proj2 (failed_flush_retried t1 t2 c w "EOF" _ _ _)))).
  - reflexivity.
  - right. vm_compute. reflexivity.
  - vm_compute. discriminate.
Defined.

(** ** runPipeline: entries that cannot be normalized *)

Lemma toCall_minArgs (op : redisOperation) :
  is_Some (toCall op) <-> (minArgs (kind op) <= length (args op))%nat.
Proof.
  unfold toCall. destruct op as [a ls k]. simpl.
  destruct k, a as [|x [|y a]]; simpl; split;
    try lia; try (by eexists); by intros [? ?].
Qed.

Lemma gather_None (l : list (string * redisOperation)) (p : pipeline) :
  gather l p = None <-> Exists (fun e => toCall e.2 = None) l.
Proof.
  revert p. induction l as [|[h op] l IH]; intros p; simpl.
  - split; [done|]. by intros H%Exists_nil.
  - rewrite Exists_cons. simpl. destruct (toCall op) as [[ty call]|].
    + rewrite IH. split; [by right|]. by intros [?|?].
    + split; [by left|done].
Qed.

Lemma dispatch_not_panicked (answers : list reply) (rs : list (string * redisCmd))
    (c : cache) (w : world) :
  ~ isPanicked (dispatch answers rs c w).
Proof.
  revert c w. induction rs as [|[h cmd] rs IH]; intros c w; simpl; [tauto|].
  unfold sendResult. destruct (storage c !! h) as [o|]; simpl; [|apply IH].
  destruct (deliver _ _ _ _); simpl; [apply IH|apply IH|tauto].
Qed.

(** X5: a flush panics, and nothing recovers, exactly when the table has an
    entry with fewer arguments than the [normalizeX] of its kind indexes:
    none for HDel, HGetAll, Get or SMembers, fewer than two for Expire or
    HGet.  The panic comes before the round-trip: the cache and the
    channels are as they were and nothing has been executed. *)
Theorem flush_panics_iff (rt : roundTrip) (now : Z) (c : cache) (w : world) :
  (isPanicked (runPipeline rt now c w)
   <-> exists h op, storage c !! h = Some op
                    /\ (length (args op) < minArgs (kind op))%nat)
  /\ (isPanicked (runPipeline rt now c w) ->
      runPipeline rt now c w = Panicked "index out of range" c (emit EvPipeline w)).
Proof.
  assert (gather (map_to_list (storage c)) emptyPipeline = None
          <-> exists h op, storage c !! h = Some op
                           /\ (length (args op) < minArgs (kind op))%nat) as Hiff.
  { rewrite gather_None, Exists_exists. split.
    - intros ([h op] & Hin%elem_of_map_to_list & Hnone). exists h, op.
      split; [done|]. simpl in Hnone.
      destruct (decide (minArgs (kind op) <= length (args op))%nat) as [Hle|];
        [|lia].
      apply toCall_minArgs in Hle as [? Hle]. congruence.
    - intros (h & op & Hop & Hlt). exists (h, op).
      split; [by apply elem_of_map_to_list|]. simpl.
      destruct (toCall op) eqn:E; [|done].
      assert (is_Some (toCall op)) as Hs by (by rewrite E).
      apply toCall_minArgs in Hs. lia. }
  unfold runPipeline.
  destruct (gather (map_to_list (storage c)) emptyPipeline) as [p|] eqn:Hg.
  - assert (~ isPanicked
               match rtErr rt ≫= execMessage with
               | Some msg =>
                   Returned c (logError (ErrExec msg)
                                 (emit (EvExec (pipe p)) (emit EvPipeline w)))
               | None =>
                   dispatch (rtReplies rt) (results p)
                     (withLastPipeline (unixMicro now) c)
                     (emit (EvExec (pipe p)) (emit EvPipeline w))
               end) as Hno.
    { destruct (rtErr rt ≫= execMessage); [simpl; tauto|].
      apply dispatch_not_panicked. }
    split; [|done]. split; [done|].
    intros H. apply Hiff in H. discriminate.
  - split; [|done]. split; [intros _; by apply Hiff|done].
Qed.

Lemma flush_panics_iff_witness :
  runPipeline {| rtErr := None; rtReplies := [] |} 5000000
    (cacheOf shortArgsRun) (worldOf shortArgsRun)
  = Panicked "index out of range" (cacheOf shortArgsRun)
      (emit EvPipeline (worldOf shortArgsRun)).
Proof.
  destruct (flush_panics_iff {| rtErr := None; rtReplies := [] |} 5000000
              (cacheOf shortArgsRun) (worldOf shortArgsRun)) as [Hiff Hout].
  apply Hout, Hiff.
  exists (hashStringSlice HGet ["key1"]%string),
    {| args := ["key1"]%string; listeners := [0%nat]; kind := HGet |}.
  split; [vm_compute; reflexivity|simpl; lia].
Defined.

(** ** sendResult: a closed handle among the listeners *)

Lemma deliver_app (cmd : redisCmd) (l1 l2 : list nat) (c : cache) (w : world) :
  deliver cmd (l1 ++ l2) c w = andThen (deliver cmd l1 c w) (deliver cmd l2).
Proof.
  revert c w. induction l1 as [|r l1 IH]; intros c w; simpl; [done|].
  destruct (chanSend r cmd w); [apply IH|done..].
Qed.

(** X6: where the listeners of an entry are some open handles, then a
    closed one, then others, [sendResult] takes the entry out of the table,
    sends the command to the handles before the closed one and to no handle
    after it, logs the recovered panic and returns; the counter goes down by
    the number of handles before the closed one only. *)
Theorem closed_handle_cuts_delivery (h : string) (cmd : redisCmd) (c : cache)
    (w : world) (op : redisOperation) (before after : list nat) (r : nat) :
  wellFormed c w -> storage c !! h = Some op ->
  listeners op = before ++ r :: after ->
  Forall (fun x => isOpen w x = true) before -> isOpen w r = false ->
  exists c' w',
    sendResult h cmd c w = Returned c' w'
    /\ storage c' = delete h (storage c)
    /\ trace w' = EvLog (Recovered "send on closed channel") :: trace w
    /\ (forall x, x ∈ before ->
          chans w' !! x = Some {| chClosed := false; chBuf := [cmd] |})
    /\ (forall x, x ∉ before -> chans w' !! x = chans w !! x)
    /\ (Z.of_nat (length before) <= activeListeners c <= maxInt32 ->
        activeListeners c' = activeListeners c - Z.of_nat (length before)).
Proof.
  intros Hwf Hop Hls Hopen Hclosed.
  destruct (wellFormed_entry c w h op Hwf Hop) as (_ & Hnd & Hvac).
  rewrite Hls in Hnd, Hvac.
  apply NoDup_app in Hnd as (Hndb & Hdisj & _).
  apply Forall_app in Hvac as [Hvb Hvr%Forall_cons_1]. destruct Hvr as [Hvr _].
  assert (r ∉ before) as Hr by (intros Hin; apply (Hdisj r Hin); by left).
  set (c1 := withStorage (delete h (storage c)) c).
  pose proof (deliver_spec cmd before c1 w Hndb Hvb) as Hd.
  pose proof (deliver_frame cmd before c1 w) as Hf.
  pose proof (deliver_counts cmd before c1 w Hndb Hvb Hopen) as Hn.
  simpl in Hd, Hf, Hn. destruct Hd as (_ & Hframe & Hsent).
  destruct (Hsent Hopen) as [(cb & wb & Hret) Hgot].
  rewrite Hret in *. simpl in *. destruct Hf as (Hst & _ & _ & Htr & _).
  assert (chanSend r cmd wb = SendPanic) as Hsend.
  { destruct (chanSend_vacant r cmd wb) as [[Ho _]|[_ ?]]; [|exfalso|done].
    - rewrite (vacant_ext w wb); [done|by apply Hframe].
    - rewrite (isOpen_ext w wb) in Ho; [congruence|by apply Hframe]. }
  exists cb, (logError (Recovered "send on closed channel") wb).
  split.
  { unfold sendResult. rewrite Hop, Hls, deliver_app. fold c1.
    rewrite Hret. simpl. by rewrite Hsend. }
  split; [done|]. split; [simpl; by rewrite Htr|].
  split; [done|]. split; [done|]. exact Hn.
Qed.

Lemma closed_handle_cuts_delivery_witness :
  exists c' w',
    sendResult (hashStringSlice HDel ["key3"]%string)
      (newCmd IntCmd (CallHDel "key3" []) 0)
      (cacheOf closedHandleBefore) (worldOf closedHandleBefore)
    = Returned c' w'
    /\ chans w' !! 1%nat = chans (worldOf closedHandleBefore) !! 1%nat.
Proof.
  destruct (closed_handle_cuts_delivery (hashStringSlice HDel ["key3"]%string)
              (newCmd IntCmd (CallHDel "key3" []) 0)
              (cacheOf closedHandleBefore) (worldOf closedHandleBefore)
              {| args := ["key3"]%string; listeners := [0; 1]%nat; kind := HDel |}
              [] [1%nat] 0%nat)
    as (c' & w' & Hrun & _ & _ & _ & Hframe & _).
  - apply (bool_decide_unpack (wellFormed _ _)). vm_compute. exact I.
  - vm_compute. reflexivity.
  - reflexivity.
  - constructor.
  - vm_compute. reflexivity.
  - exists c', w'. split; [exact Hrun|]. apply Hframe. apply not_elem_of_nil.
Defined.

(** ** hash.go: what the buffer determines *)

Lemma string_app_nil_r (s : string) : s +:+ EmptyString = s.
Proof. induction s as [|ch s IH]; [done|]. by rewrite string_app_cons, IH. Qed.

Lemma hashBuffer_joined (operation : operationPrefix) (a : list string) :
  hashBuffer operation a
  = String (asciiOfByte (byteOfOperation operation))
      (foldr (fun s acc => s +:+ hashDelimiter +:+ acc) EmptyString a).
Proof.
  unfold hashBuffer. generalize (asciiOfByte (byteOfOperation operation)).
  intros kb.
  change (String kb (foldr (fun s acc => s +:+ hashDelimiter +:+ acc) EmptyString a))
    with (String kb EmptyString
            +:+ foldr (fun s acc => s +:+ hashDelimiter +:+ acc) EmptyString a).
  generalize (String kb EmptyString) as buffer.
  induction a as [|s a IH]; intros buffer; simpl.
  - by rewrite string_app_nil_r.
  - rewrite IH. by rewrite !string_app_assoc.
Qed.

Lemma string_app_nil_l (s : string) : EmptyString +:+ s = s.
Proof. reflexivity. Qed.

Lemma delimited_inj (s1 s2 r1 r2 : string) :
  hasDelimiter s1 = false -> hasDelimiter s2 = false ->
  s1 +:+ hashDelimiter +:+ r1 = s2 +:+ hashDelimiter +:+ r2 ->
  s1 = s2 /\ r1 = r2.
Proof.
  unfold hashDelimiter.
  revert s2. induction s1 as [|ch s1 IH]; intros [|ch2 s2] H1 H2 Heq;
    simpl in H1, H2;
    repeat (rewrite string_app_cons in Heq || rewrite string_app_nil_l in Heq).
  - by injection Heq as ->.
  - injection Heq as <- _. by rewrite bool_decide_eq_true_2 in H2.
  - injection Heq as -> _. by rewrite bool_decide_eq_true_2 in H1.
  - injection Heq as <- Heq.
    apply orb_false_iff in H1 as [_ H1]. apply orb_false_iff in H2 as [_ H2].
    destruct (IH s2 H1 H2 Heq) as [-> ->]. done.
Qed.

(** X7: when no argument holds the delimiter, the bytes [hashStringSlice]
    hashes determine the kind and the arguments: two calls hash the same
    bytes only if they are the same call. *)
Theorem hashBuffer_injective (k1 k2 : operationPrefix) (a1 a2 : list string) :
  Forall (fun s => hasDelimiter s = false) a1 ->
  Forall (fun s => hasDelimiter s = false) a2 ->
  hashBuffer k1 a1 = hashBuffer k2 a2 ->
  k1 = k2 /\ a1 = a2.
Proof.
  intros H1 H2 Heq. split; [by eapply hashBuffer_kind|].
  rewrite !hashBuffer_joined in Heq. injection Heq as _ Heq.
  revert a2 H2 Heq. induction H1 as [|s1 a1 Hs1 _ IH]; intros a2 H2 Heq.
  - destruct H2 as [|s2 a2 _ _]; [done|]. simpl in Heq.
    unfold hashDelimiter in Heq.
    destruct s2;
      repeat (rewrite string_app_cons in Heq || rewrite string_app_nil_l in Heq);
      discriminate.
  - destruct H2 as [|s2 a2 Hs2 H2]; simpl in Heq.
    { unfold hashDelimiter in Heq.
      destruct s1;
        repeat (rewrite string_app_cons in Heq || rewrite string_app_nil_l in Heq);
        discriminate. }
    destruct (delimited_inj _ _ _ _ Hs1 Hs2 Heq) as [-> Hrest].
    f_equal. by apply IH.
Qed.

Lemma hashBuffer_injective_witness :
  hashBuffer HDel ["key"; "f1"]%string <> hashBuffer HDel ["key"; "f2"]%string.
Proof.
  intros Heq.
  destruct (hashBuffer_injective HDel HDel ["key"; "f1"]%string
              ["key"; "f2"]%string) as [_ Ha].
  - repeat constructor.
  - repeat constructor.
  - exact Heq.
  - discriminate.
Defined.

(** ** client.go: the size the cache is made with *)

Lemma int32_wraps (x : Z) : 2 ^ 31 <= x < 2 ^ 32 -> int32 x = x - 2 ^ 32.
Proof.
  intros Hx. unfold int32, wrapSigned.
  rewrite <- (Z.mod_unique (x + 2 ^ (32 - 1)) (2 ^ 32) 1 (x + 2 ^ 31 - 2 ^ 32));
    lia.
Qed.

(** X8: the last [WithMaxSize] option decides the threshold of the cache.
    A size up to the largest [int32] is the threshold, and the size trigger
    fires above it.  A size from 2^31 up to 2^32 - 1 becomes a negative
    threshold: the size trigger then fires, and the pipeline runs, at every
    turn of the loop, listeners or not. *)
Theorem max_size_option (options : list autopipelineOption) (size now : Z) :
  exists c,
    NewAutoPipeline true (options ++ [WithMaxSize size]) now = inr c
    /\ storage c = ∅ /\ activeListeners c = 0 /\ done c = false
    /\ (0 <= size <= maxInt32 -> storageThresholdSize c = size)
    /\ (2 ^ 31 <= size < 2 ^ 32 ->
        storageThresholdSize c = size - 2 ^ 32
        /\ forall t c' w,
             storageThresholdSize c' = storageThresholdSize c ->
             0 <= activeListeners c' ->
             runDefault t c' w = runPipeline (answer t) (clockAfter t) c' w).
Proof.
  set (cnf := foldl applyOption
                {| ttl := defaultCacheTTL; maxSize := defaultCacheSize;
                   cnfRunInterval := defaultRunInterval |} options).
  exists (newCache now (ttl cnf) (cnfRunInterval cnf) size).
  split; [unfold NewAutoPipeline; by rewrite foldl_app|].
  split; [done|]. split; [done|]. split; [done|].
  change (storageThresholdSize (newCache now (ttl cnf) (cnfRunInterval cnf) size))
    with (int32 size).
  split.
  - intros Hs. apply int32_small. unfold maxInt32 in *. lia.
  - intros Hs. rewrite int32_wraps by done. split; [done|].
    intros t c' w Hthr Hn. unfold runDefault, sizeTrigger. rewrite Hthr.
    by replace (_ <? _) with true by lia.
Qed.

Lemma max_size_option_witness :
  exists c,
    NewAutoPipeline true [WithCacheTTL 500000; WithMaxSize 2147483648] 0 = inr c
    /\ storageThresholdSize c = -2147483648.
Proof.
  destruct (max_size_option [WithCacheTTL 500000] 2147483648 0)
    as (c & Hc & _ & _ & _ & _ & Hbig).
  exists c. split; [exact Hc|].
  destruct Hbig as [Hthr _]; [vm_compute; split; [discriminate|reflexivity]|].
  rewrite Hthr. reflexivity.
Defined.

(** ** enqueue: calls of one fingerprint *)

Lemma enqueue_new (k : operationPrefix) (a : list string) (c : cache) (w : world) :
  done c = false -> storage c !! hashStringSlice k a = None ->
  enqueue k a c w
  = (length (chans w),
     addActiveListeners 1
       (withStorage
          (<[hashStringSlice k a :=
               {| args := a; listeners := [length (chans w)]; kind := k |}]>
             (storage c)) c),
     withChans (chans w ++ [{| chClosed := false; chBuf := [] |}]) w).
Proof. intros Hdone Hh. unfold enqueue. simpl. by rewrite Hdone, Hh. Qed.

Lemma enqueue_join (k : operationPrefix) (a : list string) (c : cache) (w : world)
    (o : redisOperation) :
  done c = false -> storage c !! hashStringSlice k a = Some o ->
  enqueue k a c w
  = (length (chans w),
     addActiveListeners 1
       (withStorage
          (<[hashStringSlice k a :=
               withListeners (listeners o ++ [length (chans w)]) o]>
             (storage c)) c),
     withChans (chans w ++ [{| chClosed := false; chBuf := [] |}]) w).
Proof. intros Hdone Hh. unfold enqueue. simpl. by rewrite Hdone, Hh. Qed.

Lemma enqueueTimes_join (n : nat) (k : operationPrefix) (a : list string)
    (c : cache) (w : world) (o : redisOperation) :
  done c = false -> storage c !! hashStringSlice k a = Some o ->
  let out := enqueueTimes n k a c w in
  storage out.1
  = <[hashStringSlice k a :=
        withListeners (listeners o ++ seq (length (chans w)) n) o]> (storage c)
  /\ chans out.2
     = chans w ++ replicate n {| chClosed := false; chBuf := [] |}
  /\ trace out.2 = trace w
  /\ (- 2 ^ 31 <= activeListeners c ->
      activeListeners c + Z.of_nat n <= maxInt32 ->
      activeListeners out.1 = activeListeners c + Z.of_nat n).
Proof.
  revert c w o. induction n as [|n IH]; intros c w o Hdone Ho; simpl.
  - rewrite !app_nil_r. split; [|split; [done|split; [done|intros; lia]]].
    symmetry. apply insert_id. rewrite Ho. by destruct o.
  - rewrite (enqueue_join k a c w o Hdone Ho).
    set (o1 := withListeners (listeners o ++ [length (chans w)]) o).
    set (c1 := addActiveListeners 1 _). set (w1 := withChans _ w).
    destruct (IH c1 w1 o1) as (Hst & Hch & Htr & Hn); [done|..].
    { simpl. apply lookup_insert_eq. }
    split; [|split; [|split; [done|]]].
    + rewrite Hst. simpl. rewrite insert_insert_eq. f_equal.
      unfold withListeners. simpl. f_equal.
      rewrite <- app_assoc, length_app. simpl.
      by rewrite Nat.add_1_r.
    + rewrite Hch. simpl. by rewrite <- app_assoc.
    + intros Hlo Hhi. rewrite Hn; simpl.
      * rewrite int32_small; unfold maxInt32 in *; lia.
      * rewrite int32_small; unfold maxInt32 in *; lia.
      * rewrite int32_small; unfold maxInt32 in *; lia.
Qed.

(** X9: calls of [enqueue] for one kind and one list of arguments, on a
    running cache whose table has no entry for their fingerprint, make one
    entry: its listeners are the handles of the calls, in the order of the
    calls, and the table has one entry more however many calls there
    are.  Every call makes one channel, and the counter, short of the
    largest [int32], goes up by the number of calls. *)
Theorem enqueue_coalesces (n : nat) (k : operationPrefix) (a : list string)
    (c : cache) (w : world) :
  done c = false -> storage c !! hashStringSlice k a = None ->
  let out := enqueueTimes (S n) k a c w in
  storage out.1
  = <[hashStringSlice k a :=
        {| args := a; listeners := seq (length (chans w)) (S n); kind := k |}]>
      (storage c)
  /\ size (storage out.1) = S (size (storage c))
  /\ length (chans out.2) = (length (chans w) + S n)%nat
  /\ (- 2 ^ 31 <= activeListeners c ->
      activeListeners c + Z.of_nat (S n) <= maxInt32 ->
      activeListeners out.1 = activeListeners c + Z.of_nat (S n)).
Proof.
  intros Hdone Hh. simpl. rewrite (enqueue_new k a c w Hdone Hh).
  set (o1 := {| args := a; listeners := [length (chans w)]; kind := k |}).
  set (c1 := addActiveListeners 1 _). set (w1 := withChans _ w).
  destruct (enqueueTimes_join n k a c1 w1 o1) as (Hst & Hch & _ & Hn);
    [done|simpl; apply lookup_insert_eq|].
  assert (storage (enqueueTimes n k a c1 w1).1
          = <[hashStringSlice k a :=
                {| args := a; listeners := seq (length (chans w)) (S n);
                   kind := k |}]> (storage c)) as Hst'.
  { rewrite Hst. simpl. rewrite insert_insert_eq. f_equal.
    unfold withListeners. simpl. f_equal. rewrite length_app. simpl.
    by rewrite Nat.add_1_r. }
  split; [done|]. split; [|split].
  - rewrite Hst'. by apply map_size_insert_None.
  - rewrite Hch. simpl. rewrite !length_app, length_replicate. simpl. lia.
  - intros Hlo Hhi. rewrite Hn; simpl.
    + rewrite int32_small; unfold maxInt32 in *; lia.
    + rewrite int32_small; unfold maxInt32 in *; lia.
    + rewrite int32_small; unfold maxInt32 in *; lia.
Qed.

Lemma enqueue_coalesces_witness :
  let out := enqueueTimes 3 HDel ["key3"]%string
               (newCache 0 5000000 defaultRunInterval 1) emptyWorld in
  size (storage out.1) = 1%nat /\ activeListeners out.1 = 3.
Proof.
  intros out.
  destruct (enqueue_coalesces 2 HDel ["key3"]%string
              (newCache 0 5000000 defaultRunInterval 1) emptyWorld)
    as (_ & Hsize & _ & Hn); [reflexivity|reflexivity|].
  split; [exact Hsize|]. apply Hn; vm_compute; discriminate.
Defined.

(** ** client.go: the synchronous calls *)

Lemma toCall_resultType (op : redisOperation) (ty : cmdType) (call : redisCall) :
  toCall op = Some (ty, call) -> ty = resultType (kind op).
Proof.
  unfold toCall. destruct (kind op); simpl;
    repeat (match goal with
            | |- context [normalizeHDel ?a] => destruct (normalizeHDel a) as [[??]|]
            | |- context [normalizeHGet ?a] => destruct (normalizeHGet a) as [[??]|]
            | |- context [normalizeExpire ?a] => destruct (normalizeExpire a) as [[??]|]
            | |- context [normalizeGet ?a] => destruct (normalizeGet a)
            | |- context [normalizeHGetAll ?a] => destruct (normalizeHGetAll a)
            | |- context [normalizeSMembers ?a] => destruct (normalizeSMembers a)
            end; simpl); by intros [= <- _].
Qed.

(** X10: a synchronous call on a running cache, with arguments made for
    its kind and a fingerprint the table has no entry for, followed by a
    flush whose round-trip does not fail: the flush returns, the read of
    the handle yields the command of the call, queued at some position of
    the pipeline and holding the answer at that position; the command has
    the type the call asserts, and the handle ends closed and empty. *)
Theorem sync_served (k : operationPrefix) (a : list string) (c : cache)
    (w : world) (rt : roundTrip) (now : Z) :
  wellFormed c w -> done c = false ->
  stepOk (DoEnqueue k a) ->
  storage c !! hashStringSlice k a = None ->
  rtErr rt ≫= execMessage = None ->
  let '(resCh, c1, w1) := enqueue k a c w in
  exists p c2 w2 w3 call slot,
    gather (map_to_list (storage c1)) emptyPipeline = Some p
    /\ runPipeline rt now c1 w1 = Returned c2 w2
    /\ toCall {| args := a; listeners := []; kind := k |}
       = Some (resultType k, call)
    /\ pipe p !! slot = Some call
    /\ receive k resCh w2
       = SyncCmd {| cmdKind := resultType k; cmdCall := call; cmdSlot := slot;
                    cmdVal := rtReplies rt !! slot |} w3
    /\ chans w3 !! resCh = Some {| chClosed := true; chBuf := [] |}.
Proof.
  intros Hwf Hdone Hok Hh Hrt.
  pose proof (wellFormed_enqueue k a c w Hwf Hok) as Hwf1.
  rewrite (enqueue_new k a c w Hdone Hh) in *. simpl in Hwf1.
  set (resCh := length (chans w)) in *.
  set (op := {| args := a; listeners := [resCh]; kind := k |}) in *.
  set (c1 := addActiveListeners 1 _) in *. set (w1 := withChans _ w) in *.
  destruct (runPipeline_spec rt now c1 w1 Hwf1 Hrt)
    as (p & c2 & w2 & Hg & Hrun & _ & _ & _ & _ & _ & _ & Hentries).
  assert ((hashStringSlice k a, op) ∈ map_to_list (storage c1)) as He.
  { apply elem_of_map_to_list. simpl. apply lookup_insert_eq. }
  apply list_elem_of_lookup in He as [slot Hslot].
  destruct (Hentries slot _ op Hslot) as (ty & call & Hcall & Hpipe & Hsent).
  pose proof (toCall_resultType op ty call Hcall) as ->. simpl in *.
  assert (chans w2 !! resCh
          = Some {| chClosed := false;
                    chBuf := [populate (rtReplies rt)
                                (newCmd (resultType k) call slot)] |}) as Hch.
  { apply Hsent; [|by left]. repeat constructor.
    unfold isOpen, w1, resCh. simpl. by rewrite list_lookup_middle. }
  exists p, c2, w2,
    (closeChan resCh
       (withChans (<[resCh := {| chClosed := false; chBuf := [] |}]> (chans w2)) w2)),
    call, slot.
  split; [done|]. split; [done|]. split; [done|]. split; [done|]. split.
  - unfold receive, chanRecv. rewrite Hch. simpl.
    by rewrite decide_True by done.
  - unfold closeChan. simpl.
    assert (resCh < length (chans w2))%nat as Hlt by (by eapply lookup_lt_Some).
    rewrite list_lookup_insert_eq by done. simpl.
    rewrite list_lookup_insert_eq; [done|]. by rewrite length_insert.
Qed.

Lemma sync_served_witness :
  let c := newCache 0 defaultCacheTTL defaultRunInterval defaultCacheSize in
  let rt := {| rtErr := None; rtReplies := [ReplyString "john"] |} in
  let '(resCh, c1, w1) := enqueue HGet ["key"; "name"]%string c emptyWorld in
  exists res w3,
    receive HGet resCh (worldOf (runPipeline rt 5000000 c1 w1)) = SyncCmd res w3
    /\ cmdCall res = CallHGet "key" "name".
Proof.
  intros c rt.
  pose proof (sync_served HGet ["key"; "name"]%string c emptyWorld rt 5000000) as H.
  destruct (enqueue HGet ["key"; "name"]%string c emptyWorld) as [[resCh c1] w1].
  destruct H as (p & c2 & w2 & w3 & call & slot & _ & Hrun & Hcall & _ & Hrecv & _).
  - apply wellFormed_newCache.
  - reflexivity.
  - by eexists.
  - reflexivity.
  - reflexivity.
  - eexists _, w3. rewrite Hrun. split; [exact Hrecv|].
    injection Hcall as <-. reflexivity.
Defined.

(** ** run: after the context is done *)

(** X11: once a turn of the loop has seen the context done, the loop has
    ended with the cache stopped: whatever turns would follow are not
    taken, at most one more pipeline has run, and from then on the
    synchronous call of any kind returns, without waiting, a command with
    [ErrChannelClosed], the cache being left as it is. *)
Theorem stopped_for_good (t : turn) (ts : list turn) (c : cache) (w : world) :
  cancelled t = true ->
  let out := run (t :: ts) c w in
  out = runDone t c w
  /\ (flushes (worldOf out) <= S (flushes w))%nat
  /\ forall k a w',
       let '(resCh, c', w'') := enqueue k a (cacheOf out) w' in
       c' = cacheOf out /\ receive k resCh w'' = SyncErr ErrChannelClosed.
Proof.
  intros Hc out.
  destruct (run_cancelled t ts c w Hc) as (Hrun & Hdone & Hfl).
  split; [done|]. split; [done|]. intros k a w'.
  unfold enqueue. simpl. fold out in Hdone. rewrite Hdone. split; [done|].
  pose proof (closeChan_fresh (logError ErrCacheStopped w')
                {| chClosed := false; chBuf := [] |}) as Hch.
  unfold receive, chanRecv.
  unfold logError, emit, withChans in *. simpl in *. rewrite Hch.
  by rewrite list_lookup_middle.
Qed.

Lemma stopped_for_good_witness :
  let t := {| cancelled := true; clock := 100;
              answer := {| rtErr := None; rtReplies := [] |};
              clockAfter := 100 |} in
  let out := run [t] (newCache 0 500000 1 200) emptyWorld in
  let '(resCh, c', w'') := enqueue HDel ["key2"]%string (cacheOf out) (worldOf out) in
  receive HDel resCh w'' = SyncErr ErrChannelClosed.
Proof.
  intros t out.
  destruct (stopped_for_good t [] (newCache 0 500000 1 200) emptyWorld eq_refl)
    as (_ & _ & H).
  specialize (H HDel ["key2"]%string (worldOf out)). fold out in H.
  destruct (enqueue HDel ["key2"]%string (cacheOf out) (worldOf out))
    as [[resCh c'] w''].
  exact (proj2 H).
Defined.

(** * Callers at work while the pipeline runs *)

(** ** Steps of callers *)

Lemma int32_add_l (x y : Z) : int32 (int32 x + y) = int32 (x + y).
Proof.
  unfold int32, wrapSigned. f_equal.
  replace ((x + 2 ^ (32 - 1)) mod 2 ^ 32 - 2 ^ (32 - 1) + y + 2 ^ (32 - 1))
    with ((x + 2 ^ (32 - 1)) mod 2 ^ 32 + y) by lia.
  rewrite Zplus_mod_idemp_l. f_equal. lia.
Qed.

Lemma enqueue_register (k : operationPrefix) (a : list string)
    (c : cache) (w : world) :
  done c = false -> enqueue k a c w = register k a c w.
Proof. intros Hdone. unfold enqueue, register. simpl. by rewrite Hdone. Qed.

(** A registration makes a channel and puts it into the entry of its
    fingerprint, which it makes if there is none. *)
Lemma register_eq (k : operationPrefix) (a : list string) (c : cache) (w : world) :
  register k a c w
  = (length (chans w),
     addActiveListeners 1
       (withStorage
          (<[hashStringSlice k a :=
               match storage c !! hashStringSlice k a with
               | Some o => withListeners (listeners o ++ [length (chans w)]) o
               | None => {| args := a; listeners := [length (chans w)]; kind := k |}
               end]> (storage c)) c),
     withChans (chans w ++ [{| chClosed := false; chBuf := [] |}]) w).
Proof. unfold register. simpl. by destruct (storage c !! _). Qed.

Lemma register_storage (k : operationPrefix) (a : list string)
    (c : cache) (w : world) :
  storage (register k a c w).1.2
  = <[hashStringSlice k a :=
        match storage c !! hashStringSlice k a with
        | Some o => withListeners (listeners o ++ [length (chans w)]) o
        | None => {| args := a; listeners := [length (chans w)]; kind := k |}
        end]> (storage c).
Proof. by rewrite register_eq. Qed.

Lemma register_world (k : operationPrefix) (a : list string)
    (c : cache) (w : world) :
  (register k a c w).2
  = withChans (chans w ++ [{| chClosed := false; chBuf := [] |}]) w.
Proof. by rewrite register_eq. Qed.

Lemma register_cache (k : operationPrefix) (a : list string)
    (c : cache) (w : world) :
  activeListeners (register k a c w).1.2 = int32 (activeListeners c + 1)
  /\ lastPipeline (register k a c w).1.2 = lastPipeline c.
Proof. by rewrite register_eq. Qed.

Lemma allListeners_register (k : operationPrefix) (a : list string)
    (c : cache) (w : world) :
  allListeners (register k a c w).1.2 ≡ₚ length (chans w) :: allListeners c.
Proof.
  rewrite register_eq. simpl.
  destruct (storage c !! hashStringSlice k a) as [o|] eqn:Hh.
  - set (h := hashStringSlice k a) in *.
    set (cd := withStorage (delete h (storage c)) c).
    rewrite (allListeners_delete c cd h o Hh eq_refl).
    rewrite (allListeners_insert cd _ h
               (withListeners (listeners o ++ [length (chans w)]) o)).
    + simpl. rewrite <- app_assoc. simpl. symmetry. apply Permutation_middle.
    + apply lookup_delete_eq.
    + simpl. by rewrite insert_delete_eq.
  - by rewrite (allListeners_insert c _ (hashStringSlice k a)
                  {| args := a; listeners := [length (chans w)]; kind := k |}).
Qed.

Lemma recoveries_emit (e : event) (w : world) :
  ~ isRecovered e -> recoveries (emit e w) = recoveries w.
Proof. unfold recoveries. simpl. by destruct e as [| |[]]. Qed.

(** A change of the world that makes channels, keeps empty the buffers that
    were, and logs no recovered panic keeps what holds in a flush. *)
Lemma inFlush_world (n : nat) (old : string -> Prop) (r0 : option nat) (lp : Z)
    (k : nat) (ls : list nat) (c : cache) (w w' : world) :
  (length (chans w) <= length (chans w'))%nat ->
  (forall r, vacant w r = true -> vacant w' r = true) ->
  recoveries w' = recoveries w ->
  inFlush n old r0 lp k ls c w -> inFlush n old r0 lp k ls c w'.
Proof.
  intros Hlen Hvac Hrec ((Hcalls & Hnd & Hv) & Hn & Hlate & Hlp & Hcnt).
  split; [split; [done|split; [done|]]|].
  - eapply Forall_impl; [exact Hv|]. intros r. apply Hvac.
  - rewrite Hrec. repeat split; [lia|done|done|by apply Hcnt..].
Qed.

Lemma inFlush_weaken (n n' : nat) (old old' : string -> Prop) (r0 : option nat)
    (lp : Z) (k : nat) (ls : list nat) (c : cache) (w : world) :
  (n' <= n)%nat -> (forall h, old h -> old' h) ->
  inFlush n old r0 lp k ls c w -> inFlush n' old' r0 lp k ls c w.
Proof.
  intros Hn Hold (Hwf & Hlen & Hlate & Hlp & Hcnt).
  split; [done|]. split; [lia|]. split; [|done].
  intros h op Hop. destruct (Hlate h op Hop) as [?|Hall]; [by left; auto|].
  right. eapply Forall_impl; [exact Hall|]. simpl. lia.
Qed.

Lemma vacant_closeChan (r r' : nat) (w : world) :
  vacant (closeChan r w) r' = vacant w r'.
Proof.
  unfold closeChan, vacant.
  destruct (chans w !! r) as [ch|] eqn:Hr; [|done]. simpl.
  destruct (decide (r' = r)) as [->|Hne].
  - rewrite list_lookup_insert_eq by (by apply lookup_lt_Some in Hr).
    by rewrite Hr.
  - by rewrite list_lookup_insert_ne.
Qed.

Lemma length_closeChan (r : nat) (w : world) :
  length (chans (closeChan r w)) = length (chans w).
Proof.
  unfold closeChan. destruct (chans w !! r); [|done]. simpl.
  by rewrite length_insert.
Qed.

Lemma recoveries_closeChan (r : nat) (w : world) :
  recoveries (closeChan r w) = recoveries w.
Proof. unfold recoveries, closeChan. by destruct (chans w !! r). Qed.

Lemma vacant_app (w w' : world) (cs : list channel) (r : nat) :
  chans w' = chans w ++ cs -> vacant w r = true -> vacant w' r = true.
Proof.
  intros Hw Hv. rewrite <- Hv. apply vacant_ext. rewrite Hw.
  apply lookup_app_l. by apply vacant_lt.
Qed.

(** A registration keeps what holds in a flush. *)
Lemma inFlush_register (n : nat) (old : string -> Prop) (r0 : option nat) (lp : Z)
    (k : nat) (ls : list nat) (kd : operationPrefix) (a : list string)
    (c : cache) (w : world) :
  is_Some (toCall {| args := a; listeners := []; kind := kd |}) ->
  inFlush n old r0 lp k ls c w ->
  inFlush n old r0 lp k ls (register kd a c w).1.2 (register kd a c w).2.
Proof.
  intros Hcall ((Hcalls & Hnd & Hvac) & Hn & Hlate & Hlp & Hcnt).
  pose proof (allListeners_register kd a c w) as Hperm.
  assert (forall r, r ∈ ls ++ allListeners c -> (r < length (chans w))%nat) as Hlt.
  { rewrite Forall_forall in Hvac. intros r Hr. by apply vacant_lt, Hvac. }
  assert (length (allListeners (register kd a c w).1.2)
          = S (length (allListeners c))) as Hlen by (by rewrite Hperm).
  assert (ls ++ allListeners (register kd a c w).1.2
          ≡ₚ length (chans w) :: ls ++ allListeners c) as Hperm'.
  { rewrite Hperm. symmetry. apply Permutation_middle. }
  destruct (register_cache kd a c w) as [Hact Hlast].
  pose proof (register_storage kd a c w) as Hst.
  rewrite register_world.
  set (h := hashStringSlice kd a) in *.
  split; [split; [|split]|split; [|split; [|split]]].
  - rewrite Hst. rewrite Forall_forall in Hcalls |- *.
    intros [h' o'] [[<- <-]|[Hne Ho']]%elem_of_map_to_list%lookup_insert_Some.
    + destruct (storage c !! h) as [o|] eqn:Hh; [|done].
      change (is_Some (toCall o)). apply (Hcalls (h, o)).
      by apply elem_of_map_to_list.
    + apply (Hcalls (h', o')). by apply elem_of_map_to_list.
  - rewrite Hperm'. apply NoDup_cons. split; [|done].
    intros Hin. apply Hlt in Hin. lia.
  - rewrite Hperm'. apply Forall_cons. split.
    + unfold vacant. simpl. by rewrite list_lookup_middle.
    + eapply Forall_impl; [exact Hvac|]. intros r.
      by apply (vacant_app w _ [{| chClosed := false; chBuf := [] |}]).
  - simpl. rewrite length_app. lia.
  - intros h' o'. rewrite Hst.
    intros [[<- <-]|[Hne Ho']]%lookup_insert_Some; [|by eapply Hlate].
    destruct (storage c !! h) as [o|] eqn:Hh.
    + destruct (Hlate h o Hh) as [?|Hall]; [by left|]. right. simpl.
      apply Forall_app. split; [done|]. by repeat constructor.
    + right. by repeat constructor.
  - by rewrite Hlast.
  - intros r Hr. destruct (Hcnt r Hr) as [Hle Hc]. split; [done|].
    intros Heq. unfold counts in *. rewrite Hact, Hlen, (Hc Heq), int32_add_l.
    f_equal. lia.
Qed.

(** A step of a caller keeps what holds in a flush. *)
Lemma callerStep_inFlush (n : nat) (old : string -> Prop) (r0 : option nat)
    (lp : Z) (k : nat) (ls : list nat) (s : step) (c c' : cache) (w w' : world) :
  stepOk s -> callerStep s c w = Some (c', w') ->
  inFlush n old r0 lp k ls c w -> inFlush n old r0 lp k ls c' w'.
Proof.
  intros Hs Hstep Hin. destruct s as [kd a|kd a|r|r|t]; simpl in Hstep.
  - destruct (done c) eqn:Hdone.
    + unfold enqueue in Hstep. simpl in Hstep. rewrite Hdone in Hstep.
      injection Hstep as <- <-.
      pose proof (closeChan_fresh (logError ErrCacheStopped w)
                    {| chClosed := false; chBuf := [] |}) as Hc.
      apply (inFlush_world n old r0 lp k ls c w); [| | |done].
      * unfold logError, emit, withChans in *. simpl in *.
        rewrite Hc, length_app. lia.
      * intros r'. apply (vacant_app w _ [{| chClosed := true; chBuf := [] |}]).
        unfold logError, emit, withChans in *. simpl in *. by rewrite Hc.
      * by rewrite recoveries_closeChan.
    + rewrite (enqueue_register kd a c w Hdone) in Hstep.
      pose proof (inFlush_register n old r0 lp k ls kd a c w Hs Hin) as H.
      destruct (register kd a c w) as [[r c1] w1]. by injection Hstep as <- <-.
  - pose proof (inFlush_register n old r0 lp k ls kd a c w Hs Hin) as H.
    destruct (register kd a c w) as [[r c1] w1]. by injection Hstep as <- <-.
  - destruct (chans w !! r) as [ch|] eqn:Hr; [|done].
    destruct (chClosed ch); [done|]. injection Hstep as <- <-.
    apply (inFlush_world n old r0 lp k ls c w); [| | |done].
    + by rewrite length_closeChan.
    + intros r'. by rewrite vacant_closeChan.
    + by rewrite recoveries_closeChan.
  - destruct (chanRecv r w) as [v w1| |] eqn:Hrecv; [| |done];
      injection Hstep as <- <-; [|done].
    unfold chanRecv in Hrecv. destruct (chans w !! r) as [ch|] eqn:Hch; [|done].
    destruct (chBuf ch) as [|v' rest] eqn:Hbuf; [by destruct (chClosed ch)|].
    injection Hrecv as _ <-.
    apply (inFlush_world n old r0 lp k ls c w); [| | |done].
    + simpl. by rewrite length_insert.
    + intros r' Hv. rewrite <- Hv. apply vacant_ext. simpl.
      apply list_lookup_insert_ne. intros ->.
      unfold vacant in Hv. by rewrite Hch, Hbuf in Hv.
    + done.
  - done.
Qed.

Lemma callerSteps_inFlush (n : nat) (old : string -> Prop) (r0 : option nat)
    (lp : Z) (k : nat) (ls : list nat) (ss : list step) (c c' : cache)
    (w w' : world) :
  Forall stepOk ss -> callerSteps ss c w = Some (c', w') ->
  inFlush n old r0 lp k ls c w -> inFlush n old r0 lp k ls c' w'.
Proof.
  intros Hss. revert c w. induction Hss as [|s ss Hs _ IH]; intros c w; simpl.
  - by intros [= <- <-].
  - destruct (callerStep s c w) as [[c1 w1]|] eqn:Hstep; [|done].
    intros Hrest Hin. apply (IH c1 w1 Hrest).
    by apply (callerStep_inFlush n old r0 lp k ls s c c1 w w1).
Qed.

Lemma yield_inFlush (n : nat) (old : string -> Prop) (r0 : option nat)
    (lp : Z) (k : nat) (ls : list nat) (ys ys' : yields) (c c' : cache)
    (w w' : world) :
  Forall (Forall stepOk) ys -> yield ys c w = Some (ys', c', w') ->
  inFlush n old r0 lp k ls c w ->
  Forall (Forall stepOk) ys' /\ inFlush n old r0 lp k ls c' w'.
Proof.
  intros Hys. destruct Hys as [|ss ys Hss Hys]; simpl.
  - by intros [= <- <- <-].
  - destruct (callerSteps ss c w) as [[c1 w1]|] eqn:Hsteps; [|done].
    intros [= <- <- <-] Hin. split; [done|].
    by apply (callerSteps_inFlush n old r0 lp k ls ss c c1 w w1).
Qed.

(** ** The flush, point by point *)

Lemma inFlush_recovered (n : nat) (old : string -> Prop) (r0 : option nat)
    (lp : Z) (k : nat) (ls : list nat) (c : cache) (w : world) (v : string) :
  inFlush n old r0 lp k ls c w ->
  inFlush n old r0 lp 0 [] c (logError (Recovered v) w).
Proof.
  intros ((Hcalls & Hnd & Hvac) & Hn & Hlate & Hlp & Hcnt).
  apply NoDup_app in Hnd as (_ & _ & Hnd). apply Forall_app in Hvac as [_ Hvac].
  split; [by repeat split|]. split; [done|]. split; [done|]. split; [done|].
  intros r Hr. destruct (Hcnt r Hr) as [Hle _].
  change (recoveries (logError (Recovered v) w)) with (S (recoveries w)).
  split; lia.
Qed.

Lemma inFlush_countDown (n : nat) (old : string -> Prop) (r0 : option nat)
    (lp : Z) (k : nat) (ls : list nat) (c : cache) (w : world) :
  inFlush n old r0 lp (S k) ls c w ->
  inFlush n old r0 lp k ls (addActiveListeners (-1) c) w.
Proof.
  intros (Hwf & Hn & Hlate & Hlp & Hcnt).
  split; [exact Hwf|]. split; [done|]. split; [exact Hlate|]. split; [exact Hlp|].
  intros r Hr. destruct (Hcnt r Hr) as [Hle Hc]. split; [done|].
  intros Heq. specialize (Hc Heq). unfold counts in *.
  change (activeListeners (addActiveListeners (-1) c))
    with (int32 (activeListeners c + -1)).
  change (allListeners (addActiveListeners (-1) c)) with (allListeners c).
  rewrite Hc, int32_add_l. f_equal. lia.
Qed.

Lemma inFlush_withLastPipeline (n : nat) (old : string -> Prop) (r0 : option nat)
    (lp lp' : Z) (k : nat) (ls : list nat) (c : cache) (w : world) :
  inFlush n old r0 lp k ls c w ->
  inFlush n old r0 lp' k ls (withLastPipeline lp' c) w.
Proof.
  intros (Hwf & Hn & Hlate & Hlp & Hcnt).
  split; [exact Hwf|]. split; [done|]. split; [exact Hlate|]. split; [done|].
  exact Hcnt.
Qed.

Lemma inFlush_withDone (n : nat) (old : string -> Prop) (r0 : option nat)
    (lp : Z) (k : nat) (ls : list nat) (b : bool) (c : cache) (w : world) :
  inFlush n old r0 lp k ls c w -> inFlush n old r0 lp k ls (withDone b c) w.
Proof.
  intros (Hwf & Hn & Hlate & Hlp & Hcnt).
  split; [exact Hwf|]. split; [done|]. split; [exact Hlate|]. split; [done|].
  exact Hcnt.
Qed.

(** The loop over the listeners, overtaken: it does not block; it returns
    with nothing left to send, or panics at a closed handle. *)
Lemma deliverWith_inFlush (n : nat) (old : string -> Prop) (r0 : option nat)
    (lp : Z) (cmd : redisCmd) (ls : list nat) :
  forall (ys : yields) (c : cache) (w : world) (ys' : yields) (out : outcome),
  Forall (Forall stepOk) ys ->
  inFlush n old r0 lp (length ls) ls c w ->
  deliverWith ys cmd ls c w = Some (ys', out) ->
  Forall (Forall stepOk) ys'
  /\ exists c' w',
       (out = Returned c' w' /\ inFlush n old r0 lp 0 [] c' w')
       \/ exists v k' ls',
            out = Panicked v c' w' /\ inFlush n old r0 lp k' ls' c' w'.
Proof.
  induction ls as [|r ls IH]; intros ys c w ys' out Hys Hin; simpl.
  - intros [= <- <-]. split; [done|]. exists c, w. by left.
  - pose proof Hin as ((Hcalls & Hnd & Hvac) & Hn & Hlate & Hlp & Hcnt).
    simpl in Hnd, Hvac. apply NoDup_cons in Hnd as [Hr Hnd].
    apply Forall_cons in Hvac as [Hvr Hvac].
    destruct (chanSend_vacant r cmd w Hvr) as [[Hopen ->]|[Hclosed ->]].
    + set (w1 := withChans _ w).
      assert (inFlush n old r0 lp (S (length ls)) ls c w1) as Hin1.
      { split; [split; [done|split; [done|]]|].
        - rewrite Forall_forall in Hvac |- *. intros r' Hr'.
          rewrite <- (Hvac r' Hr'). apply vacant_ext. simpl.
          apply list_lookup_insert_ne. by intros ->.
        - split; [simpl; by rewrite length_insert|]. done. }
      destruct (yield ys c w1) as [[[ys1 c1] w2]|] eqn:Hy1; [|done].
      destruct (yield_inFlush _ _ _ _ _ _ _ _ _ _ _ _ Hys Hy1 Hin1) as [Hys1 Hin2].
      apply inFlush_countDown in Hin2.
      destruct (yield ys1 (addActiveListeners (-1) c1) w2)
        as [[[ys2 c2] w3]|] eqn:Hy2; [|done].
      destruct (yield_inFlush _ _ _ _ _ _ _ _ _ _ _ _ Hys1 Hy2 Hin2) as [Hys2 Hin3].
      intros Hd. by apply (IH ys2 c2 w3 ys' out).
    + intros [= <- <-]. split; [done|]. exists c, w. right.
      by exists "send on closed channel"%string, (length (r :: ls)), (r :: ls).
Qed.

(** [sendResult], overtaken: it returns, and its fingerprint is sent
    for. *)
Lemma sendResultWith_inFlush (n : nat) (old : string -> Prop) (r0 : option nat)
    (lp : Z) (ys : yields) (h : string) (cmd : redisCmd) (c : cache) (w : world)
    (ys' : yields) (out : outcome) :
  Forall (Forall stepOk) ys ->
  inFlush n (fun h' => h' = h \/ old h') r0 lp 0 [] c w ->
  sendResultWith ys h cmd c w = Some (ys', out) ->
  Forall (Forall stepOk) ys'
  /\ exists c' w', out = Returned c' w' /\ inFlush n old r0 lp 0 [] c' w'.
Proof.
  intros Hys Hin. unfold sendResultWith.
  destruct (storage c !! h) as [o|] eqn:Hh.
  - set (c0 := withStorage (delete h (storage c)) c).
    assert (inFlush n old r0 lp (length (listeners o)) (listeners o) c0 w) as Hin0.
    { destruct Hin as ((Hcalls & Hnd & Hvac) & Hn & Hlate & Hlp & Hcnt).
      pose proof (allListeners_delete c c0 h o Hh eq_refl) as Hperm.
      simpl in Hnd, Hvac. rewrite Hperm in Hnd, Hvac.
      split; [split; [|done]|split; [done|split; [|split; [done|]]]].
      - rewrite Forall_forall in Hcalls |- *. intros [h' o'] He.
        apply elem_of_map_to_list in He.
        change (delete h (storage c) !! h' = Some o') in He.
        apply lookup_delete_Some in He as [_ He].
        apply (Hcalls (h', o')). by apply elem_of_map_to_list.
      - intros h' o' Ho'. change (delete h (storage c) !! h' = Some o') in Ho'.
        apply lookup_delete_Some in Ho' as [Hne Ho'].
        destruct (Hlate h' o' Ho') as [[->|?]|?]; [done|by left|by right].
      - intros r Hr. destruct (Hcnt r Hr) as [Hle Hc]. split; [done|].
        intros Heq. specialize (Hc Heq). unfold counts in *.
        change (activeListeners c0) with (activeListeners c).
        rewrite Hc. f_equal. rewrite Hperm, length_app. lia. }
    destruct (yield ys c0 w) as [[[ys1 c1] w1]|] eqn:Hy; [|done].
    destruct (yield_inFlush _ _ _ _ _ _ _ _ _ _ _ _ Hys Hy Hin0) as [Hys1 Hin1].
    destruct (deliverWith ys1 cmd (listeners o) c1 w1) as [[ys2 out2]|] eqn:Hd;
      [|done].
    destruct (deliverWith_inFlush _ _ _ _ _ _ _ _ _ _ _ Hys1 Hin1 Hd)
      as (Hys2 & c' & w' & [[-> Hin']|(v & k' & ls' & -> & Hin')]).
    + intros [= <- <-]. by eauto.
    + intros [= <- <-]. split; [done|]. eexists _, _. split; [done|].
      by eapply inFlush_recovered.
  - intros [= <- <-]. split; [done|].
    exists c, (logError (ErrHashNotFound h) w). split; [done|].
    apply (inFlush_world n old r0 lp 0 [] c w); [done|done|done|].
    destruct Hin as (Hwf & Hn & Hlate & Hrest).
    split; [done|]. split; [done|]. split; [|done].
    intros h' o' Ho'.
    destruct (Hlate h' o' Ho') as [[->|?]|?]; [congruence|by left|by right].
Qed.

(** The loops that send the results, overtaken: they return, and every
    fingerprint read from the table is sent for. *)
Lemma dispatchWith_inFlush (n : nat) (r0 : option nat) (lp : Z)
    (answers : list reply) (rs : list (string * redisCmd)) :
  forall (ys : yields) (c : cache) (w : world) (ys' : yields) (out : outcome),
  Forall (Forall stepOk) ys ->
  inFlush n (fun h => h ∈ rs.*1) r0 lp 0 [] c w ->
  dispatchWith ys answers rs c w = Some (ys', out) ->
  Forall (Forall stepOk) ys'
  /\ exists c' w',
       out = Returned c' w' /\ inFlush n (fun _ => False) r0 lp 0 [] c' w'.
Proof.
  induction rs as [|[h cmd] rs IH]; intros ys c w ys' out Hys Hin; simpl.
  - intros [= <- <-]. split; [done|]. exists c, w. split; [done|].
    eapply inFlush_weaken; [| |exact Hin]; [done|].
    intros h Hh. by apply elem_of_nil in Hh.
  - destruct (yield ys c w) as [[[ys1 c1] w1]|] eqn:Hy; [|done].
    destruct (yield_inFlush _ _ _ _ _ _ _ _ _ _ _ _ Hys Hy Hin) as [Hys1 Hin1].
    destruct (sendResultWith ys1 h (populate answers cmd) c1 w1)
      as [[ys2 out2]|] eqn:Hs; [|done].
    destruct (sendResultWith_inFlush n (fun h => h ∈ rs.*1) r0 lp ys1 h
                (populate answers cmd) c1 w1 ys2 out2 Hys1)
      as (Hys2 & c2 & w2 & -> & Hin2); [|done|].
    { eapply inFlush_weaken; [| |exact Hin1]; [done|].
      intros h' Hh'. rewrite fmap_cons in Hh'. by apply elem_of_cons in Hh'. }
    by apply IH.
Qed.

(** [runPipeline], overtaken, from a state no flush is under way in: it
    returns.  When the round-trip has failed the time of the last pipeline
    is as it was; when it has not, the time is the clock's and every
    fingerprint of the table holds only handles made since the flush
    began. *)
Lemma runPipelineWith_inFlush (r0 : option nat) (lp : Z) (ys : yields)
    (rt : roundTrip) (now : Z) (c : cache) (w : world)
    (ys' : yields) (out : outcome) :
  Forall (Forall stepOk) ys ->
  inFlush (length (chans w)) (fun _ => True) r0 lp 0 [] c w ->
  runPipelineWith ys rt now c w = Some (ys', out) ->
  Forall (Forall stepOk) ys'
  /\ exists c' w',
       out = Returned c' w'
       /\ match rtErr rt ≫= execMessage with
          | Some _ =>
              inFlush (length (chans w)) (fun _ => True) r0 lp 0 [] c' w'
          | None =>
              inFlush (length (chans w)) (fun _ => False) r0 (unixMicro now)
                0 [] c' w'
          end.
Proof.
  intros Hys Hin. unfold runPipelineWith.
  set (n := length (chans w)) in *.
  assert (inFlush n (fun _ => True) r0 lp 0 [] c (emit EvPipeline w)) as Hin0
    by (by apply (inFlush_world n _ r0 lp 0 [] c w)).
  destruct (yield ys c (emit EvPipeline w)) as [[[ys1 c1] w1]|] eqn:Hy1; [|done].
  destruct (yield_inFlush _ _ _ _ _ _ _ _ _ _ _ _ Hys Hy1 Hin0) as [Hys1 Hin1].
  pose proof Hin1 as ((Hcalls & _ & _) & _).
  destruct (gather_table c1 Hcalls) as (p & Hg & _ & Hres & _).
  rewrite Hg.
  assert (inFlush n (fun h => h ∈ (results p).*1) r0 lp 0 []
            c1 (emit (EvExec (pipe p)) w1)) as Hin2.
  { apply (inFlush_world n _ r0 lp 0 [] c1 w1); [done|done|done|].
    destruct Hin1 as (Hwf & Hn & _ & Hrest).
    split; [done|]. split; [done|]. split; [|done].
    intros h o Ho. left. apply (results_keys c1 p h Hcalls Hres). by exists o. }
  destruct (yield ys1 c1 (emit (EvExec (pipe p)) w1))
    as [[[ys2 c2] w2]|] eqn:Hy2; [|done].
  destruct (yield_inFlush _ _ _ _ _ _ _ _ _ _ _ _ Hys1 Hy2 Hin2) as [Hys2 Hin3].
  destruct (rtErr rt ≫= execMessage) as [msg|].
  - intros [= <- <-]. split; [done|].
    exists c2, (logError (ErrExec msg) w2). split; [done|].
    apply (inFlush_world n _ r0 lp 0 [] c2 w2); [done|done|done|].
    by eapply inFlush_weaken; [| |exact Hin3].
  - intros Hd.
    by apply (dispatchWith_inFlush n r0 (unixMicro now) (rtReplies rt) (results p)
                ys2 (withLastPipeline (unixMicro now) c2) w2 ys' out Hys2
                (inFlush_withLastPipeline _ _ _ _ _ _ _ _ _ Hin3)).
Qed.

(** ** Schedules with turns that are overtaken *)

(** What holds between two steps of a schedule. *)
Lemma inFlush_between (n : nat) (old : string -> Prop) (r0 : option nat)
    (lp : Z) (c : cache) (w : world) :
  inFlush n old r0 lp 0 [] c w ->
  inFlush (length (chans w)) (fun _ => True) r0 lp 0 [] c w.
Proof.
  intros (Hwf & Hn & Hlate & Hrest).
  split; [done|]. split; [done|]. split; [|done]. intros h op _. by left.
Qed.

Lemma runPipelineWith_between (r0 : option nat) (lp : Z) (ys : yields)
    (rt : roundTrip) (now : Z) (c : cache) (w : world)
    (ys' : yields) (out : outcome) :
  Forall (Forall stepOk) ys ->
  inFlush 0 (fun _ => True) r0 lp 0 [] c w ->
  runPipelineWith ys rt now c w = Some (ys', out) ->
  Forall (Forall stepOk) ys'
  /\ exists c' w' lp',
       out = Returned c' w' /\ inFlush 0 (fun _ => True) r0 lp' 0 [] c' w'.
Proof.
  intros Hys Hin Hrun. apply inFlush_between in Hin.
  destruct (runPipelineWith_inFlush r0 lp ys rt now c w ys' out Hys Hin Hrun)
    as (Hys' & c' & w' & -> & Hin').
  split; [done|]. exists c', w'.
  destruct (rtErr rt ≫= execMessage).
  - exists lp. split; [done|].
    eapply inFlush_weaken; [| |exact Hin']; [lia|done].
  - exists (unixMicro now). split; [done|].
    eapply inFlush_weaken; [| |exact Hin']; [lia|done].
Qed.

Lemma turnWith_between (r0 : option nat) (lp : Z) (ys : yields) (t : turn)
    (c : cache) (w : world) (ys' : yields) (out : outcome) :
  Forall (Forall stepOk) ys ->
  inFlush 0 (fun _ => True) r0 lp 0 [] c w ->
  (if cancelled t then runDoneWith ys t c w else runDefaultWith ys t c w)
  = Some (ys', out) ->
  Forall (Forall stepOk) ys'
  /\ exists c' w' lp',
       out = Returned c' w' /\ inFlush 0 (fun _ => True) r0 lp' 0 [] c' w'.
Proof.
  intros Hys Hin. destruct (cancelled t); unfold runDoneWith, runDefaultWith.
  - apply (inFlush_withDone _ _ _ _ _ _ true) in Hin.
    destruct (yield ys (withDone true c) w) as [[[ys1 c1] w1]|] eqn:Hy; [|done].
    destruct (yield_inFlush _ _ _ _ _ _ _ _ _ _ _ _ Hys Hy Hin) as [Hys1 Hin1].
    destruct (0 <? activeListeners c1).
    + by apply runPipelineWith_between with (lp := lp).
    + intros [= <- <-]. by eauto 10.
  - destruct (sizeTrigger c).
    + by apply runPipelineWith_between with (lp := lp).
    + destruct (yield ys c w) as [[[ys1 c1] w1]|] eqn:Hy; [|done].
      destruct (yield_inFlush _ _ _ _ _ _ _ _ _ _ _ _ Hys Hy Hin) as [Hys1 Hin1].
      destruct (timeTrigger (clock t) c1).
      * by apply runPipelineWith_between with (lp := lp).
      * intros [= <- <-]. by eauto 10.
Qed.

Lemma interleaved_between (r0 : option nat) (ss : list step) :
  forall (lp : Z) (ys : yields) (c : cache) (w : world)
         (ys' : yields) (out : outcome),
  Forall stepOk ss -> Forall (Forall stepOk) ys ->
  inFlush 0 (fun _ => True) r0 lp 0 [] c w ->
  interleaved ss ys c w = Some (ys', out) ->
  exists c' w' lp',
    out = Returned c' w' /\ inFlush 0 (fun _ => True) r0 lp' 0 [] c' w'.
Proof.
  induction ss as [|s ss IH]; intros lp ys c w ys' out Hss Hys Hin.
  - intros [= <- <-]. by eauto.
  - apply Forall_cons in Hss as [Hs Hss].
    assert (forall c1 w1, callerStep s c w = Some (c1, w1) ->
            interleaved ss ys c1 w1 = Some (ys', out) ->
            exists c' w' lp',
              out = Returned c' w'
              /\ inFlush 0 (fun _ => True) r0 lp' 0 [] c' w') as Hcaller.
    { intros c1 w1 Hstep Hrest. apply (IH lp ys c1 w1 ys' out Hss Hys); [|done].
      by apply (callerStep_inFlush _ _ _ _ _ _ s c c1 w w1). }
    destruct s as [kd a|kd a|r|r|t];
      [cbn [interleaved];
       match goal with
       | |- context [callerStep ?s c w] =>
           destruct (callerStep s c w) as [[c1 w1]|] eqn:Hstep; [|done];
           by apply Hcaller
       end..|].
    cbn [interleaved].
    destruct (if cancelled t then runDoneWith ys t c w
              else runDefaultWith ys t c w) as [[ys1 out1]|] eqn:Hturn; [|done].
    destruct (turnWith_between r0 lp ys t c w ys1 out1 Hys Hin Hturn)
      as (Hys1 & c1 & w1 & lp1 & -> & Hin1).
    by apply (IH lp1 ys1 c1 w1 ys' out).
Qed.

(** A step of a caller is refused only when it is a turn of the loop, the
    close of a handle that is not open, or a read that would wait: a call
    of [enqueue] is never refused. *)
Lemma callerStep_None (s : step) (c : cache) (w : world) :
  callerStep s c w = None
  <-> (exists t, s = DoTurn t)
      \/ (exists r, s = DoClose r /\ isOpen w r = false)
      \/ (exists r, s = DoReceive r /\ chanRecv r w = RecvBlock).
Proof.
  destruct s as [kd a|kd a|r|r|t]; simpl.
  - destruct (enqueue kd a c w) as [[? ?] ?]. split; [done|].
    by intros [[? ?]|[(? & ? & _)|(? & ? & _)]].
  - destruct (register kd a c w) as [[? ?] ?]. split; [done|].
    by intros [[? ?]|[(? & ? & _)|(? & ? & _)]].
  - unfold isOpen. destruct (chans w !! r) as [[[] buf]|] eqn:Hr; simpl.
    + split; [|done]. intros _. right. left. exists r. by rewrite Hr.
    + split; [done|].
      intros [[? ?]|[(r' & [= <-] & H)|(? & ? & _)]]; [done| |done].
      by rewrite Hr in H.
    + split; [|done]. intros _. right. left. exists r. by rewrite Hr.
  - destruct (chanRecv r w) as [v w'| |] eqn:Hrecv.
    + split; [done|].
      intros [[? ?]|[(? & ? & _)|(r' & [= <-] & H)]]; [done..|]. congruence.
    + split; [done|].
      intros [[? ?]|[(? & ? & _)|(r' & [= <-] & H)]]; [done..|]. congruence.
    + split; [|done]. intros _. right. right. by exists r.
  - split; [|done]. intros _. left. by exists t.
Qed.

(** With no caller overtaking it, a flush is [runPipeline], and a schedule
    is the schedule of whole calls. *)
Lemma deliverWith_nil (cmd : redisCmd) (ls : list nat) (c : cache) (w : world) :
  deliverWith [] cmd ls c w = Some ([], deliver cmd ls c w).
Proof.
  revert c w. induction ls as [|r ls IH]; intros c w; simpl; [done|].
  destruct (chanSend r cmd w); [apply IH|done..].
Qed.

Lemma sendResultWith_nil (h : string) (cmd : redisCmd) (c : cache) (w : world) :
  sendResultWith [] h cmd c w = Some ([], sendResult h cmd c w).
Proof.
  unfold sendResultWith, sendResult. destruct (storage c !! h); [|done].
  simpl. rewrite deliverWith_nil. by destruct (deliver _ _ _ _).
Qed.

Lemma dispatchWith_nil (answers : list reply) (rs : list (string * redisCmd))
    (c : cache) (w : world) :
  dispatchWith [] answers rs c w = Some ([], dispatch answers rs c w).
Proof.
  revert c w. induction rs as [|[h cmd] rs IH]; intros c w; simpl; [done|].
  rewrite sendResultWith_nil.
  destruct (sendResult h (populate answers cmd) c w); simpl; [apply IH|done..].
Qed.

Lemma runPipelineWith_nil (rt : roundTrip) (now : Z) (c : cache) (w : world) :
  runPipelineWith [] rt now c w = Some ([], runPipeline rt now c w).
Proof.
  unfold runPipelineWith, runPipeline. simpl.
  destruct (gather _ _); [|done]. simpl.
  destruct (rtErr rt ≫= execMessage); [done|apply dispatchWith_nil].
Qed.

Lemma interleaved_nil (ss : list step) (c : cache) (w : world)
    (ys' : yields) (out : outcome) :
  interleaved ss [] c w = Some (ys', out) -> ys' = [] /\ out = schedule ss c w.
Proof.
  revert c w. induction ss as [|s ss IH]; intros c w.
  - by intros [= <- <-].
  - assert (forall c1 w1, callerStep s c w = Some (c1, w1) ->
            doStep s c w = Returned c1 w1) as Hcaller.
    { intros c1 w1. unfold callerStep. destruct s; try done;
        match goal with
        | |- context [doStep ?s c w] =>
            by destruct (doStep s c w); [intros [= <- <-]|..]
        end. }
    destruct s as [kd a|kd a|r|r|t];
      [cbn [interleaved schedule];
       match goal with
       | |- context [callerStep ?s c w] =>
           destruct (callerStep s c w) as [[c1 w1]|] eqn:Hstep; [|done];
           rewrite (Hcaller c1 w1 eq_refl); by apply IH
       end..|].
    cbn [interleaved schedule doStep].
    assert ((if cancelled t then runDoneWith [] t c w else runDefaultWith [] t c w)
            = Some ([], if cancelled t then runDone t c w else runDefault t c w))
      as ->.
    { destruct (cancelled t); unfold runDoneWith, runDefaultWith, runDone, runDefault;
        simpl.
      - destruct (0 <? _); [apply runPipelineWith_nil|done].
      - destruct (sizeTrigger c); [apply runPipelineWith_nil|].
        destruct (timeTrigger _ c); [apply runPipelineWith_nil|done]. }
    destruct (if cancelled t then runDone t c w else runDefault t c w);
      simpl; [by apply IH|by intros [= <- <-]..].
Qed.

(** X14: take a schedule of calls of [enqueue] with arguments made for
    their kind, registrations of calls that read [done] earlier, closes
    and reads of handles, and turns of the loop, and let the callers
    overtake the turns wherever the lock lets them: before the table is
    read, during the round-trip, around the lock of [sendResult], after
    each send and each decrement.  Whenever the steps of the callers can
    be taken -- none closes a handle twice or reads where it would wait --
    every turn returns, nothing having panicked without recovery or blocked
    in the engine, and the state at the end is well formed. *)
Theorem interleaved_wellFormed (ss : list step) (ys : yields) (c : cache)
    (w : world) (ys' : yields) (out : outcome) :
  Forall stepOk ss -> Forall (Forall stepOk) ys -> wellFormed c w ->
  interleaved ss ys c w = Some (ys', out) ->
  exists c' w', out = Returned c' w' /\ wellFormed c' w'.
Proof.
  intros Hss Hys Hwf Hrun.
  destruct (interleaved_between None ss (lastPipeline c) ys c w ys' out Hss Hys)
    as (c' & w' & lp' & -> & Hwf' & _); [|done|by eauto].
  split; [exact Hwf|]. split; [simpl; lia|]. split; [by left|]. by split.
Qed.

Lemma interleaved_wellFormed_witness :
  exists ys' c' w',
    overtakenRun = Some (ys', Returned c' w') /\ wellFormed c' w'.
Proof.
  assert (bool_decide (is_Some overtakenRun) = true) as Hsome
    by (vm_compute; reflexivity).
  apply bool_decide_eq_true_1 in Hsome as [[ys' out] Hrun].
  rewrite Hrun. unfold overtakenRun in Hrun.
  match type of Hrun with
  | interleaved ?ss ?ys ?c ?w = _ =>
      destruct (interleaved_wellFormed ss ys c w ys' out) as (c' & w' & -> & Hwf)
  end.
  - repeat constructor; by eexists.
  - repeat constructor; by eexists.
  - apply wellFormed_newCache.
  - exact Hrun.
  - exists ys', c', w'. exact (conj eq_refl Hwf).
Defined.

(** X12: in such a schedule, as long as [sendResult] has recovered from no
    panic, the counter of listeners is the number of handles that wait, as
    an [int32]: if it is so at the beginning and no panic has been
    recovered from by the end, it is so at the end, whatever the callers
    did and wherever they overtook the turns. *)
Theorem counter_kept (ss : list step) (ys : yields) (c : cache)
    (w : world) (ys' : yields) (out : outcome) :
  Forall stepOk ss -> Forall (Forall stepOk) ys -> wellFormed c w ->
  counts 0 c ->
  interleaved ss ys c w = Some (ys', out) ->
  recoveries (worldOf out) = recoveries w ->
  counts 0 (cacheOf out)
  /\ (Z.of_nat (length (allListeners (cacheOf out))) <= maxInt32 ->
      counted (cacheOf out)).
Proof.
  intros Hss Hys Hwf Hc Hrun Hrec.
  destruct (interleaved_between (Some (recoveries w)) ss (lastPipeline c) ys c w
              ys' out Hss Hys)
    as (c' & w' & lp' & -> & _ & _ & _ & _ & Hcnt); [|done|].
  { split; [exact Hwf|]. split; [simpl; lia|]. split; [by left|].
    split; [done|]. by intros r [= <-]. }
  destruct (Hcnt _ eq_refl) as [_ Hc']. specialize (Hc' Hrec).
  split; [exact Hc'|]. simpl. intros Hmax. unfold counted, counts in *.
  rewrite Hc'. simpl. apply int32_small. unfold maxInt32 in *. lia.
Qed.

Lemma counter_kept_witness :
  exists ys' out,
    overtakenRun = Some (ys', out)
    /\ counts 0 (cacheOf out) /\ counted (cacheOf out).
Proof.
  pose (n := match overtakenRun with
             | Some (_, o) =>
                 (recoveries (worldOf o), length (allListeners (cacheOf o)))
             | None => (1%nat, 0%nat)
             end).
  assert (n = (0%nat, 1%nat)) as Hn by (vm_compute; reflexivity).
  unfold n in Hn.
  destruct overtakenRun as [[ys' out]|] eqn:Hrun; [|discriminate Hn].
  injection Hn as Hrec Hlen.
  unfold overtakenRun in Hrun.
  match type of Hrun with
  | interleaved ?ss ?ys ?c ?w = _ =>
      destruct (counter_kept ss ys c w ys' out) as [Hc Hcd]
  end.
  - repeat constructor; by eexists.
  - repeat constructor; by eexists.
  - apply wellFormed_newCache.
  - reflexivity.
  - exact Hrun.
  - exact Hrec.
  - exists ys', out. split; [reflexivity|]. split; [exact Hc|].
    apply Hcd. rewrite Hlen. vm_compute. discriminate.
Defined.



(** ** A call of [enqueue] that races with the end of the loop *)

(** A step of a caller other than its close leaves a handle that waits,
    open and empty, as it is, on a cache that is stopped. *)
Lemma callerStep_waiting (r : nat) (s : step) (c c' : cache) (w w' : world) :
  s <> DoClose r ->
  callerStep s c w = Some (c', w') ->
  r ∈ allListeners c
  /\ chans w !! r = Some {| chClosed := false; chBuf := [] |}
  /\ done c = true ->
  r ∈ allListeners c'
  /\ chans w' !! r = Some {| chClosed := false; chBuf := [] |}
  /\ done c' = true.
Proof.
  intros Hs Hstep (Hr & Hch & Hdone).
  assert (r < length (chans w))%nat as Hlt by (by eapply lookup_lt_Some).
  destruct s as [kd a|kd a|r'|r'|t]; simpl in Hstep.
  - unfold enqueue in Hstep. simpl in Hstep. rewrite Hdone in Hstep.
    injection Hstep as <- <-. split; [done|]. split; [|done].
    pose proof (closeChan_fresh (logError ErrCacheStopped w)
                  {| chClosed := false; chBuf := [] |}) as Hc.
    unfold logError, emit, withChans in *. simpl in *.
    rewrite Hc. by rewrite lookup_app_l.
  - pose proof (allListeners_register kd a c w) as Hperm.
    pose proof (register_world kd a c w) as Hw.
    assert (done (register kd a c w).1.2 = done c) as Hd
      by (by rewrite register_eq).
    destruct (register kd a c w) as [[r1 c1] w1]. simpl in *.
    injection Hstep as <- <-. subst w1. split; [|split].
    + rewrite Hperm. by right.
    + simpl. by rewrite lookup_app_l.
    + congruence.
  - destruct (chans w !! r') as [ch|] eqn:Hr'; [|done].
    destruct (chClosed ch); [done|]. injection Hstep as <- <-.
    split; [done|]. split; [|done].
    unfold closeChan. rewrite Hr'. simpl.
    rewrite list_lookup_insert_ne; [done|]. by intros ->.
  - destruct (chanRecv r' w) as [v w1| |] eqn:Hrecv; [| |done];
      injection Hstep as <- <-; [|done].
    split; [done|]. split; [|done].
    unfold chanRecv in Hrecv. destruct (chans w !! r') as [ch|] eqn:Hch'; [|done].
    destruct (chBuf ch) as [|v' rest] eqn:Hbuf; [by destruct (chClosed ch)|].
    injection Hrecv as _ <-. simpl.
    rewrite list_lookup_insert_ne; [done|]. intros ->.
    rewrite Hch in Hch'. injection Hch' as <-. done.
  - done.
Qed.

Lemma callerSteps_waiting (r : nat) (ss : list step) :
  forall (c c' : cache) (w w' : world),
  DoClose r ∉ ss ->
  callerSteps ss c w = Some (c', w') ->
  r ∈ allListeners c
  /\ chans w !! r = Some {| chClosed := false; chBuf := [] |}
  /\ done c = true ->
  r ∈ allListeners c'
  /\ chans w' !! r = Some {| chClosed := false; chBuf := [] |}
  /\ done c' = true.
Proof.
  induction ss as [|s ss IH]; intros c c' w w' Hss; simpl.
  - by intros [= <- <-].
  - apply not_elem_of_cons in Hss as [Hs Hss].
    destruct (callerStep s c w) as [[c1 w1]|] eqn:Hstep; [|done].
    intros Hrest Hinv. apply (IH c1 c' w1 w' Hss Hrest).
    by apply (callerStep_waiting r s c c1 w w1).
Qed.

(** X15: a call of [enqueue] that reads [done] before the context is
    cancelled and takes the lock after the last turn of the loop is left
    waiting.  Cancelled while no listener waits, the loop returns without
    running the pipeline, whatever turns it might have taken; the call then
    puts its handle into the table; and whatever the callers do after
    that, short of closing this handle, it stays in the table, open and
    empty, on a cache that is stopped. *)
Theorem late_registration_waits (t : turn) (ts : list turn)
    (k : operationPrefix) (a : list string) (ss : list step)
    (c c' : cache) (w w' : world) :
  cancelled t = true -> activeListeners c <= 0 ->
  DoClose (length (chans w)) ∉ ss ->
  callerSteps (DoRegister k a :: ss) (withDone true c) w = Some (c', w') ->
  run (t :: ts) c w = Returned (withDone true c) w
  /\ length (chans w) ∈ allListeners c'
  /\ chans w' !! length (chans w) = Some {| chClosed := false; chBuf := [] |}
  /\ done c' = true.
Proof.
  intros Ht Hact Hss Hsteps. split.
  - simpl. rewrite Ht. unfold runDone.
    change (activeListeners (withDone true c)) with (activeListeners c).
    by replace (0 <? activeListeners c) with false by lia.
  - cbn [callerSteps callerStep doStep] in Hsteps.
    pose proof (allListeners_register k a (withDone true c) w) as Hperm.
    pose proof (register_world k a (withDone true c) w) as Hw.
    assert (done (register k a (withDone true c) w).1.2 = true) as Hd
      by (by rewrite register_eq).
    destruct (register k a (withDone true c) w) as [[r1 c1] w1]. simpl in *.
    apply (callerSteps_waiting (length (chans w)) ss c1 c' w1 w' Hss Hsteps).
    split; [|split; [|done]].
    + rewrite Hperm. by left.
    + subst w1. simpl. by rewrite list_lookup_middle.
Qed.

Lemma late_registration_waits_witness :
  let c := newCache 0 defaultCacheTTL defaultRunInterval defaultCacheSize in
  let t := {| cancelled := true; clock := 1000;
              answer := {| rtErr := None; rtReplies := [] |};
              clockAfter := 1000 |} in
  exists c' w',
    callerSteps [DoRegister Get ["key1"]; DoEnqueue Get ["key1"];
                 DoReceive 1%nat]%string (withDone true c) emptyWorld
    = Some (c', w')
    /\ run [t] c emptyWorld = Returned (withDone true c) emptyWorld
    /\ 0%nat ∈ allListeners c'
    /\ chans w' !! 0%nat = Some {| chClosed := false; chBuf := [] |}.
Proof.
  intros c t.
  match goal with
  | |- context [callerSteps ?ss ?c0 ?w0] =>
      assert (bool_decide (is_Some (callerSteps ss c0 w0)) = true) as Hsome
        by (vm_compute; reflexivity);
      apply bool_decide_eq_true_1 in Hsome as [[c' w'] Hsteps]
  end.
  destruct (late_registration_waits t [] Get ["key1"]%string
              [DoEnqueue Get ["key1"]; DoReceive 1%nat]%string
              c c' emptyWorld w') as (Hrun & Hin & Hch & _).
  - reflexivity.
  - vm_compute. discriminate.
  - rewrite !elem_of_cons, elem_of_nil. intros [H|[H|[]]]; discriminate H.
  - exact Hsteps.
  - exists c', w'. split; [exact Hsteps|]. split; [exact Hrun|].
    split; [exact Hin|exact Hch].
Defined.

(** ** hash.go: the shape of a fingerprint *)

Section Fingerprint_shape.
Import Sha256.

Lemma round_length (s : list Z) (kw : Z * Z) :
  length s = 8%nat -> length (round s kw) = 8%nat.
Proof.
  intros Hs. do 9 (destruct s as [|? s]; try discriminate). done.
Qed.

Lemma rounds_length (kws : list (Z * Z)) (s : list Z) :
  length s = 8%nat -> length (fold_left round kws s) = 8%nat.
Proof.
  revert s. induction kws as [|kw kws IH]; intros s Hs; simpl; [done|].
  by apply IH, round_length.
Qed.

Lemma compress_length (h block : list Z) :
  length h = 8%nat -> length (compress h block) = 8%nat.
Proof.
  intros Hh. unfold compress.
  rewrite length_map, length_combine, rounds_length by done. lia.
Qed.

Lemma bigEndian_length (n : nat) (x : Z) : length (bigEndian n x) = n.
Proof.
  revert x. induction n as [|n IH]; intros x; simpl; [done|].
  rewrite length_app, IH. simpl. lia.
Qed.

Lemma Sum256_length (msg : list Z) : length (Sum256 msg) = 32%nat.
Proof.
  unfold Sum256.
  assert (forall bs h, length h = 8%nat ->
            length (fold_left compress bs h) = 8%nat) as Hfold.
  { induction bs as [|b bs IH]; intros h Hh; simpl; [done|].
    by apply IH, compress_length. }
  specialize (Hfold (blocks (length (words (length (pad msg)) (pad msg)))
                       (words (length (pad msg)) (pad msg))) H0 eq_refl).
  assert (forall ws, length (flat_map (bigEndian 4) ws) = (4 * length ws)%nat)
    as Hflat.
  { induction ws as [|x ws IH]; [done|]. cbn [flat_map].
    rewrite length_app, bigEndian_length, IH. simpl. lia. }
  by rewrite Hflat, Hfold.
Qed.

Lemma sprintfHex_length (bs : list Z) :
  String.length (sprintfHex bs) = (2 * length bs)%nat.
Proof. induction bs as [|b bs IH]; simpl; [done|]. rewrite IH. lia. Qed.

End Fingerprint_shape.

(** X13: the key [hashStringSlice] returns has 64 characters, whatever
    the kind and the arguments. *)
Theorem hashStringSlice_length (operation : operationPrefix) (a : list string) :
  String.length (hashStringSlice operation a) = 64%nat.
Proof.
  unfold hashStringSlice. by rewrite sprintfHex_length, Sum256_length.
Qed.
